(** * Template matching (circus.py): overlap tensor, OMP peeler, Greedy peeler

    A shallow embedding of
    [spikeinterface/sortingcomponents/matching/circus.py].

    Numerics.  The source computes in 32-bit floating point; this
    development reads every float as a real number ([R]) and every
    arithmetic operation as the exact one.  The only non-finite value the
    source writes on purpose is [-np.inf] (ignored rows in OMP, suppressed
    entries in Greedy); score tensors therefore range over [score], the
    reals extended by minus infinity.  Comparisons are the decidable
    comparisons of [R] turned into booleans. *)

From Stdlib Require Import Reals Lra Lia ZArith List Bool Permutation Sorted.
From stdpp Require Import base option list gmap strings.
Import ListNotations.

Local Open Scope R_scope.

(** ** Scalars *)

Definition Rltb (x y : R) : bool := if Rlt_dec x y then true else false.
Definition Rleb (x y : R) : bool := if Rle_dec x y then true else false.

(** ** Arrays

    A 1-D array is a list, a 2-D array a list of rows, a 3-D array a list
    of 2-D arrays, taken to have the shapes [initialize_and_check_kwargs]
    gives them.  Reads of float arrays go through [nth] with default [0];
    where the source can raise on an index that depends on the trace or
    on the detected peaks, the definition says so and returns an error. *)

Abbreviation vector := (list R) (only parsing).
Abbreviation matrix := (list (list R)) (only parsing).
Abbreviation tensor3 := (list (list (list R))) (only parsing).

Definition vget (v : vector) (i : nat) : R := nth i v 0.
Definition mrow (A : matrix) (i : nat) : vector := nth i A [].
Definition mget (A : matrix) (i j : nat) : R := vget (mrow A i) j.
Definition tget (T : tensor3) (i j k : nat) : R := mget (nth i T []) j k.

(** [arr.sum()] *)
Fixpoint Rsum (l : list R) : R :=
  match l with
  | [] => 0
  | x :: l' => x + Rsum l'
  end.

(** [a.dot(b)] on two flat vectors of the same length *)
Fixpoint dot (a b : list R) : R :=
  match a, b with
  | x :: a', y :: b' => x * y + dot a' b'
  | _, _ => 0
  end.

(** [np.linalg.norm(A)] of a 2-D array: the Frobenius norm *)
Definition sumsq (A : matrix) : R := dot (concat A) (concat A).
Definition frobenius (A : matrix) : R := sqrt (sumsq A).

(** [A.T] of an [n x n] array *)
Definition transpose (n : nat) (A : matrix) : matrix :=
  map (fun j => map (fun i => mget A i j) (seq 0 n)) (seq 0 n).

(** ** Overlap builder: [compute_overlaps] *)

Module Overlaps.

(** The arguments are read as [_prepare_templates] builds them: at least
    one template, [num_samples >= 1] rows in each, and in every row one
    value per listed channel.  On other shapes the source raises (no
    template, no sample, a template whose shape does not fit its block)
    or broadcasts a one-row template, where the definitions below read
    absent values as absent; statements on when the function raises are
    made for well-shaped arguments. *)

(** [dense[c] = v] for [c] in the channel list, one value per channel, in
    order (a later write to the same channel wins); a channel index
    outside [0, C) raises [IndexError], modelled as [None]. *)
Fixpoint scatter (row : vector) (sigma : list nat) (vals : vector)
  : option vector :=
  match sigma, vals with
  | c :: sigma', v :: vals' =>
      if (c <? length row)%nat then scatter (<[c := v]> row) sigma' vals'
      else None
  | _, _ => Some row
  end.

(** [dense_templates[i, :, sparsities[i]] = templates[i].T] on a zero
    [L x C] block *)
Definition densify_one (num_samples num_channels : nat)
    (template : matrix) (sigma : list nat) : option matrix :=
  mapM (fun t => scatter (repeat 0 num_channels) sigma (mrow template t))
       (seq 0 num_samples).

Definition densify (num_samples num_channels : nat)
    (templates : list matrix) (sparsities : list (list nat))
  : option tensor3 :=
  mapM (fun i => densify_one num_samples num_channels
                   (nth i templates []) (nth i sparsities []))
       (seq 0 (length templates)).

(** [dense[:, :delay, :].reshape(N, -1)] and
    [dense[:, L - delay:, :].reshape(N, -1)] *)
Definition source (delay : nat) (dense : tensor3) : list vector :=
  map (fun W => concat (take delay W)) dense.
Definition target (num_samples delay : nat) (dense : tensor3) : list vector :=
  map (fun W => concat (drop (num_samples - delay) W)) dense.

(** [source.dot(target.T)] *)
Definition cross (num_samples delay : nat) (dense : tensor3) : matrix :=
  map (fun s => map (fun t => dot s t) (target num_samples delay dense))
      (source delay dense).

(** One turn of the loop over [all_delays]: store the lag matrix at key
    [delay] and, when [delay < num_samples], its transpose at key
    [size - delay + 1]. *)
Definition store_delay (num_samples : nat) (dense : tensor3)
    (overlaps : gmap nat matrix) (delay : nat) : gmap nat matrix :=
  let size := (2 * num_samples - 1)%nat in
  let X := cross num_samples delay dense in
  let overlaps := <[delay := X]> overlaps in
  if (delay <? num_samples)%nat
  then <[(size - delay + 1)%nat := transpose (length dense) X]> overlaps
  else overlaps.

Definition all_delays (num_samples : nat) : list nat := seq 0 (num_samples + 1).

Definition overlaps_dict (num_samples : nat) (dense : tensor3)
  : gmap nat matrix :=
  fold_left (store_delay num_samples dense) (all_delays num_samples) ∅.

(** [hstack([overlaps[j][i, :].T for j in range(size)])]: an [N x size]
    array whose column [j] is row [i] of [overlaps[j]]; a missing key
    raises [KeyError], modelled as [None]. *)
Definition restack (num_templates size : nat) (overlaps : gmap nat matrix)
    (i : nat) : option matrix :=
  cols ← mapM (fun j => X ← overlaps !! j; Some (mrow X i)) (seq 0 size);
  Some (map (fun m => map (fun col => vget col m) cols) (seq 0 num_templates)).

Definition compute_overlaps (templates : list matrix)
    (num_samples num_channels : nat) (sparsities : list (list nat))
  : option tensor3 :=
  let num_templates := length templates in
  dense ← densify num_samples num_channels templates sparsities;
  let size := (2 * num_samples - 1)%nat in
  mapM (restack num_templates size (overlaps_dict num_samples dense))
       (seq 0 num_templates).

End Overlaps.

(** ** Template normalisation

    The loop closing [CircusOMPPeeler._prepare_templates]: for every
    template keep the unmasked channels, take the Frobenius norm of what
    is kept, divide by it.  The rank-truncated reconstruction that
    precedes the loop (an SVD) is taken as the input [templates]. *)

Module Prepare.

(** [np.nonzero(mask)] *)
Fixpoint nonzero_from (k : nat) (mask : list bool) : list nat :=
  match mask with
  | [] => []
  | b :: mask' =>
      if b then k :: nonzero_from (S k) mask' else nonzero_from (S k) mask'
  end.

Definition nonzero (mask : list bool) : list nat := nonzero_from 0 mask.

(** [row[mask]] *)
Fixpoint select (mask : list bool) (row : vector) : vector :=
  match mask, row with
  | b :: mask', x :: row' =>
      if b then x :: select mask' row' else select mask' row'
  | _, _ => []
  end.

(** [templates[count][:, sparsity[count]]] *)
Definition restrict (mask : list bool) (W : matrix) : matrix :=
  map (select mask) W.

Definition norm_of (mask : list bool) (W : matrix) : R :=
  frobenius (restrict mask W).

Definition normalize (mask : list bool) (W : matrix) : matrix :=
  map (map (fun x => x / norm_of mask W)) (restrict mask W).

Definition norms (templates : list matrix) (sparsity : list (list bool))
  : vector :=
  map (fun i => norm_of (nth i sparsity []) (nth i templates []))
      (seq 0 (length templates)).

Definition normalized (templates : list matrix) (sparsity : list (list bool))
  : list matrix :=
  map (fun i => normalize (nth i sparsity []) (nth i templates []))
      (seq 0 (length templates)).

Definition sparsities (templates : list matrix) (sparsity : list (list bool))
  : list (list nat) :=
  map (fun i => nonzero (nth i sparsity [])) (seq 0 (length templates)).

End Prepare.

(** ** OMP stopping threshold

    [d["stop_criteria"] = omp_min_sps *
       np.maximum(d["norms"], np.sqrt(d["noise_levels"].sum() * d["num_samples"]))] *)

Definition init_stop_criteria (omp_min_sps : R) (norms noise_levels : vector)
    (num_samples : nat) : vector :=
  map (fun nrm =>
         omp_min_sps * Rmax nrm (sqrt (Rsum noise_levels * INR num_samples)))
      norms.

(** ** Scores, detections, outcomes *)

(** An entry of a score tensor: a real, or the [-np.inf] the source
    writes into it. *)
Inductive score := NegInf | Fin (x : R).

Definition score_add (s : score) (x : R) : score :=
  match s with NegInf => NegInf | Fin y => Fin (y + x) end.
Definition score_sub (s : score) (x : R) : score :=
  match s with NegInf => NegInf | Fin y => Fin (y - x) end.
(** the value handed to the linear solver; only finite entries are ever
    selected, so the [NegInf] case is never read *)
Definition score_val (s : score) : R :=
  match s with NegInf => 0 | Fin y => y end.
Definition is_neg_inf (s : score) : bool :=
  match s with NegInf => true | Fin _ => false end.

(** A record of [spike_dtype], without [segment_index], which
    [main_function] leaves unset. *)
Record spike := Spike {
  sample_index : Z;
  channel_index : Z;
  cluster_index : nat;
  amplitude : R;
}.

Inductive error := IndexError | ValueError.

(** What a call does: return a value, raise, or (for the bounded loops
    of this model only) use up the iteration budget it was given. *)
Inductive result (A : Type) :=
| Ok (a : A)
| Raise (e : error)
| OutOfFuel.
Arguments Ok {A} a.
Arguments Raise {A} e.
Arguments OutOfFuel {A}.

(** Row-major enumeration of a 2-D array with its indices. *)
Definition entries {A : Type} (S : list (list A)) : list (nat * nat * A) :=
  concat (imap (fun n row => imap (fun p s => (n, p, s)) row) S).

(** [a.argmax()]: the first maximal element. *)
Fixpoint argmax_from (best : nat * nat * R) (l : list (nat * nat * R))
  : nat * nat * R :=
  match l with
  | [] => best
  | c :: l' => argmax_from (if Rltb best.2 c.2 then c else best) l'
  end.

Definition argmax (l : list (nat * nat * R)) : option (nat * nat * R) :=
  match l with
  | [] => None
  | c :: l' => Some (argmax_from c l')
  end.

(** [scalar_products[is_valid].argmax()] unravelled through
    [idx_lookup[is_valid]]: position and value of the first largest
    valid entry, [None] when [np.any(is_valid)] is false. *)
Definition select_best (valid : nat -> R -> bool) (S : list (list score))
  : option (nat * nat * R) :=
  argmax (omap (fun e : nat * nat * score =>
                  match e.2 with
                  | Fin x => if valid e.1.1 x then Some (e.1, x) else None
                  | NegInf => None
                  end) (entries S)).

(** [A[i, j] = v] *)
Definition mset {A : Type} (S : list (list A)) (i j : nat) (v : A)
  : list (list A) :=
  alter (fun row => <[j := v]> row) i S.

(** [A[:, lo:hi] = f(A[:, lo:hi])], entry by entry *)
Definition update_cols {A : Type} (lo hi : nat) (f : nat -> nat -> A -> A)
    (S : list (list A)) : list (list A) :=
  imap (fun m row =>
          imap (fun q s => if (lo <=? q)%nat && (q <? hi)%nat
                           then f m q s else s) row) S.

(** [np.argsort(spikes["sample_index"])] followed by [spikes[order]]:
    insertion sort on the key (the order [numpy] gives to equal keys is
    not fixed by its default sort; the one chosen here keeps them in
    input order). *)
Fixpoint insert_spike (s : spike) (l : list spike) : list spike :=
  match l with
  | [] => [s]
  | h :: t =>
      if (sample_index s <=? sample_index h)%Z then s :: l
      else h :: insert_spike s t
  end.

Definition argsort_spikes (l : list spike) : list spike :=
  fold_right insert_spike [] l.

(** [np.finfo(np.float32).eps] *)
Definition omp_tol : R := / 2 ^ 23.

(** ** Triangular solves *)

(** Forward substitution, [scipy.linalg.solve_triangular(L, b, lower=1)]:
    [x_i = (b_i - sum_{j<i} L[i,j] x_j) / L[i,i]]. *)
Fixpoint solve_lower_from (x : vector) (rows : matrix) (b : vector) : vector :=
  match rows, b with
  | r :: rows', bi :: b' =>
      solve_lower_from
        (x ++ [(bi - dot r x) / vget r (length x)]) rows' b'
  | _, _ => x
  end.

Definition solve_lower (Lm : matrix) (b : vector) : vector :=
  solve_lower_from [] Lm b.

(** Back substitution with the transpose of a lower factor:
    [x_i = (y_i - sum_{j>i} L[j,i] x_j) / L[i,i]]. *)
Fixpoint solve_upper_from (Lm : matrix) (y : vector) (i : nat) (xs : vector)
  : vector :=
  match i with
  | O => xs
  | S i' =>
      let col := map (fun j => mget Lm j i') (seq (S i') (length xs)) in
      solve_upper_from Lm y i' ((vget y i' - dot col xs) / mget Lm i' i' :: xs)
  end.

(** LAPACK [potrs] with [lower=True]: solve [(L L^T) x = b]. *)
Definition potrs (Lm : matrix) (b : vector) : vector :=
  let y := solve_lower Lm b in
  solve_upper_from Lm y (length y) [].

(** BLAS [nrm2] *)
Definition nrm2 (x : vector) : R := sqrt (dot x x).

(** ** OMP peeler: [CircusOMPPeeler.main_function] *)

Module OMP.

(** The keys of [d] that [main_function] reads.  [overlaps] holds the
    dense form of each sparse matrix ([toarray()]; the per-cluster cache
    of dense copies and the per-peak cache of neighbour windows only
    memoise pure values and are left out).  With [N] templates of
    [L = nbefore + nafter >= 1] samples on [C] channels, [overlaps] is
    [N x N x (2L - 1)] and [norms], [stop_criteria] have [N] entries. *)
Record params := {
  num_templates : nat;
  overlaps : tensor3;
  norms : vector;
  nbefore : nat;
  nafter : nat;
  amplitudes : R * R;
  ignored_ids : list nat;
  stop_criteria : vector;
  vicinity : Z;
  spatial : tensor3;   (* rank x N x C *)
  singular : matrix;   (* rank x N (x 1) *)
  temporal : tensor3;  (* rank x N x L, time reversed *)
}.

Definition num_samples (d : params) : nat := (nafter d + nbefore d)%nat.

(** One output sample of [oaconvolve(f, g, mode="valid")] along time. *)
Definition conv_valid (f g : vector) (p : nat) : R :=
  Rsum (map (fun j => vget g j * vget f (p + (length g - 1 - j)))
            (seq 0 (length g))).

(** [np.matmul(spatial, traces.T) * singular] for one rank and template,
    as a function of time. *)
Definition scaled_filtered (d : params) (traces : matrix) (r n : nat)
  : vector :=
  map (fun row => dot (mrow (nth r (spatial d) []) n) row
                  * mget (singular d) r n) traces.

(** [np.sum(objective_by_rank, axis=0)] *)
Definition convolve (d : params) (traces : matrix) (num_peaks : nat)
  : matrix :=
  map (fun n =>
         map (fun p =>
                Rsum (map (fun r =>
                             conv_valid (scaled_filtered d traces r n)
                                        (mrow (nth r (temporal d) []) n) p)
                          (seq 0 (length (spatial d)))))
             (seq 0 num_peaks))
      (seq 0 (num_templates d)).

(** [scalar_products[ignored_ids] = -np.inf] *)
Definition ignore (ids : list nat) (S : matrix) : list (list score) :=
  imap (fun n row =>
          if existsb (Nat.eqb n) ids then map (fun _ => NegInf) row
          else map Fin row) S.

(** Whether [scipy.signal.oaconvolve] is handed an array without
    elements, in which case it returns the empty array at once and the
    scores stay at zero: the filtered data are [rank x N x T], the
    kernels [rank x N x num_samples]. *)
Definition empty_conv (d : params) (traces : matrix) : bool :=
  (length (spatial d) =? 0)%nat || (num_templates d =? 0)%nat
  || (length traces =? 0)%nat || (num_samples d =? 0)%nat.

(** The score tensor before the loop ([full_sps] is a copy of it), of
    shape [N x num_peaks] with [num_peaks = T - num_samples + 1]
    (written [T + 1 - num_samples] so that it is [0], not [1], on a
    trace one sample short).
    [ValueError] when [num_peaks] is negative ([np.zeros] refuses the
    shape) and when a non-empty trace is one sample short of a template
    (the convolution, its arguments swapped, has two columns, which
    [+=] cannot broadcast into none); an empty trace with templates of
    one sample gives an [N x 0] tensor.  [IndexError] when an ignored
    id is not a template. *)
Definition initial_scores (d : params) (traces : matrix)
  : result (list (list score)) :=
  if (length traces + 1 <? num_samples d)%nat then Raise ValueError
  else if negb (empty_conv d traces) && (length traces <? num_samples d)%nat
  then Raise ValueError
  else if negb (forallb (fun i => i <? num_templates d)%nat (ignored_ids d))
  then Raise IndexError
  else Ok (ignore (ignored_ids d)
             (convolve d traces (length traces + 1 - num_samples d))).

Record state := {
  scalar_products : list (list score);
  M : matrix;                      (* rows [0, num_selection) of the factor *)
  selection : list (nat * nat);    (* all_selections[:, :num_selection] *)
  final_amplitudes : matrix;
}.

Definition num_selection (st : state) : nat := length (selection st).

(** [is_valid = scalar_products > stop_criteria] *)
Definition is_valid (d : params) (n : nat) (x : R) : bool :=
  Rltb (vget (stop_criteria d) n) x.

(** [delta_t = selection[1] - peak_index] *)
Definition delta_t (sel : list (nat * nat)) (peak_index : nat) : list Z :=
  map (fun s => (Z.of_nat s.2 - Z.of_nat peak_index)%Z) sel.

(** [(delta_t < neighbor_window) & (delta_t > -num_samples)] *)
Definition in_window (d : params) (dt : Z) : bool :=
  (dt <? Z.of_nat (num_samples d) - 1)%Z && (- Z.of_nat (num_samples d) <? dt)%Z.

(** Row [num_selection] of [M] after
    [M[num_selection, idx] = overlaps[best][selection[0, idx], myline]]:
    zero outside [idx]. *)
Definition gram_row (d : params) (sel : list (nat * nat))
    (best_cluster_ind peak_index : nat) : vector :=
  map (fun s =>
         let dt := (Z.of_nat s.2 - Z.of_nat peak_index)%Z in
         if in_window d dt
         then mget (nth best_cluster_ind (overlaps d) []) s.1
                   (Z.to_nat (Z.of_nat (num_samples d) + dt))
         else 0)
      sel.

(** [np.where(np.abs(delta_t) < vicinity)[0]] *)
Definition in_vicinity (d : params) (sel : list (nat * nat)) (peak_index : nat)
  : list nat :=
  omap (fun e : nat * Z => if (Z.abs e.2 <? vicinity d)%Z then Some e.1 else None)
       (imap (fun i dt => (i, dt)) (delta_t sel peak_index)).

(** [M[rows, :][:, rows]] *)
Definition submatrix (A : matrix) (rows : list nat) : matrix :=
  map (fun i => map (fun j => mget A i j) rows) rows.

(** [row[idx] = vals] *)
Definition assign (row : vector) (idx : list nat) (vals : vector) : vector :=
  fold_left (fun r (e : nat * R) => <[e.1 := e.2]> r) (combine idx vals) row.

(** The part of row [num_selection] left of the diagonal once the
    triangular solve has overwritten it, and the candidate diagonal
    [Lkk = 1 - v] when the source computes one (it does not for the
    first selection, nor when no earlier atom is in the vicinity: the
    diagonal is then set to [1]). *)
Definition candidate (d : params) (st : state)
    (best_cluster_ind peak_index : nat) : vector * option R :=
  if (num_selection st =? 0)%nat then ([], None)
  else
    let g := gram_row d (selection st) best_cluster_ind peak_index in
    if (vicinity d =? 0)%Z then
      let x := solve_lower (M st) g in
      (x, Some (1 - nrm2 x ^ 2))
    else
      let near := in_vicinity d (selection st) peak_index in
      match near with
      | [] => (g, None)
      | _ =>
          let y := solve_lower (submatrix (M st) near)
                               (map (vget g) near) in
          (assign g near y, Some (1 - nrm2 y ^ 2))
      end.

(** The new row of the Cholesky factor, [None] when the candidate
    diagonal is at most [omp_tol] (the [break]). *)
Definition cholesky_row (d : params) (st : state)
    (best_cluster_ind peak_index : nat) : option vector :=
  match candidate d st best_cluster_ind peak_index with
  | (x, None) => Some (x ++ [1])
  | (x, Some Lkk) =>
      if Rleb Lkk omp_tol then None else Some (x ++ [sqrt Lkk])
  end.

(** [diff_amp * overlaps[tmp_best][:, tdx[0]:tdx[1]]] subtracted from
    [scalar_products[:, idx[0]:idx[1]]], with
    [idx = [max(0, p - L), min(P, p + L - 1)]] and
    [tdx = L + idx - p]. *)
Definition subtract (d : params) (num_peaks : nat)
    (tmp_best tmp_peak : nat) (diff_amp : R) (S : list (list score))
  : list (list score) :=
  let L := num_samples d in
  let lo := (tmp_peak - L)%nat in
  let hi := Nat.min num_peaks (tmp_peak + L - 1)%nat in
  update_cols lo hi
    (fun m q s =>
       score_sub s (diff_amp * mget (nth tmp_best (overlaps d) []) m
                                     (L + q - tmp_peak)%nat))
    S.

Inductive step_result :=
| Finished                 (* no valid entry left *)
| Dependent                (* [break]: selected atoms are dependent *)
| Next (st : state)
| Failed (e : error).

(** One turn of [while np.any(is_valid)]. *)
Definition step (d : params) (full_sps : list (list score)) (num_peaks : nat)
    (st : state) : step_result :=
  match select_best (is_valid d) (scalar_products st) with
  | None => Finished
  | Some (best_cluster_ind, peak_index, _) =>
      match cholesky_row d st best_cluster_ind peak_index with
      | None => Dependent
      | Some row =>
          if (num_templates d * num_peaks <=? num_selection st)%nat
          then Failed IndexError     (* all_selections[:, num_selection] *)
          else
            let M' := M st ++ [row] in
            let sel := selection st ++ [(best_cluster_ind, peak_index)] in
            let res_sps :=
              map (fun s => score_val (nth s.2 (nth s.1 full_sps []) NegInf)) sel in
            let all_amplitudes :=
              map (fun e : R * (nat * nat) => e.1 / vget (norms d) e.2.1)
                  (combine (potrs M' res_sps) sel) in
            let diff_amplitudes :=
              map (fun e : R * (nat * nat) =>
                     e.1 - mget (final_amplitudes st) e.2.1 e.2.2)
                  (combine all_amplitudes sel) in
            let modified :=
              List.filter (fun e : R * (nat * nat) => Rltb omp_tol (Rabs e.1))
                          (combine diff_amplitudes sel) in
            let fa :=
              fold_left (fun A (e : R * (nat * nat)) => mset A e.2.1 e.2.2 e.1)
                        (combine all_amplitudes sel) (final_amplitudes st) in
            let S' :=
              fold_left (fun S (e : R * (nat * nat)) =>
                           subtract d num_peaks e.2.1 e.2.2
                                    (e.1 * vget (norms d) e.2.1) S)
                        modified (scalar_products st) in
            Next {| scalar_products := S'; M := M'; selection := sel;
                    final_amplitudes := fa |}
      end
  end.

(** The loop, given a budget of turns; the final amplitudes are what the
    code after the loop reads. *)
Fixpoint loop (fuel : nat) (d : params) (full_sps : list (list score))
    (num_peaks : nat) (st : state) : result state :=
  match fuel with
  | O => OutOfFuel
  | S fuel' =>
      match step d full_sps num_peaks st with
      | Finished => Ok st
      | Dependent => Ok st
      | Failed e => Raise e
      | Next st' => loop fuel' d full_sps num_peaks st'
      end
  end.

(** The state after [k] full turns, when the loop makes that many. *)
Fixpoint iterate (k : nat) (d : params) (full_sps : list (list score))
    (num_peaks : nat) (st : state) : option state :=
  match k with
  | O => Some st
  | S k' =>
      match step d full_sps num_peaks st with
      | Next st' => iterate k' d full_sps num_peaks st'
      | _ => None
      end
  end.

(** The output filter, before sorting: [np.where(is_valid)] in row-major
    order, one record per retained entry. *)
Definition retained (d : params) (final_amplitudes : matrix) : list spike :=
  omap (fun e : nat * nat * R =>
          if Rltb (amplitudes d).1 e.2 && Rltb e.2 (amplitudes d).2
          then Some {| sample_index := Z.of_nat e.1.2 + Z.of_nat (nbefore d);
                       channel_index := 0;
                       cluster_index := e.1.1;
                       amplitude := e.2 |}
          else None)
       (entries final_amplitudes).

(** Lines 365-378: filter and sort. *)
Definition emit (d : params) (final_amplitudes : matrix) : list spike :=
  argsort_spikes (retained d final_amplitudes).

Definition init_state (num_templates num_peaks : nat)
    (S : list (list score)) : state :=
  {| scalar_products := S; M := []; selection := [];
     final_amplitudes := repeat (repeat 0 num_peaks) num_templates |}.

Definition main_function (fuel : nat) (traces : matrix) (d : params)
  : result (list spike) :=
  match initial_scores d traces with
  | Ok sps =>
      let num_peaks := (length traces + 1 - num_samples d)%nat in
      match loop fuel d sps num_peaks
                 (init_state (num_templates d) num_peaks sps) with
      | Ok st => Ok (emit d (final_amplitudes st))
      | Raise e => Raise e
      | OutOfFuel => OutOfFuel
      end
  | Raise e => Raise e
  | OutOfFuel => OutOfFuel
  end.

End OMP.

(** ** Greedy peeler: [CircusPeeler.main_function] *)

Module Greedy.

(** The keys of [d] that [main_function] reads.  [templates] is the
    [N x (L*C)] matrix of flattened normalised templates (stored dense
    or sparse, the same numbers either way); [amplitudes] the calibrated
    per-template brackets; [overlaps] is [N x N x (2L - 1)], with
    [L = nbefore + nafter] the number of samples of a template. *)
Record params := {
  templates : matrix;
  num_templates : nat;
  overlaps : tensor3;
  margin : nat;
  norms : vector;
  jitter : Z;
  patch_sizes : nat * nat;
  nbefore : nat;
  nafter : nat;
  amplitudes : list (R * R);
  sym_patch : bool;
}.

Definition num_samples (d : params) : nat := (nafter d + nbefore d)%nat.
Definition neighbor_window (d : params) : Z := (Z.of_nat (num_samples d) - 1)%Z.

(** [traces[margin // 2 : -margin // 2, :]]; [-margin // 2] is
    [-ceil(margin / 2)], and a stop of [0] gives the empty slice. *)
Definition peak_traces (d : params) (traces : matrix) : matrix :=
  let start := (margin d / 2)%nat in
  let stop := if (margin d =? 0)%nat then 0%nat
              else (length traces - (margin d + 1) / 2)%nat in
  take (stop - start) (drop start traces).

(** [np.arange(a, b)] *)
Definition arange (a b : Z) : list Z :=
  map (fun k => (a + Z.of_nat k)%Z) (seq 0 (Z.to_nat (b - a))).

(** The masked, flattened [jittered_peaks] and [jittered_channels]:
    row-major, peak by peak, offsets in increasing order, kept when
    [(x > 0) & (x < len(peak_traces))]. *)
Definition jittered (J : Z) (len : nat) (peaks chans : list Z)
  : list (Z * Z) :=
  concat (map (fun tc : Z * Z =>
                 omap (fun j => let x := (tc.1 + j)%Z in
                                if (0 <? x)%Z && (x <? Z.of_nat len)%Z
                                then Some (x, tc.2) else None)
                      (arange (- J) J))
              (combine peaks chans)).

(** [np.unique(a, return_index=True)]: the sorted distinct values, and
    for each the index of its first occurrence in [a]. *)
Fixpoint insert_uniq (t : Z) (l : list Z) : list Z :=
  match l with
  | [] => [t]
  | h :: r =>
      if (t <? h)%Z then t :: l
      else if (t =? h)%Z then l
      else h :: insert_uniq t r
  end.

Definition sort_uniq (l : list Z) : list Z := fold_right insert_uniq [] l.

Fixpoint first_index (t : Z) (l : list Z) : nat :=
  match l with
  | [] => 0
  | h :: r => if (h =? t)%Z then 0 else S (first_index t r)
  end.

Definition np_unique (a : list Z) : list Z * list nat :=
  let u := sort_uniq a in (u, map (fun t => first_index t a) u).

(** Lines 643-653: jitter expansion (when [jitter > 0]) and
    deduplication; returns [peak_sample_index] and [peak_chan_ind]. *)
Definition expand_peaks (d : params) (len : nat) (peaks chans : list Z)
  : list Z * list Z :=
  if (0 <? jitter d)%Z then
    let jit := jittered (jitter d) len peaks chans in
    let (u, unique_idx) := np_unique (map fst jit) in
    (u, map (fun i => nth i (map snd jit) 0%Z) unique_idx)
  else
    let (u, unique_idx) := np_unique peaks in
    (u, map (fun i => nth i chans 0%Z) unique_idx).

(** An integer index into an axis of length [n]: negative indices count
    from the end, anything outside [[-n, n)] raises [IndexError]. *)
Definition np_index (n : nat) (i : Z) : option nat :=
  if (0 <=? i)%Z && (i <? Z.of_nat n)%Z then Some (Z.to_nat i)
  else if (- Z.of_nat n <=? i)%Z && (i <? 0)%Z
       then Some (Z.to_nat (Z.of_nat n + i))
       else None.

(** [extract_patches_2d(traces, patch_sizes)[peak_sample_index]],
    flattened per peak; the patches span all channels, one per start
    row. *)
Definition snippets_sym (d : params) (traces : matrix) (peaks : list Z)
  : result (list vector) :=
  let h := (patch_sizes d).1 in
  if (length traces <? h)%nat then Raise ValueError
  else
    match mapM (fun t => k ← np_index (length traces - h + 1) t;
                         Some (concat (take h (drop k traces)))) peaks with
    | Some sn => Ok sn
    | None => Raise IndexError
    end.

(** [traces[peak_sample_index[:, np.newaxis] + snippet_window]] with the
    peaks already shifted by [margin // 2], flattened per peak. *)
Definition snippets_window (d : params) (traces : matrix) (peaks : list Z)
  : result (list vector) :=
  match mapM (fun t =>
                rows ← mapM (fun w => k ← np_index (length traces) (t + w)%Z;
                                      Some (mrow traces k))
                            (arange (- Z.of_nat (nbefore d)) (Z.of_nat (nafter d)));
                Some (concat rows))
             peaks with
  | Some sn => Ok sn
  | None => Raise IndexError
  end.

Definition shift (d : params) (peaks : list Z) : list Z :=
  map (fun t => (t + Z.of_nat (margin d / 2))%Z) peaks.

Definition snippets (d : params) (traces : matrix) (peaks : list Z)
  : result (list vector) :=
  if sym_patch d then snippets_sym d traces peaks
  else snippets_window d traces (shift d peaks).

(** [templates.dot(snippets.T)], or the empty [N x 0] array when there
    is no peak. *)
Definition scores (d : params) (sn : list vector) : list (list score) :=
  match sn with
  | [] => repeat [] (num_templates d)
  | _ => map (fun tmpl => map (fun snip => Fin (dot tmpl snip)) sn)
             (templates d)
  end.

(** [min_sps] and [max_sps], row by row *)
Definition min_sps (d : params) (n : nat) : R :=
  (nth n (amplitudes d) (0, 0)).1 * vget (norms d) n.
Definition max_sps (d : params) (n : nat) : R :=
  (nth n (amplitudes d) (0, 0)).2 * vget (norms d) n.

(** [is_valid = (scalar_products > min_sps) & (scalar_products < max_sps)] *)
Definition is_valid (d : params) (n : nat) (x : R) : bool :=
  Rltb (min_sps d n) x && Rltb x (max_sps d n).

(** [np.searchsorted(a, v)] on a sorted array: the number of leading
    elements below [v]. *)
Fixpoint searchsorted (a : list Z) (v : Z) : nat :=
  match a with
  | [] => 0
  | x :: a' => if (x <? v)%Z then S (searchsorted a' v) else 0
  end.

(** [peak_data = peak_sample_index - peak_sample_index[peak_index]] *)
Definition peak_data (peaks : list Z) (peak_index : nat) : list Z :=
  map (fun t => (t - nth peak_index peaks 0)%Z) peaks.

(** [is_valid_nn] *)
Definition neighbors (d : params) (peaks : list Z) (peak_index : nat)
  : nat * nat :=
  let pd := peak_data peaks peak_index in
  (searchsorted pd (- neighbor_window d), searchsorted pd (neighbor_window d + 1)).

(** Lines 690-700: the residual update of one selection. *)
Definition update (d : params) (peaks : list Z)
    (best_cluster_ind peak_index : nat) (best_amplitude : R)
    (S : list (list score)) : list (list score) :=
  let pd := peak_data peaks peak_index in
  let (lo, hi) := neighbors d peaks peak_index in
  let added :=
    update_cols lo hi
      (fun m q s =>
         score_add s
           (- best_amplitude
            * mget (nth best_cluster_ind (overlaps d) []) m
                   (Z.to_nat (nth q pd 0%Z + neighbor_window d))))
      S in
  update_cols lo hi
    (fun m q s => if (m =? best_cluster_ind)%nat then NegInf else s) added.

Record state := {
  scalar_products : list (list score);
  spikes : list spike;             (* spikes[:num_spikes], in emission order *)
}.

Inductive step_result :=
| Finished
| Next (st : state)
| Failed (e : error).

(** One turn of [while np.any(is_valid)]; [size] is the length of the
    preallocated [spikes] array. *)
Definition step (d : params) (peaks chans : list Z) (size : nat) (st : state)
  : step_result :=
  match select_best (is_valid d) (scalar_products st) with
  | None => Finished
  | Some (best_cluster_ind, peak_index, best_amplitude) =>
      let S' := update d peaks best_cluster_ind peak_index best_amplitude
                       (scalar_products st) in
      if (size <=? length (spikes st))%nat then Failed IndexError
      else Next {| scalar_products := S';
                   spikes := spikes st ++
                     [ {| sample_index := nth peak_index peaks 0%Z;
                          channel_index := nth peak_index chans 0%Z;
                          cluster_index := best_cluster_ind;
                          amplitude := best_amplitude |} ] |}
  end.

Fixpoint loop (fuel : nat) (d : params) (peaks chans : list Z) (size : nat)
    (st : state) : result state :=
  match fuel with
  | O => OutOfFuel
  | S fuel' =>
      match step d peaks chans size st with
      | Finished => Ok st
      | Failed e => Raise e
      | Next st' => loop fuel' d peaks chans size st'
      end
  end.

(** The state after [k] full turns, when the loop makes that many. *)
Fixpoint iterate (k : nat) (d : params) (peaks chans : list Z) (size : nat)
    (st : state) : option state :=
  match k with
  | O => Some st
  | S k' =>
      match step d peaks chans size st with
      | Next st' => iterate k' d peaks chans size st'
      | _ => None
      end
  end.

(** [spikes["amplitude"][:num_spikes] /= norms[spikes["cluster_index"]]],
    then the sort. *)
Definition emit (d : params) (sp : list spike) : list spike :=
  argsort_spikes
    (map (fun s => {| sample_index := sample_index s;
                      channel_index := channel_index s;
                      cluster_index := cluster_index s;
                      amplitude := amplitude s / vget (norms d) (cluster_index s) |})
         sp).

(** [detect_peaks] stands for the external
    [DetectPeakByChannel.detect_peaks] applied with the engine's
    [peak_sign], thresholds and exclusion window; it returns the sample
    and channel arrays. *)
Definition main_function (detect_peaks : matrix -> list Z * list Z)
    (fuel : nat) (traces : matrix) (d : params) : result (list spike) :=
  let pt := peak_traces d traces in
  let (peaks0, chans0) := detect_peaks pt in
  let (peaks, chans) := expand_peaks d (length pt) peaks0 chans0 in
  match snippets d traces peaks with
  | Ok sn =>
      let sps := scores d sn in
      let size := (length sps * length peaks)%nat in
      match loop fuel d (shift d peaks) chans size
                 {| scalar_products := sps; spikes := [] |} with
      | Ok st => Ok (emit d (spikes st))
      | Raise e => Raise e
      | OutOfFuel => OutOfFuel
      end
  | Raise e => Raise e
  | OutOfFuel => OutOfFuel
  end.

End Greedy.

(** ** Closed forms used in the statements *)

(** What [compute_overlaps] leaves at key [j] of its dictionary: the
    cross-correlation at delay [j] up to [j = num_samples], the transpose
    of the one at delay [2 * num_samples - j] beyond. *)
Definition lag_matrix (num_samples : nat) (dense : tensor3) (j : nat) : matrix :=
  if (j <=? num_samples)%nat then Overlaps.cross num_samples j dense
  else transpose (length dense)
         (Overlaps.cross num_samples (2 * num_samples - j) dense).

(** The array [compute_overlaps] returns, entry by entry. *)
Definition overlap_table (L : nat) (dense : tensor3) : tensor3 :=
  map (fun n =>
         map (fun m =>
                map (fun j => mget (lag_matrix L dense j) n m)
                    (seq 0 (2 * L - 1)))
             (seq 0 (length dense)))
      (seq 0 (length dense)).

(** Non-decreasing [sample_index]. *)
Definition spike_le (a b : spike) : Prop :=
  (sample_index a <= sample_index b)%Z.

(** [S[n, p]], when the indices are in range. *)
Definition entry {A : Type} (S : list (list A)) (n p : nat) : option A :=
  row ← S !! n; row !! p.

(** The number of entries of a score tensor that are not [-inf]. *)
Fixpoint count_fin (row : list score) : nat :=
  match row with
  | [] => 0
  | s :: r => (if is_neg_inf s then 0 else 1) + count_fin r
  end.

Fixpoint finite_count (S : list (list score)) : nat :=
  match S with
  | [] => 0
  | row :: S' => count_fin row + finite_count S'
  end.

(** Every row has [P] columns. *)
Definition shaped {A : Type} (P : nat) (S : list (list A)) : Prop :=
  Forall (fun row => length row = P) S.

(** A trace of all zeros. *)
Definition zero_trace (traces : matrix) : Prop :=
  Forall (Forall (eq 0)) traces.

(** The update of one selection, entry by entry. *)
Definition updated (d : Greedy.params) (peaks : list Z)
    (n p : nat) (A : R) (m q : nat) (s : score) : score :=
  let L := Z.of_nat (Greedy.num_samples d) in
  let dq := (nth q peaks 0 - nth p peaks 0)%Z in
  if (- L <? dq)%Z && (dq <? L)%Z then
    if (m =? n)%nat then NegInf
    else score_sub s (A * mget (nth n (Greedy.overlaps d) []) m
                                (Z.to_nat (L - 1 + dq)))
  else s.

(** The invariant of the loop in [main_function]: the score tensor keeps
    its shape, and emitted spikes plus finite entries fit in [size]. *)
Definition greedy_inv (P size : nat) (st : Greedy.state) : Prop :=
  shaped P (Greedy.scalar_products st) /\
  (length (Greedy.spikes st) + finite_count (Greedy.scalar_products st)
   <= size)%nat.

(** ** A worked run of the OMP loop

    One template [[1, 0]] ([L = 2], one channel), the trace [[1, 0]] and
    a threshold of [-1]: the first turn fits amplitude [1] and leaves a
    residual score of [0], still above the threshold; the second turn
    selects the same atom again. *)
Definition dependent_example : OMP.params :=
  {| OMP.num_templates := 1; OMP.overlaps := [[[0; 0; 1]]];
     OMP.norms := [1]; OMP.nbefore := 1; OMP.nafter := 1;
     OMP.amplitudes := (6 / 10, 2); OMP.ignored_ids := [];
     OMP.stop_criteria := [Ropp 1];
     OMP.vicinity := 0;
     OMP.spatial := [[[1]]]; OMP.singular := [[1]];
     OMP.temporal := [[[0; 1]]] |}.

Definition dependent_example_state : OMP.state :=
  {| OMP.scalar_products := [[Fin 0]]; OMP.M := [[1]];
     OMP.selection := [(0%nat, 0%nat)]; OMP.final_amplitudes := [[1]] |}.

(** * Further code of the file *)

(** ** [get_margin] (both engines) *)

(** [margin = 2 * max(kwargs["nbefore"], kwargs["nafter"])] *)
Definition get_margin (nbefore nafter : nat) : nat :=
  (2 * Nat.max nbefore nafter)%nat.

(** ** [serialize_method_kwargs], [unserialize_in_worker] (both engines)

    [kwargs] is a dictionary with string keys. *)

Inductive popped (A : Type) :=
| Popped (a : A)
| KeyError.
Arguments Popped {A} a.
Arguments KeyError {A}.

(** [kwargs = dict(kwargs); kwargs.pop("waveform_extractor"); return kwargs]:
    a copy without the key, [KeyError] when the key is missing. *)
Definition serialize_method_kwargs {V : Type} (kwargs : gmap string V)
  : popped (gmap string V) :=
  match kwargs !! "waveform_extractor" with
  | Some _ => Popped (delete "waveform_extractor" kwargs)
  | None => KeyError
  end.

Definition unserialize_in_worker {V : Type} (kwargs : gmap string V)
  : gmap string V := kwargs.

(** ** Amplitude calibration: [_mcc_error], [_cost_function_mcc] *)

Module Calibration.

(** [(x < bounds[0]) | (x > bounds[1])] and
    [(bounds[0] <= x) & (x <= bounds[1])] *)
Definition outside (bounds : R * R) (x : R) : bool :=
  Rltb x bounds.1 || Rltb bounds.2 x.
Definition inside (bounds : R * R) (x : R) : bool :=
  Rleb bounds.1 x && Rleb x bounds.2.

(** [np.sum(mask)] of a boolean array *)
Definition count (f : R -> bool) (l : list R) : nat :=
  length (List.filter f l).

(** [np.int64] arithmetic.  [np.sum] of a boolean array is an [int64],
    and so are the sums, differences and products of such counts: each
    result is reduced to [[-2^63, 2^63)] modulo [2^64]. *)
Definition wrap64 (z : Z) : Z := ((z + 2 ^ 63) mod 2 ^ 64 - 2 ^ 63)%Z.
Definition add64 (a b : Z) : Z := wrap64 (a + b).
Definition sub64 (a b : Z) : Z := wrap64 (a - b).
Definition mul64 (a b : Z) : Z := wrap64 (a * b).

Definition _mcc_error (bounds : R * R) (good bad : list R) : R :=
  let fn := Z.of_nat (count (outside bounds) good) in
  let fp := Z.of_nat (count (inside bounds) bad) in
  let tp := Z.of_nat (count (inside bounds) good) in
  let tn := Z.of_nat (count (outside bounds) bad) in
  let denom :=
    mul64 (mul64 (mul64 (add64 tp fp) (add64 tp fn)) (add64 tn fp))
          (add64 tn fn) in
  if (0 <? denom)%Z
  then 1 - IZR (sub64 (mul64 tp tn) (mul64 fp fn)) / sqrt (IZR denom)
  else 1.

Definition _cost_function_mcc (bounds : R * R) (good bad : list R)
    (delta_amplitude alpha : R) : R :=
  alpha * _mcc_error bounds good bad
  + (1 - alpha) * Rabs (1 - (bounds.2 - bounds.1) / delta_amplitude).

End Calibration.

(** ** Closed forms for the MCC criterion *)

(** The product of the four margins of the confusion matrix as an
    integer, that is before [int64] wraps it. *)
Definition margins_product (bounds : R * R) (good bad : list R) : Z :=
  let fn := Z.of_nat (Calibration.count (Calibration.outside bounds) good) in
  let fp := Z.of_nat (Calibration.count (Calibration.inside bounds) bad) in
  let tp := Z.of_nat (Calibration.count (Calibration.inside bounds) good) in
  let tn := Z.of_nat (Calibration.count (Calibration.outside bounds) bad) in
  ((tp + fp) * (tp + fn) * (tn + fp) * (tn + fn))%Z.

(** What [_mcc_error] computes when nothing wraps. *)
Definition mcc_exact (bounds : R * R) (good bad : list R) : R :=
  let fn := Z.of_nat (Calibration.count (Calibration.outside bounds) good) in
  let fp := Z.of_nat (Calibration.count (Calibration.inside bounds) bad) in
  let tp := Z.of_nat (Calibration.count (Calibration.inside bounds) good) in
  let tn := Z.of_nat (Calibration.count (Calibration.outside bounds) bad) in
  let denom := ((tp + fp) * (tp + fn) * (tn + fp) * (tn + fn))%Z in
  if (0 <? denom)%Z
  then 1 - IZR (tp * tn - fp * fn) / sqrt (IZR denom)
  else 1.

(** ** [CircusPeeler._prepare_templates]: the normalisation loop *)

Module GreedyPrepare.

(** [row[~mask] = 0] *)
Fixpoint zero_masked (mask : list bool) (row : vector) : vector :=
  match mask, row with
  | b :: mask', x :: row' => (if b then x else 0) :: zero_masked mask' row'
  | _, _ => []
  end.

(** [templates[count][:, ~sparsity[count]] = 0] *)
Definition zeroed (mask : list bool) (W : matrix) : matrix :=
  map (zero_masked mask) W.

(** [d["norms"][count] = np.linalg.norm(templates[count])] *)
Definition norm_of (mask : list bool) (W : matrix) : R :=
  frobenius (zeroed mask W).

(** [templates[count] /= d["norms"][count]] *)
Definition normalized (mask : list bool) (W : matrix) : matrix :=
  map (map (fun x => x / norm_of mask W)) (zeroed mask W).

(** [d["circus_templates"][count] = templates[count][:, sparsity[count]]] *)
Definition circus_template (mask : list bool) (W : matrix) : matrix :=
  Prepare.restrict mask (normalized mask W).

(** A row of [templates.reshape(num_templates, -1)] *)
Definition flat_template (mask : list bool) (W : matrix) : vector :=
  concat (normalized mask W).

End GreedyPrepare.

(** ** A worked run of the Greedy engine

    One channel, one template [[0, 1]] ([nbefore = nafter = 1], so that
    [sym_patch] holds and the margin is [2]), a chunk of five samples
    with a unit deflection at sample [2], and a detector that reports
    it (index [1] of the trimmed trace). *)
Definition greedy_example : Greedy.params :=
  {| Greedy.templates := [[0; 1]]; Greedy.num_templates := 1;
     Greedy.overlaps := [[[0; 1; 0]]]; Greedy.margin := 2;
     Greedy.norms := [1]; Greedy.jitter := 1;
     Greedy.patch_sizes := (2%nat, 1%nat);
     Greedy.nbefore := 1; Greedy.nafter := 1;
     Greedy.amplitudes := [(1 / 2, 3 / 2)];
     Greedy.sym_patch := true |}.

Definition greedy_example_trace : matrix := [[0]; [0]; [1]; [0]; [0]].

Definition greedy_example_detect (pt : matrix) : list Z * list Z :=
  ([1%Z], [0%Z]).

(** ** The Gram matrix of the OMP selection *)

(** What the source writes in the new row of [M] for an earlier atom
    [b] when atom [a] is selected: an entry of [overlaps[a.1]] inside
    the window, [0] outside. *)
Definition gram_entry (d : OMP.params) (a b : nat * nat) : R :=
  let dt := (Z.of_nat b.2 - Z.of_nat a.2)%Z in
  if OMP.in_window d dt
  then mget (nth a.1 (OMP.overlaps d) []) b.1
            (Z.to_nat (Z.of_nat (OMP.num_samples d) + dt))
  else 0.

(** [M] is a lower Cholesky factor for the selection [sel]: row [i] has
    [i + 1] entries and a positive diagonal, rows have unit norm, and
    the product of rows [i > j] is the overlap written for them. *)
Definition cholesky_of (d : OMP.params) (sel : list (nat * nat))
    (M : matrix) : Prop :=
  length M = length sel /\
  (forall i row, M !! i = Some row ->
     length row = S i /\ 0 < vget row i /\ dot row row = 1) /\
  (forall i j ri rj a b, (j < i)%nat ->
     M !! i = Some ri -> M !! j = Some rj ->
     sel !! i = Some a -> sel !! j = Some b ->
     dot ri rj = gram_entry d a b).

(** Entry [(i, j)] of the symmetric Gram matrix of a selection: [1] on
    the diagonal, elsewhere the overlap looked up when the later of the
    two atoms was selected. *)
Definition gram_sym (d : OMP.params) (sel : list (nat * nat)) (i j : nat) : R :=
  if (i =? j)%nat then 1
  else if (j <? i)%nat
       then gram_entry d (nth i sel (0, 0)%nat) (nth j sel (0, 0)%nat)
       else gram_entry d (nth j sel (0, 0)%nat) (nth i sel (0, 0)%nat).

(** ** A turn of the Greedy loop on two templates and three peaks

    Two templates of two samples ([L = 2]), peaks at samples [2], [3]
    and [9]: the first two are neighbours (distance [1 < L]), the third
    is out of reach of both. *)
Definition residual_example : Greedy.params :=
  {| Greedy.templates := [[1; 0]; [0; 1]]; Greedy.num_templates := 2;
     Greedy.overlaps := [[[0; 1; 0]; [1 / 4; 1 / 2; 1 / 8]];
                         [[1 / 8; 1 / 2; 1 / 4]; [0; 1; 0]]];
     Greedy.margin := 0; Greedy.norms := [1; 1]; Greedy.jitter := 0;
     Greedy.patch_sizes := (2%nat, 1%nat);
     Greedy.nbefore := 1; Greedy.nafter := 1;
     Greedy.amplitudes := [(9 / 10, 3 / 2); (9 / 10, 3 / 2)];
     Greedy.sym_patch := false |}.

Definition residual_example_scores : list (list score) :=
  [[Fin 1; Fin (1 / 2); Fin (1 / 5)]; [Fin (3 / 4); Fin (1 / 4); Fin (1 / 3)]].

(** ** A run of the OMP engine on two templates

    Two channels and two templates of two samples ([L = 2]), each a unit
    deflection at its first sample on its own channel, so that templates
    overlap only with themselves at lag zero.  The trace holds template
    [1] at sample [0] and template [0] at sample [2] and is negative
    elsewhere; with a threshold of [-1] the loop fits both, then selects
    the first of them again. *)
Definition crossing_example : OMP.params :=
  {| OMP.num_templates := 2;
     OMP.overlaps := [[[0; 0; 1]; [0; 0; 0]]; [[0; 0; 0]; [0; 0; 1]]];
     OMP.norms := [1; 1]; OMP.nbefore := 1; OMP.nafter := 1;
     OMP.amplitudes := (6 / 10, 2); OMP.ignored_ids := [];
     OMP.stop_criteria := [- (1); - (1)];
     OMP.vicinity := 0;
     OMP.spatial := [[[1; 0]; [0; 1]]]; OMP.singular := [[1; 1]];
     OMP.temporal := [[[0; 1]; [0; 1]]] |}.

Definition crossing_example_trace : matrix :=
  [[- (1 / 2); 1]; [- (1 / 2); - (1 / 2)]; [1; - (1 / 2)]; [0; 0]].

Definition crossing_example_scores : list (list score) :=
  [[Fin (- (1 / 2)); Fin (- (1 / 2)); Fin 1];
   [Fin 1; Fin (- (1 / 2)); Fin (- (1 / 2))]].

(** The states after the first and the second turn. *)
Definition crossing_example_state1 : OMP.state :=
  {| OMP.scalar_products :=
       [[Fin (- (1 / 2)); Fin (- (1 / 2)); Fin 0];
        [Fin 1; Fin (- (1 / 2)); Fin (- (1 / 2))]];
     OMP.M := [[1]]; OMP.selection := [(0%nat, 2%nat)];
     OMP.final_amplitudes := [[0; 0; 1]; [0; 0; 0]] |}.

Definition crossing_example_state2 : OMP.state :=
  {| OMP.scalar_products :=
       [[Fin (- (1 / 2)); Fin (- (1 / 2)); Fin 0];
        [Fin 0; Fin (- (1 / 2)); Fin (- (1 / 2))]];
     OMP.M := [[1]; [0; 1]];
     OMP.selection := [(0%nat, 2%nat); (1%nat, 0%nat)];
     OMP.final_amplitudes := [[0; 0; 1]; [1; 0; 0]] |}.

(** ** A run of the OMP engine with an ignored template

    The engine of [crossing_example] told to ignore template [0], on the
    same trace: only template [1] is fitted. *)
Definition ignored_example : OMP.params :=
  {| OMP.num_templates := 2;
     OMP.overlaps := [[[0; 0; 1]; [0; 0; 0]]; [[0; 0; 0]; [0; 0; 1]]];
     OMP.norms := [1; 1]; OMP.nbefore := 1; OMP.nafter := 1;
     OMP.amplitudes := (6 / 10, 2); OMP.ignored_ids := [0%nat];
     OMP.stop_criteria := [- (1); - (1)];
     OMP.vicinity := 0;
     OMP.spatial := [[[1; 0]; [0; 1]]]; OMP.singular := [[1; 1]];
     OMP.temporal := [[[0; 1]; [0; 1]]] |}.

Definition ignored_example_scores : list (list score) :=
  [[NegInf; NegInf; NegInf]; [Fin 1; Fin (- (1 / 2)); Fin (- (1 / 2))]].

Definition ignored_example_state : OMP.state :=
  {| OMP.scalar_products :=
       [[NegInf; NegInf; NegInf]; [Fin 0; Fin (- (1 / 2)); Fin (- (1 / 2))]];
     OMP.M := [[1]]; OMP.selection := [(1%nat, 0%nat)];
     OMP.final_amplitudes := [[0; 0; 0]; [1; 0; 0]] |}.

(** ** A run of the Greedy engine with two detections

    The engine of [greedy_example] on a chunk of eight samples with a
    deflection of [1] at sample [2] and one of [5/4] at sample [5].  In
    place of the external detector stands [positive_samples], which
    reports every sample of the trimmed trace that is strictly positive
    on the first channel. *)
Definition positive_samples (pt : matrix) : list Z * list Z :=
  let hits :=
    omap (fun e : nat * vector =>
            if Rltb 0 (vget e.2 0) then Some (Z.of_nat e.1) else None)
         (imap pair pt) in
  (hits, map (fun _ => 0%Z) hits).

Definition refractory_example_trace : matrix :=
  [[0]; [0]; [1]; [0]; [0]; [5 / 4]; [0]; [0]].

(** * Proofs *)

(** ** Boolean comparisons *)

Lemma Rltb_true (x y : R) : Rltb x y = true <-> x < y.
Proof. unfold Rltb. destruct (Rlt_dec x y); split; intros; try easy. Qed.

Lemma Rltb_false (x y : R) : Rltb x y = false <-> y <= x.
Proof. unfold Rltb. destruct (Rlt_dec x y); split; intros; try easy; lra. Qed.

Lemma Rleb_true (x y : R) : Rleb x y = true <-> x <= y.
Proof. unfold Rleb. destruct (Rle_dec x y); split; intros; try easy. Qed.

Lemma Rleb_false (x y : R) : Rleb x y = false <-> y < x.
Proof. unfold Rleb. destruct (Rle_dec x y); split; intros; try easy; lra. Qed.

(** ** The initial score tensor *)

Lemma initial_scores_Ok (d : OMP.params) (traces : matrix) :
  (OMP.num_samples d <= length traces)%nat ->
  Forall (fun i => (i < OMP.num_templates d)%nat) (OMP.ignored_ids d) ->
  OMP.initial_scores d traces
  = Ok (OMP.ignore (OMP.ignored_ids d)
          (OMP.convolve d traces (length traces + 1 - OMP.num_samples d))).
Proof.
  intros HT Hids. unfold OMP.initial_scores.
  destruct (Nat.ltb_spec (length traces + 1) (OMP.num_samples d)); [lia|].
  destruct (Nat.ltb_spec (length traces) (OMP.num_samples d)); [lia|].
  rewrite andb_false_r.
  replace (forallb _ (OMP.ignored_ids d)) with true; [reflexivity|].
  symmetry. apply forallb_forall. intros i Hi.
  rewrite List.Forall_forall in Hids. apply Nat.ltb_lt, Hids, Hi.
Qed.

Lemma initial_scores_inv (d : OMP.params) (traces : matrix)
    (sps : list (list score)) :
  OMP.initial_scores d traces = Ok sps ->
  (OMP.num_samples d <= length traces + 1)%nat /\
  sps = OMP.ignore (OMP.ignored_ids d)
          (OMP.convolve d traces (length traces + 1 - OMP.num_samples d)).
Proof.
  unfold OMP.initial_scores.
  destruct (Nat.ltb_spec (length traces + 1) (OMP.num_samples d));
    [discriminate|].
  destruct (_ && _); [discriminate|].
  destruct (negb _); [discriminate|].
  intros H'; injection H' as <-. split; [lia|reflexivity].
Qed.

Lemma initial_scores_no_fuel (d : OMP.params) (traces : matrix) :
  OMP.initial_scores d traces <> OutOfFuel.
Proof.
  unfold OMP.initial_scores.
  destruct (_ <? _)%nat; [discriminate|].
  destruct (_ && _); [discriminate|].
  destruct (negb _); discriminate.
Qed.

(** ** Sums and dot products *)

Lemma dot_comm (a b : vector) : dot a b = dot b a.
Proof.
  revert b; induction a as [|x a IH]; intros [|y b]; simpl; try reflexivity.
  rewrite IH; ring.
Qed.

Lemma dot_nil_r (a : vector) : dot a [] = 0.
Proof. destruct a; reflexivity. Qed.

Lemma dot_app (a a' b b' : vector) :
  length a = length b -> dot (a ++ a') (b ++ b') = dot a b + dot a' b'.
Proof.
  revert b; induction a as [|x a IH]; intros [|y b] Hlen; simpl in *;
    try discriminate.
  - ring.
  - rewrite IH by congruence. ring.
Qed.

Lemma dot_concat_self (A : matrix) :
  dot (concat A) (concat A) = Rsum (map (fun r => dot r r) A).
Proof.
  induction A as [|r A IH]; simpl; [reflexivity|].
  rewrite dot_app by reflexivity. rewrite IH. reflexivity.
Qed.

Lemma dot_scale (a b : vector) (k : R) :
  dot (map (fun x => x / k) a) (map (fun x => x / k) b) = dot a b / (k * k).
Proof.
  revert b; induction a as [|x a IH]; intros [|y b]; simpl;
    try (unfold Rdiv; ring).
  rewrite IH. unfold Rdiv. rewrite Rinv_mult. ring.
Qed.

Lemma dot_zero_l (a b : vector) : Forall (eq 0) a -> dot a b = 0.
Proof.
  intros H; revert b; induction H as [|x a Hx _ IH]; intros [|y b]; simpl;
    try reflexivity.
  rewrite IH, <- Hx. ring.
Qed.

Lemma dot_zero_r (a b : vector) : Forall (eq 0) b -> dot a b = 0.
Proof. intros H. rewrite dot_comm. apply dot_zero_l, H. Qed.

Lemma dot_self_nonneg (a : vector) : 0 <= dot a a.
Proof. induction a as [|x a IH]; simpl; [lra|nra]. Qed.

Lemma Rsum_zero (l : list R) : Forall (eq 0) l -> Rsum l = 0.
Proof. induction 1 as [|x l Hx _ IH]; simpl; [reflexivity|lra]. Qed.

Lemma Rsum_map_scale {A : Type} (f : A -> R) (k : R) (l : list A) :
  Rsum (map (fun x => f x / k) l) = Rsum (map f l) / k.
Proof.
  induction l as [|x l IH]; simpl; [unfold Rdiv; ring|].
  rewrite IH. unfold Rdiv. ring.
Qed.

(** ** C1: the stopping threshold *)

(** C1 (as amended).  For every template [n] the threshold computed at
    initialisation is [omp_min_sps * max(norm_n, sqrt((sum_c noise_c) * L))]:
    the noise levels are summed as they are, not squared. *)
Theorem stop_criteria_formula (omp_min_sps : R) (norms noise_levels : vector)
    (num_samples n : nat) :
  init_stop_criteria omp_min_sps norms noise_levels num_samples !! n
  = (fun nrm => omp_min_sps
                * Rmax nrm (sqrt (Rsum noise_levels * INR num_samples)))
      <$> norms !! n.
Proof. unfold init_stop_criteria. apply list_lookup_fmap. Qed.

(** C1 (as stated) fails: one template of norm [0], one channel of noise
    level [2], one sample, fraction [1]; the code gives [sqrt 2], the
    squared form [sqrt 4 = 2]. *)
Lemma stop_criteria_not_squared :
  init_stop_criteria 1 [0] [2] 1 !! 0%nat
  <> Some (1 * Rmax 0 (sqrt (Rsum (map (fun x => x * x) [2]) * INR 1))).
Proof.
  simpl. intros H. injection H as H.
  replace ((2 + 0) * 1) with 2 in H by ring.
  replace ((2 * 2 + 0) * 1) with (2 * 2) in H by ring.
  rewrite sqrt_square in H by lra.
  rewrite !Rmax_right in H by (try apply sqrt_pos; lra).
  assert (Hs : sqrt 2 * sqrt 2 = 2) by (apply sqrt_sqrt; lra).
  nra.
Qed.

(** ** Reading tabulated arrays *)

Lemma nth_map_seq {A : Type} (f : nat -> A) (n i : nat) (d : A) :
  (i < n)%nat -> nth i (map f (seq 0 n)) d = f i.
Proof.
  intros Hi. rewrite nth_lookup, list_lookup_fmap.
  rewrite (proj2 (lookup_seq 0 n i i)) by (split; [reflexivity|exact Hi]).
  reflexivity.
Qed.

Lemma nth_map_in {A B : Type} (f : A -> B) (l : list A) (i : nat) (d : B) (d' : A) :
  (i < length l)%nat -> nth i (map f l) d = f (nth i l d').
Proof.
  intros Hi. rewrite (nth_indep _ d (f d')) by (rewrite length_map; exact Hi).
  apply map_nth.
Qed.

Lemma mapM_tabulate {A B : Type} (f : A -> option B) (g : A -> B) (l : list A) :
  (forall x, In x l -> f x = Some (g x)) -> mapM f l = Some (map g l).
Proof.
  intros H. apply mapM_Some. induction l as [|x l IH]; simpl.
  - constructor.
  - constructor; [apply H; left; reflexivity|].
    apply IH. intros y Hy. apply H. right; exact Hy.
Qed.

Lemma mget_transpose (n : nat) (A : matrix) (i j : nat) :
  (i < n)%nat -> (j < n)%nat -> mget (transpose n A) i j = mget A j i.
Proof.
  intros Hi Hj. unfold transpose, mget at 1, mrow, vget.
  rewrite nth_map_seq by exact Hi. rewrite nth_map_seq by exact Hj.
  reflexivity.
Qed.

(** ** The overlap dictionary *)

Ltac nat_cases :=
  repeat match goal with
         | |- context [(?a <? ?b)%nat] => destruct (Nat.ltb_spec a b)
         | |- context [(?a <=? ?b)%nat] => destruct (Nat.leb_spec a b)
         | |- context [decide (?a = ?b)] => destruct (decide (a = b))
         end;
  simpl; try lia; try congruence.

Lemma fold_store_lookup (L : nat) (dense : tensor3) (n k : nat) :
  (n <= L + 1)%nat ->
  fold_left (Overlaps.store_delay L dense) (seq 0 n) ∅ !! k
  = if (k <? n)%nat then Some (Overlaps.cross L k dense)
    else if (L <? k)%nat && (2 * L - n <? k)%nat && (k <=? 2 * L)%nat
         then Some (transpose (length dense)
                      (Overlaps.cross L (2 * L - k) dense))
         else None.
Proof.
  induction n as [|n IH]; intros Hn.
  - simpl. rewrite lookup_empty. nat_cases.
  - rewrite seq_S, fold_left_app. simpl.
    unfold Overlaps.store_delay at 1.
    destruct (Nat.ltb_spec n L) as [HnL|HnL].
    + rewrite !lookup_insert, IH by lia.
      nat_cases; try (f_equal; f_equal; f_equal; lia).
    + rewrite !lookup_insert, IH by lia.
      nat_cases.
Qed.

(** Every key [compute_overlaps] reads back is present. *)
Lemma overlaps_dict_lookup (L : nat) (dense : tensor3) (j : nat) :
  (j < 2 * L - 1)%nat ->
  Overlaps.overlaps_dict L dense !! j = Some (lag_matrix L dense j).
Proof.
  intros Hj. unfold Overlaps.overlaps_dict, Overlaps.all_delays, lag_matrix.
  rewrite fold_store_lookup by lia.
  nat_cases.
Qed.

(** The mirrored copy of delay [d < L] sits at key [2 L - d]. *)
Lemma overlaps_dict_mirror (L : nat) (dense : tensor3) (d : nat) :
  (d < L)%nat ->
  Overlaps.overlaps_dict L dense !! (2 * L - 1 - d + 1)%nat
  = Some (transpose (length dense) (Overlaps.cross L d dense)).
Proof.
  intros Hd. unfold Overlaps.overlaps_dict, Overlaps.all_delays.
  rewrite fold_store_lookup by lia.
  nat_cases. f_equal; f_equal; f_equal; lia.
Qed.

Lemma overlaps_dict_direct (L : nat) (dense : tensor3) (d : nat) :
  (d <= L)%nat ->
  Overlaps.overlaps_dict L dense !! d = Some (Overlaps.cross L d dense).
Proof.
  intros Hd. unfold Overlaps.overlaps_dict, Overlaps.all_delays.
  rewrite fold_store_lookup by lia.
  nat_cases.
Qed.

Lemma compute_overlaps_table (templates : list matrix) (L C : nat)
    (sparsities : list (list nat)) (dense : tensor3) :
  Overlaps.densify L C templates sparsities = Some dense ->
  Overlaps.compute_overlaps templates L C sparsities
  = Some (overlap_table L dense).
Proof.
  intros Hd. unfold Overlaps.compute_overlaps. rewrite Hd. simpl.
  assert (Hlen : length templates = length dense).
  { apply length_mapM in Hd. rewrite length_seq in Hd. exact Hd. }
  rewrite Hlen. unfold overlap_table.
  apply mapM_tabulate. intros n _.
  unfold Overlaps.restack.
  rewrite (mapM_tabulate _ (fun j => mrow (lag_matrix L dense j) n)).
  - simpl. f_equal. apply map_ext. intros m.
    rewrite map_map. reflexivity.
  - intros j Hj. apply in_seq in Hj.
    rewrite overlaps_dict_lookup by lia. reflexivity.
Qed.

Lemma tget_overlap_table (L : nat) (dense : tensor3) (n m j : nat) :
  (n < length dense)%nat -> (m < length dense)%nat -> (j < 2 * L - 1)%nat ->
  tget (overlap_table L dense) n m j = mget (lag_matrix L dense j) n m.
Proof.
  intros Hn Hm Hj. unfold tget, overlap_table, mget at 1, mrow, vget.
  rewrite nth_map_seq by exact Hn. rewrite nth_map_seq by exact Hm.
  rewrite nth_map_seq by exact Hj. reflexivity.
Qed.

Lemma mapM_seq_nth {B : Type} (f : nat -> option B) (n : nat) (k : list B)
    (i : nat) (d : B) :
  mapM f (seq 0 n) = Some k -> (i < n)%nat -> f i = Some (nth i k d).
Proof.
  intros H Hi. apply mapM_Some in H.
  assert (Hs : seq 0 n !! i = Some i)
    by (apply lookup_seq; split; [reflexivity|exact Hi]).
  destruct (Forall2_lookup_l _ _ _ _ _ H Hs) as (y & Hy & Hf).
  rewrite Hf. f_equal. symmetry. apply nth_lookup_Some. exact Hy.
Qed.

Lemma mget_cross (L d : nat) (dense : tensor3) (i j : nat) :
  (i < length dense)%nat -> (j < length dense)%nat ->
  mget (Overlaps.cross L d dense) i j
  = dot (concat (take d (nth i dense [])))
        (concat (drop (L - d) (nth j dense []))).
Proof.
  intros Hi Hj. unfold mget, mrow, vget, Overlaps.cross.
  unfold Overlaps.source, Overlaps.target.
  rewrite (nth_map_in _ _ _ _ []) by (rewrite length_map; exact Hi).
  rewrite (nth_map_in _ _ _ _ []) by (rewrite length_map; exact Hj).
  rewrite (nth_map_in _ _ _ _ []) by exact Hi.
  rewrite (nth_map_in _ _ _ _ []) by exact Hj.
  reflexivity.
Qed.

Lemma densify_rows (L C : nat) (templates : list matrix)
    (sparsities : list (list nat)) (dense : tensor3) (n : nat) :
  Overlaps.densify L C templates sparsities = Some dense ->
  (n < length dense)%nat -> length (nth n dense []) = L.
Proof.
  intros Hd Hn. unfold Overlaps.densify in Hd.
  pose proof (length_mapM _ _ _ Hd) as Hlen. rewrite length_seq in Hlen.
  pose proof (mapM_seq_nth _ _ _ n [] Hd ltac:(lia)) as Hone.
  unfold Overlaps.densify_one in Hone.
  apply length_mapM in Hone. rewrite length_seq in Hone. congruence.
Qed.

(** ** C3: symmetry of the overlap tensor *)

(** C3 (as amended).  Whenever [compute_overlaps] returns, the transpose
    of the lag-[d] cross-correlation ([d < L]) is stored at key
    [2L - d] (that is [size - d + 1]), and for all templates [n], [m]
    and every column [delta] with [2 <= delta <= 2L - 2] the returned
    matrices satisfy [O_n[m, delta] = O_m[n, 2L - delta]] exactly. *)
Theorem overlap_symmetry (templates : list matrix) (L C : nat)
    (sparsities : list (list nat)) (O : tensor3) :
  Overlaps.compute_overlaps templates L C sparsities = Some O ->
  exists dense,
    Overlaps.densify L C templates sparsities = Some dense /\
    length dense = length templates /\
    (forall d, (d < L)%nat ->
       Overlaps.overlaps_dict L dense !! (2 * L - d)%nat
       = Some (transpose (length dense) (Overlaps.cross L d dense))) /\
    (forall n m delta,
       (n < length templates)%nat -> (m < length templates)%nat ->
       (2 <= delta <= 2 * L - 2)%nat ->
       tget O n m delta = tget O m n (2 * L - delta)).
Proof.
  intros HO.
  destruct (Overlaps.densify L C templates sparsities) as [dense|] eqn:Hd.
  2:{ unfold Overlaps.compute_overlaps in HO. rewrite Hd in HO. discriminate. }
  exists dense. split; [reflexivity|].
  assert (Hlen : length dense = length templates).
  { apply length_mapM in Hd. rewrite length_seq in Hd. symmetry; exact Hd. }
  split; [exact Hlen|]. split.
  - intros d Hd'. rewrite <- overlaps_dict_mirror by exact Hd'.
    f_equal. lia.
  - intros n m delta Hn Hm Hdelta.
    rewrite (compute_overlaps_table _ _ _ _ _ Hd) in HO.
    injection HO as <-.
    rewrite !tget_overlap_table by lia.
    unfold lag_matrix.
    destruct (Nat.leb_spec delta L) as [H1|H1];
      destruct (Nat.leb_spec (2 * L - delta) L) as [H2|H2]; try lia.
    + assert (delta = L) as -> by lia.
      replace (2 * L - L)%nat with L by lia.
      rewrite !mget_cross by lia.
      rewrite Nat.sub_diag, !drop_0.
      rewrite !take_ge by (rewrite (densify_rows _ _ _ _ _ _ Hd); lia).
      apply dot_comm.
    + rewrite mget_transpose by lia.
      replace (2 * L - (2 * L - delta))%nat with delta by lia.
      reflexivity.
    + rewrite mget_transpose by lia. reflexivity.
Qed.

(** C3 (as stated) fails: one template [[1], [0]] on one channel,
    [L = 2].  The returned row is [0, 0, 1], so columns [0] and
    [2L - 2 - 0 = 2] differ by [1]. *)
Lemma overlap_symmetry_counterexample :
  exists O,
    Overlaps.compute_overlaps [[[1]; [0]]] 2 1 [[0%nat]] = Some O /\
    Rabs (tget O 0 0 0 - tget O 0 0 (2 * 2 - 2 - 0)) > 1 / 100000.
Proof.
  eexists. split.
  - apply (compute_overlaps_table _ _ _ _ [[[1]; [0]]]). reflexivity.
  - rewrite !tget_overlap_table by (simpl; lia).
    unfold lag_matrix. simpl.
    unfold mget, mrow, vget. simpl.
    replace (0 - (1 * 1 + (0 * 0 + 0))) with (Ropp 1) by ring.
    rewrite Rabs_Ropp, Rabs_R1. lra.
Qed.

Lemma overlap_symmetry_witness :
  let dense := [[[1]; [2]; [0]]; [[0]; [1]; [3]]] in
  tget (overlap_table 3 dense) 0 1 2
  = tget (overlap_table 3 dense) 1 0 (2 * 3 - 2).
Proof.
  intros dense.
  assert (H : Overlaps.compute_overlaps dense 3 1 [[0%nat]; [0%nat]]
              = Some (overlap_table 3 dense)).
  { apply compute_overlaps_table. reflexivity. }
  destruct (overlap_symmetry _ _ _ _ _ H) as (dense' & _ & _ & _ & Hsym).
  apply Hsym; simpl; lia.
Defined.

(** ** Scattering a compressed template into its channels *)

Lemma dot_insert_self (row : vector) (c : nat) (v : R) :
  (c < length row)%nat ->
  dot (<[c := v]> row) (<[c := v]> row)
  = dot row row - nth c row 0 * nth c row 0 + v * v.
Proof.
  revert c; induction row as [|x row IH]; intros [|c] Hc; simpl in *;
    try lia.
  - ring.
  - rewrite IH by lia. ring.
Qed.

Lemma nth_insert_ne (row : vector) (c c' : nat) (v : R) :
  c <> c' -> nth c' (<[c := v]> row) 0 = nth c' row 0.
Proof.
  intros Hne. rewrite !nth_lookup, list_lookup_insert_ne by exact Hne.
  reflexivity.
Qed.

Lemma scatter_sumsq (sigma : list nat) (row vals : vector) :
  NoDup sigma ->
  (forall c, In c sigma -> (c < length row)%nat /\ nth c row 0 = 0) ->
  (length vals <= length sigma)%nat ->
  exists r, Overlaps.scatter row sigma vals = Some r /\
            dot r r = dot row row + dot vals vals.
Proof.
  intros Hnd. revert row vals.
  induction Hnd as [|c sigma Hc Hnd IH]; intros row vals Hrow Hlen.
  - destruct vals; simpl in Hlen; [|lia].
    exists row. split; [reflexivity|simpl; ring].
  - destruct vals as [|v vals].
    + exists row. split; [reflexivity|simpl; ring].
    + simpl. destruct (Hrow c (or_introl eq_refl)) as [Hlt Hz].
      destruct (Nat.ltb_spec c (length row)) as [_|]; [|lia].
      destruct (IH (<[c := v]> row) vals) as (r & Hr & Hdot).
      * intros c' Hc'. rewrite length_insert.
        destruct (Hrow c' (or_intror Hc')) as [Hlt' Hz'].
        split; [exact Hlt'|].
        rewrite nth_insert_ne; [exact Hz'|].
        intros ->. apply Hc. apply list_elem_of_In. exact Hc'.
      * simpl in Hlen. lia.
      * exists r. split; [exact Hr|].
        rewrite Hdot, dot_insert_self by exact Hlt. rewrite Hz. ring.
Qed.

Lemma nonzero_from_bounds (k : nat) (mask : list bool) (c : nat) :
  In c (Prepare.nonzero_from k mask) -> (k <= c < k + length mask)%nat.
Proof.
  revert k; induction mask as [|b mask IH]; intros k; simpl; [tauto|].
  destruct b; simpl.
  - intros [<-|H]; [lia|]. apply IH in H. lia.
  - intros H. apply IH in H. lia.
Qed.

Lemma nonzero_from_NoDup (k : nat) (mask : list bool) :
  NoDup (Prepare.nonzero_from k mask).
Proof.
  revert k; induction mask as [|b mask IH]; intros k; simpl.
  - constructor.
  - destruct b; [|apply IH].
    constructor; [|apply IH].
    intros H. apply list_elem_of_In, nonzero_from_bounds in H. lia.
Qed.

Lemma select_length (k : nat) (mask : list bool) (row : vector) :
  (length (Prepare.select mask row) <= length (Prepare.nonzero_from k mask))%nat.
Proof.
  revert k row; induction mask as [|b mask IH]; intros k [|x row]; simpl;
    try lia.
  destruct b; simpl; [specialize (IH (S k) row); lia|apply IH].
Qed.

Lemma nth_repeat_zero (n c : nat) : nth c (repeat 0 n) 0 = 0.
Proof.
  revert c; induction n as [|n IH]; intros [|c]; simpl; auto.
Qed.

Lemma dot_repeat_zero (n : nat) : dot (repeat 0 n) (repeat 0 n) = 0.
Proof. induction n as [|n IH]; simpl; [reflexivity|rewrite IH; ring]. Qed.

(** A row of a masked template, scattered back over the channels of its
    mask, keeps its sum of squares. *)
Lemma scatter_select (C : nat) (mask : list bool) (row : vector) (k : R) :
  (length mask <= C)%nat ->
  let vals := map (fun x => x / k) (Prepare.select mask row) in
  exists r, Overlaps.scatter (repeat 0 C) (Prepare.nonzero mask) vals = Some r /\
            dot r r = dot vals vals.
Proof.
  intros Hlen vals.
  destruct (scatter_sumsq (Prepare.nonzero mask) (repeat 0 C) vals)
    as (r & Hr & Hdot).
  - apply nonzero_from_NoDup.
  - intros c Hc. apply nonzero_from_bounds in Hc.
    rewrite repeat_length. split; [lia|apply nth_repeat_zero].
  - unfold vals. rewrite length_map. apply select_length.
  - exists r. split; [exact Hr|]. rewrite Hdot, dot_repeat_zero. ring.
Qed.

Lemma mapM_sumsq {A : Type} (f : A -> option vector) (g : A -> R) (l : list A) :
  (forall x, In x l -> exists r, f x = Some r /\ dot r r = g x) ->
  exists D, mapM f l = Some D /\ sumsq D = Rsum (map g l).
Proof.
  induction l as [|x l IH]; intros H.
  - exists []. split; reflexivity.
  - destruct (H x (or_introl eq_refl)) as (r & Hr & Hdot).
    destruct IH as (D & HD & Hsum); [intros y Hy; apply H; right; exact Hy|].
    exists (r :: D). split.
    + simpl. rewrite Hr. simpl. rewrite HD. reflexivity.
    + unfold sumsq in *. simpl. rewrite dot_app by reflexivity.
      rewrite Hdot, Hsum. reflexivity.
Qed.

Lemma Rsum_rows (W : matrix) (g : vector -> R) :
  Rsum (map (fun t => g (mrow W t)) (seq 0 (length W))) = Rsum (map g W).
Proof.
  induction W as [|r W IH]; simpl; [reflexivity|].
  rewrite <- seq_shift, map_map. unfold mrow in *. simpl. rewrite IH.
  reflexivity.
Qed.

(** A normalised template has unit sum of squares. *)
Lemma sumsq_normalize (mask : list bool) (W : matrix) :
  0 < Prepare.norm_of mask W -> sumsq (Prepare.normalize mask W) = 1.
Proof.
  intros Hpos. unfold Prepare.normalize, sumsq.
  rewrite dot_concat_self, map_map.
  rewrite (map_ext _ (fun r => dot r r
             / (Prepare.norm_of mask W * Prepare.norm_of mask W)))
    by (intros r; apply dot_scale).
  rewrite Rsum_map_scale, <- dot_concat_self.
  unfold Prepare.norm_of, frobenius, sumsq in *.
  set (s := dot (concat (Prepare.restrict mask W))
                (concat (Prepare.restrict mask W))) in *.
  assert (Hs : 0 <= s) by apply dot_self_nonneg.
  rewrite sqrt_sqrt by exact Hs.
  assert (s <> 0).
  { intros ->. rewrite sqrt_0 in Hpos. lra. }
  field. assumption.
Qed.

Lemma mrow_normalize (mask : list bool) (W : matrix) (t : nat) :
  mrow (Prepare.normalize mask W) t
  = map (fun x => x / Prepare.norm_of mask W) (Prepare.select mask (mrow W t)).
Proof.
  unfold Prepare.normalize, Prepare.restrict, mrow. rewrite map_map.
  set (f := fun r => map (fun x => x / Prepare.norm_of mask W)
                         (Prepare.select mask r)).
  assert (H0 : f [] = []) by (unfold f; destruct mask; reflexivity).
  transitivity (nth t (map f W) (f [])).
  - rewrite H0. reflexivity.
  - apply map_nth.
Qed.

Lemma densify_one_normalized (L C : nat) (mask : list bool) (W : matrix) :
  (length mask <= C)%nat ->
  exists D,
    Overlaps.densify_one L C (Prepare.normalize mask W) (Prepare.nonzero mask)
    = Some D /\
    sumsq D
    = Rsum (map (fun t => dot (mrow (Prepare.normalize mask W) t)
                              (mrow (Prepare.normalize mask W) t))
                (seq 0 L)).
Proof.
  intros Hlen. unfold Overlaps.densify_one.
  apply mapM_sumsq. intros t _.
  rewrite mrow_normalize. apply scatter_select. exact Hlen.
Qed.

(** ** C2: the self term of the overlap tensor *)

(** C2 (as amended).  For templates of [L >= 2] samples normalised as in
    [_prepare_templates], every template [n] of positive norm has
    [O_n[n, L] = 1] (exactly, in real arithmetic): the zero-lag self
    term sits at column [L]. *)
Theorem overlap_self_peak (templates : list matrix)
    (sparsity : list (list bool)) (L C n : nat) :
  Forall (fun mask => length mask = C) sparsity ->
  (n < length templates)%nat ->
  length (nth n templates []) = L ->
  (2 <= L)%nat ->
  0 < Prepare.norm_of (nth n sparsity []) (nth n templates []) ->
  exists O,
    Overlaps.compute_overlaps (Prepare.normalized templates sparsity) L C
      (Prepare.sparsities templates sparsity) = Some O /\
    tget O n n L = 1.
Proof.
  intros Hmask Hn HL HL2 Hpos.
  assert (Hm : forall i, (length (nth i sparsity []) <= C)%nat).
  { intros i. destruct (nth_in_or_default i sparsity []) as [Hin| ->].
    - rewrite List.Forall_forall in Hmask. rewrite (Hmask _ Hin). lia.
    - simpl. lia. }
  assert (HN : length (Prepare.normalized templates sparsity)
               = length templates).
  { unfold Prepare.normalized. rewrite length_map, length_seq. reflexivity. }
  destruct (Overlaps.densify L C (Prepare.normalized templates sparsity)
              (Prepare.sparsities templates sparsity)) as [dense|] eqn:Hd.
  2:{ exfalso. apply eq_None_not_Some in Hd. apply Hd.
      unfold Overlaps.densify. apply mapM_is_Some_2.
      apply List.Forall_forall. intros i Hi. apply in_seq in Hi.
      rewrite HN in Hi.
      unfold compose, Prepare.normalized, Prepare.sparsities.
      rewrite !nth_map_seq by lia.
      destruct (densify_one_normalized L C (nth i sparsity [])
                  (nth i templates []) (Hm i)) as (D & HD & _).
      rewrite HD. eexists; reflexivity. }
  exists (overlap_table L dense). split.
  - apply compute_overlaps_table. exact Hd.
  - assert (Hlen : length dense = length templates).
    { apply length_mapM in Hd. rewrite length_seq, HN in Hd. congruence. }
    rewrite tget_overlap_table by lia.
    unfold lag_matrix. rewrite Nat.leb_refl.
    rewrite mget_cross by lia.
    rewrite Nat.sub_diag, drop_0.
    rewrite take_ge by (rewrite (densify_rows _ _ _ _ _ _ Hd); lia).
    pose proof Hd as Hone. unfold Overlaps.densify in Hone.
    apply (mapM_seq_nth _ _ _ n []) in Hone; [|rewrite HN; exact Hn].
    unfold Prepare.normalized, Prepare.sparsities in Hone.
    rewrite !nth_map_seq in Hone by exact Hn.
    destruct (densify_one_normalized L C (nth n sparsity [])
                (nth n templates []) (Hm n)) as (D & HD & Hsq).
    rewrite HD in Hone. injection Hone as <-.
    fold (sumsq D). rewrite Hsq.
    assert (HL' : L = length (Prepare.normalize (nth n sparsity [])
                                (nth n templates []))).
    { unfold Prepare.normalize, Prepare.restrict. rewrite !length_map.
      symmetry; exact HL. }
    rewrite HL' at 1.
    rewrite (Rsum_rows _ (fun r => dot r r)), <- dot_concat_self.
    apply sumsq_normalize. exact Hpos.
Qed.

Lemma example_norm_pos : 0 < Prepare.norm_of [true] [[1]; [0]].
Proof.
  unfold Prepare.norm_of, frobenius, sumsq. simpl.
  apply sqrt_lt_R0. lra.
Qed.

Lemma overlap_self_peak_witness :
  exists O,
    Overlaps.compute_overlaps (Prepare.normalized [[[1]; [0]]] [[true]]) 2 1
      (Prepare.sparsities [[[1]; [0]]] [[true]]) = Some O /\
    tget O 0 0 2 = 1.
Proof.
  apply (overlap_self_peak [[[1]; [0]]] [[true]] 2 1 0).
  - repeat constructor.
  - simpl; lia.
  - reflexivity.
  - lia.
  - exact example_norm_pos.
Defined.

(** C2 (as stated) fails: the single template [[1], [0]] (norm [1],
    [L = 2]) has [O_0[0, L - 1] = 0], the lag-one autocorrelation, at
    distance [1] from the claimed value. *)
Lemma overlap_self_peak_counterexample :
  exists O,
    Overlaps.compute_overlaps (Prepare.normalized [[[1]; [0]]] [[true]]) 2 1
      (Prepare.sparsities [[[1]; [0]]] [[true]]) = Some O /\
    0 < Prepare.norm_of [true] [[1]; [0]] /\
    Rabs (tget O 0 0 (2 - 1) - 1) > 1 / 1000000.
Proof.
  eexists. split; [|split; [exact example_norm_pos|]].
  - apply compute_overlaps_table. reflexivity.
  - rewrite tget_overlap_table by (simpl; lia).
    unfold lag_matrix. simpl.
    unfold mget, mrow, vget. simpl.
    set (k := Prepare.norm_of [true] [[1]; [0]]).
    replace (1 / k * (0 / k) + 0 - 1) with (Ropp 1) by (unfold Rdiv; ring).
    rewrite Rabs_Ropp, Rabs_R1. lra.
Qed.

(** ** Sorting detections *)

Lemma insert_spike_perm (s : spike) (l : list spike) :
  Permutation (insert_spike s l) (s :: l).
Proof.
  induction l as [|h t IH]; simpl; [reflexivity|].
  destruct (sample_index s <=? sample_index h)%Z; [reflexivity|].
  rewrite IH. apply perm_swap.
Qed.

Lemma argsort_spikes_perm (l : list spike) : Permutation (argsort_spikes l) l.
Proof.
  induction l as [|s l IH]; simpl; [reflexivity|].
  rewrite insert_spike_perm, IH. reflexivity.
Qed.

Lemma insert_spike_sorted (s : spike) (l : list spike) :
  StronglySorted spike_le l -> StronglySorted spike_le (insert_spike s l).
Proof.
  induction 1 as [|h t Ht IH Hall]; simpl.
  - repeat constructor.
  - destruct (Z.leb_spec (sample_index s) (sample_index h)) as [Hle|Hgt].
    + constructor; [constructor; assumption|].
      constructor; [exact Hle|].
      eapply Forall_impl; [exact Hall|].
      intros x Hx. unfold spike_le in *. lia.
    + constructor; [exact IH|].
      eapply Permutation_Forall; [symmetry; apply insert_spike_perm|].
      constructor; [unfold spike_le; lia|exact Hall].
Qed.

Lemma argsort_spikes_sorted (l : list spike) :
  StronglySorted spike_le (argsort_spikes l).
Proof.
  induction l as [|s l IH]; simpl; [constructor|].
  apply insert_spike_sorted, IH.
Qed.

(** ** Enumerating and selecting entries *)

Lemma in_entries {A : Type} (S : list (list A)) (n p : nat) (s : A) :
  In (n, p, s) (entries S) <-> entry S n p = Some s.
Proof.
  unfold entries, entry. rewrite in_concat. split.
  - intros (l & Hl & Hin).
    apply list_elem_of_In, elem_of_lookup_imap in Hl.
    destruct Hl as (n' & row & -> & Hrow).
    apply list_elem_of_In, elem_of_lookup_imap in Hin.
    destruct Hin as (p' & s' & Heq & Hs). injection Heq as -> -> ->.
    rewrite Hrow. simpl. exact Hs.
  - intros H. destruct (S !! n) as [row|] eqn:Hrow; simpl in H; [|discriminate].
    exists (imap (fun p s => (n, p, s)) row). split.
    + apply list_elem_of_In.
      apply (elem_of_lookup_imap_2 (fun n row => imap (fun p s => (n, p, s)) row)).
      exact Hrow.
    + apply list_elem_of_In.
      apply (elem_of_lookup_imap_2 (fun p s => (n, p, s))). exact H.
Qed.

Lemma omap_none {A B : Type} (f : A -> option B) (l : list A) :
  (forall x, In x l -> f x = None) -> omap f l = [].
Proof.
  induction l as [|x l IH]; intros H; [reflexivity|].
  simpl. rewrite (H x (or_introl eq_refl)). apply IH.
  intros y Hy. apply H. right; exact Hy.
Qed.

Lemma argmax_from_in (c : nat * nat * R) (l : list (nat * nat * R)) :
  In (argmax_from c l) (c :: l).
Proof.
  revert c; induction l as [|c' l IH]; intros c; simpl; [left; reflexivity|].
  destruct (IH (if Rltb c.2 c'.2 then c' else c)) as [H|H].
  - destruct (Rltb c.2 c'.2); rewrite <- H; auto.
  - right; right; exact H.
Qed.

Lemma argmax_in (l : list (nat * nat * R)) (c : nat * nat * R) :
  argmax l = Some c -> In c l.
Proof.
  destruct l as [|c0 l]; simpl; [discriminate|].
  intros H; injection H as <-. apply argmax_from_in.
Qed.

Lemma select_best_Some (valid : nat -> R -> bool) (S : list (list score))
    (n p : nat) (x : R) :
  select_best valid S = Some (n, p, x) ->
  entry S n p = Some (Fin x) /\ valid n x = true.
Proof.
  unfold select_best. intros H. apply argmax_in in H.
  apply list_elem_of_In, list_elem_of_omap in H.
  destruct H as ([[n' p'] s] & Hin & Hf). simpl in Hf.
  destruct s as [|y]; [discriminate|].
  destruct (valid n' y) eqn:Hv; [|discriminate].
  injection Hf as -> -> ->.
  apply list_elem_of_In, in_entries in Hin. split; assumption.
Qed.

Lemma select_best_None (valid : nat -> R -> bool) (S : list (list score)) :
  (forall n p x, entry S n p = Some (Fin x) -> valid n x = false) ->
  select_best valid S = None.
Proof.
  intros H. unfold select_best. rewrite omap_none; [reflexivity|].
  intros [[n p] s] Hin. simpl. destruct s as [|x]; [reflexivity|].
  apply in_entries in Hin. rewrite (H _ _ _ Hin). reflexivity.
Qed.

(** ** The OMP loop *)

Lemma omp_loop_iterate (d : OMP.params) (sps : list (list score)) (P : nat)
    (k fuel : nat) (st0 st : OMP.state) :
  OMP.iterate k d sps P st0 = Some st ->
  OMP.step d sps P st = OMP.Dependent \/ OMP.step d sps P st = OMP.Finished ->
  (k < fuel)%nat ->
  OMP.loop fuel d sps P st0 = Ok st.
Proof.
  revert fuel st0; induction k as [|k IH]; intros fuel st0 Hit Hstep Hfuel.
  - injection Hit as ->. destruct fuel as [|fuel]; [lia|]. simpl.
    destruct Hstep as [-> | ->]; reflexivity.
  - destruct fuel as [|fuel]; [lia|]. simpl in *.
    destruct (OMP.step d sps P st0) as [| |st1|e]; try discriminate.
    apply IH; [exact Hit|exact Hstep|lia].
Qed.

Lemma omp_step_dependent (d : OMP.params) (sps : list (list score)) (P : nat)
    (st : OMP.state) (n p : nat) (x Lkk : R) :
  select_best (OMP.is_valid d) (OMP.scalar_products st) = Some (n, p, x) ->
  (OMP.candidate d st n p).2 = Some Lkk ->
  Lkk <= omp_tol ->
  OMP.step d sps P st = OMP.Dependent.
Proof.
  intros Hsel Hc Hle. unfold OMP.step. rewrite Hsel.
  unfold OMP.cholesky_row.
  destruct (OMP.candidate d st n p) as [row [l|]]; simpl in Hc; [|discriminate].
  injection Hc as ->.
  rewrite (proj2 (Rleb_true _ _) Hle). reflexivity.
Qed.

Lemma omp_step_next_selection (d : OMP.params) (sps : list (list score))
    (P : nat) (st st' : OMP.state) :
  OMP.step d sps P st = OMP.Next st' ->
  (OMP.num_selection st < OMP.num_templates d * P)%nat /\
  OMP.num_selection st' = S (OMP.num_selection st).
Proof.
  unfold OMP.step.
  destruct (select_best _ _) as [[[n p] x]|]; [|discriminate].
  destruct (OMP.cholesky_row d st n p) as [row|]; [|discriminate].
  destruct (Nat.leb_spec (OMP.num_templates d * P) (OMP.num_selection st));
    [discriminate|].
  intros Heq; injection Heq as <-. split; [assumption|].
  unfold OMP.num_selection. simpl. rewrite length_app. simpl. lia.
Qed.

(** The loop needs at most [N * P + 1] turns: the selection array has
    room for [N * P] atoms, and each full turn adds one. *)
Lemma omp_loop_fuel (d : OMP.params) (sps : list (list score)) (P : nat)
    (fuel : nat) (st : OMP.state) :
  (OMP.num_templates d * P - OMP.num_selection st < fuel)%nat ->
  OMP.loop fuel d sps P st <> OutOfFuel.
Proof.
  revert st; induction fuel as [|fuel IH]; intros st Hfuel; [lia|].
  simpl. destruct (OMP.step d sps P st) as [| |st'|e] eqn:Hstep;
    try discriminate.
  apply omp_step_next_selection in Hstep. destruct Hstep as [Hlt Hs].
  apply IH. lia.
Qed.

(** ** C6: the OMP output filter *)

Lemma length_omap_if {A B : Type} (b : A -> bool) (g : A -> B) (l : list A) :
  length (omap (fun e => if b e then Some (g e) else None) l)
  = length (List.filter b l).
Proof.
  induction l as [|e l IH]; [reflexivity|].
  cbn. destruct (b e); cbn; rewrite IH; reflexivity.
Qed.

Lemma retained_in (d : OMP.params) (fa : matrix) (s : spike) :
  In s (OMP.retained d fa) <->
  exists n p a,
    entry fa n p = Some a /\
    (OMP.amplitudes d).1 < a < (OMP.amplitudes d).2 /\
    s = {| sample_index := Z.of_nat p + Z.of_nat (OMP.nbefore d);
           channel_index := 0; cluster_index := n; amplitude := a |}.
Proof.
  unfold OMP.retained. rewrite <- list_elem_of_In, list_elem_of_omap. split.
  - intros ([[n p] a] & Hin & Hf). simpl in Hf.
    destruct (Rltb _ a) eqn:H1; [|discriminate].
    destruct (Rltb a _) eqn:H2; [|discriminate].
    simpl in Hf. injection Hf as <-.
    apply Rltb_true in H1. apply Rltb_true in H2.
    exists n, p, a. split; [|split; [lra|reflexivity]].
    apply in_entries, list_elem_of_In. exact Hin.
  - intros (n & p & a & He & [H1 H2] & ->).
    exists (n, p, a). split.
    + apply list_elem_of_In, in_entries. exact He.
    + simpl. rewrite (proj2 (Rltb_true _ _) H1), (proj2 (Rltb_true _ _) H2).
      reflexivity.
Qed.

(** C6 (as amended).  What [main_function] returns is the filter of the
    final amplitudes; the filter emits one detection for exactly those
    pairs [(n, p)] whose amplitude lies strictly inside the band,
    [a_min < alpha[n, p] < a_max], and that detection has
    [sample_index = p + nbefore], [channel_index = 0], [cluster_index = n]
    and [amplitude = alpha[n, p]]. *)
Theorem omp_output_filter (d : OMP.params) :
  (forall fuel traces spikes,
     OMP.main_function fuel traces d = Ok spikes ->
     exists sps st,
       OMP.initial_scores d traces = Ok sps /\
       OMP.loop fuel d sps (length traces + 1 - OMP.num_samples d)
         (OMP.init_state (OMP.num_templates d)
            (length traces + 1 - OMP.num_samples d) sps) = Ok st /\
       spikes = OMP.emit d (OMP.final_amplitudes st)) /\
  (forall fa s,
     In s (OMP.emit d fa) <->
     exists n p a,
       entry fa n p = Some a /\
       (OMP.amplitudes d).1 < a < (OMP.amplitudes d).2 /\
       s = {| sample_index := Z.of_nat p + Z.of_nat (OMP.nbefore d);
              channel_index := 0; cluster_index := n; amplitude := a |}) /\
  (forall fa,
     length (OMP.emit d fa)
     = length (List.filter
                 (fun e : nat * nat * R =>
                    Rltb (OMP.amplitudes d).1 e.2 && Rltb e.2 (OMP.amplitudes d).2)
                 (entries fa))).
Proof.
  split; [|split].
  - intros fuel traces spikes H. unfold OMP.main_function in H.
    destruct (OMP.initial_scores d traces) as [sps|e|]; try discriminate.
    destruct (OMP.loop _ _ _ _ _) as [st|e|] eqn:Hl; try discriminate.
    injection H as <-. exists sps, st. repeat split; assumption.
  - intros fa s. rewrite <- retained_in. unfold OMP.emit.
    split; apply Permutation_in;
      [|symmetry]; apply argsort_spikes_perm.
  - intros fa. unfold OMP.emit.
    rewrite (Permutation_length (argsort_spikes_perm _)).
    unfold OMP.retained. apply length_omap_if.
Qed.

(** C6 (as stated) fails on the boundary: with the band [[0, 2]] an
    amplitude of exactly [0] (what every unselected entry holds) lies
    within the closed band and is not emitted. *)
Lemma omp_output_filter_counterexample :
  let d := {| OMP.num_templates := 1; OMP.overlaps := [[[0]]];
              OMP.norms := [1]; OMP.nbefore := 0; OMP.nafter := 1;
              OMP.amplitudes := (0, 2); OMP.ignored_ids := [];
              OMP.stop_criteria := init_stop_criteria (1 / 10) [1] [1] 1;
              OMP.vicinity := 0;
              OMP.spatial := [[[1]]]; OMP.singular := [[1]];
              OMP.temporal := [[[1]]] |} in
  entry [[0]] 0 0 = Some 0 /\
  (OMP.amplitudes d).1 <= 0 <= (OMP.amplitudes d).2 /\
  OMP.emit d [[0]] = [].
Proof.
  simpl. split; [reflexivity|]. split; [lra|].
  unfold OMP.emit, OMP.retained. simpl.
  rewrite (proj2 (Rltb_false 0 0)) by lra. reflexivity.
Qed.

(** ** Scoring a trace of zeros *)

Lemma vget_zero (f : vector) (i : nat) : Forall (eq 0) f -> vget f i = 0.
Proof.
  intros H. unfold vget. destruct (nth_in_or_default i f 0) as [Hin | ->];
    [|reflexivity].
  rewrite List.Forall_forall in H. symmetry. apply H, Hin.
Qed.

Lemma map_const_seq {A : Type} (f : nat -> A) (a : A) (k n : nat) :
  (forall i, f i = a) -> map f (seq k n) = repeat a n.
Proof.
  intros H. revert k; induction n as [|n IH]; intros k; simpl;
    [reflexivity|].
  rewrite H, IH. reflexivity.
Qed.

Lemma conv_valid_zero (f g : vector) (p : nat) :
  Forall (eq 0) f -> OMP.conv_valid f g p = 0.
Proof.
  intros H. unfold OMP.conv_valid. apply Rsum_zero.
  apply List.Forall_forall. intros x Hx. apply in_map_iff in Hx.
  destruct Hx as (j & <- & _). rewrite (vget_zero f) by exact H. ring.
Qed.

Lemma scaled_filtered_zero (d : OMP.params) (traces : matrix) (r n : nat) :
  zero_trace traces -> Forall (eq 0) (OMP.scaled_filtered d traces r n).
Proof.
  intros H. unfold OMP.scaled_filtered.
  apply List.Forall_forall. intros x Hx. apply in_map_iff in Hx.
  destruct Hx as (row & <- & Hrow).
  unfold zero_trace in H. rewrite List.Forall_forall in H.
  rewrite dot_zero_r by (apply H, Hrow). ring.
Qed.

Lemma convolve_zero (d : OMP.params) (traces : matrix) (P : nat) :
  zero_trace traces ->
  OMP.convolve d traces P = repeat (repeat 0 P) (OMP.num_templates d).
Proof.
  intros H. unfold OMP.convolve.
  apply map_const_seq. intros n. apply map_const_seq. intros p.
  apply Rsum_zero. apply List.Forall_forall. intros x Hx.
  apply in_map_iff in Hx. destruct Hx as (r & <- & _).
  symmetry. apply conv_valid_zero, scaled_filtered_zero, H.
Qed.

Lemma entry_repeat {A : Type} (a x : A) (N P n p : nat) :
  entry (repeat (repeat a P) N) n p = Some x -> x = a.
Proof.
  unfold entry. intros H.
  destruct (repeat (repeat a P) N !! n) as [row|] eqn:Hrow; [|discriminate].
  simpl in H. apply list_elem_of_lookup_2, list_elem_of_In, repeat_spec in Hrow.
  subst row. apply list_elem_of_lookup_2, list_elem_of_In, repeat_spec in H.
  exact H.
Qed.

Lemma entry_ignore (ids : list nat) (A : matrix) (n p : nat) (x : R) :
  entry (OMP.ignore ids A) n p = Some (Fin x) -> entry A n p = Some x.
Proof.
  unfold entry, OMP.ignore. rewrite list_lookup_imap.
  destruct (A !! n) as [row|]; [|discriminate]. simpl.
  destruct (existsb (Nat.eqb n) ids).
  - rewrite list_lookup_fmap. destruct (row !! p); simpl; discriminate.
  - rewrite list_lookup_fmap. destruct (row !! p); simpl; [|discriminate].
    intros H; injection H as ->. reflexivity.
Qed.

(** The threshold set at initialisation is never negative. *)
Lemma init_stop_criteria_nonneg (p : R) (norms noise : vector) (L n : nat) :
  0 <= p -> 0 <= vget (init_stop_criteria p norms noise L) n.
Proof.
  intros Hp. unfold vget.
  destruct (nth_in_or_default n (init_stop_criteria p norms noise L) 0)
    as [Hin | ->]; [|lra].
  unfold init_stop_criteria in Hin at 2. apply in_map_iff in Hin.
  destruct Hin as (nrm & <- & _).
  apply Rmult_le_pos; [exact Hp|].
  eapply Rle_trans; [apply sqrt_pos|apply Rmax_r].
Qed.

(** On a trace of zeros, with thresholds as set at initialisation, the
    OMP loop makes no turn: the output is the filter of the all-zero
    amplitude grid. *)
Lemma omp_zero_trace (d : OMP.params) (traces : matrix) (fuel : nat)
    (p : R) (norms noise : vector) (L : nat) :
  zero_trace traces ->
  OMP.stop_criteria d = init_stop_criteria p norms noise L ->
  0 <= p ->
  (OMP.num_samples d <= length traces)%nat ->
  Forall (fun i => (i < OMP.num_templates d)%nat) (OMP.ignored_ids d) ->
  OMP.main_function (S fuel) traces d
  = Ok (OMP.emit d (repeat (repeat 0 (length traces + 1 - OMP.num_samples d))
                           (OMP.num_templates d))).
Proof.
  intros Hz Htau Hp HT Hids. unfold OMP.main_function.
  rewrite (initial_scores_Ok d traces HT Hids).
  rewrite convolve_zero by exact Hz.
  cbn [OMP.loop]. unfold OMP.step.
  rewrite select_best_None; [reflexivity|].
  intros n q x Hx. cbn [OMP.scalar_products OMP.init_state] in Hx.
  apply entry_ignore, entry_repeat in Hx. subst x.
  unfold OMP.is_valid. apply Rltb_false. rewrite Htau.
  apply init_stop_criteria_nonneg, Hp.
Qed.

Lemma retained_zero (d : OMP.params) (N P : nat) :
  ~ ((OMP.amplitudes d).1 < 0 < (OMP.amplitudes d).2) ->
  OMP.retained d (repeat (repeat 0 P) N) = [].
Proof.
  intros Hband. unfold OMP.retained. apply omap_none.
  intros [[n p] a] Hin. apply in_entries, entry_repeat in Hin. subst a.
  simpl. destruct (Rltb _ 0) eqn:H1; [|reflexivity].
  destruct (Rltb 0 _) eqn:H2; [|reflexivity].
  apply Rltb_true in H1. apply Rltb_true in H2. lra.
Qed.

(** ** [np.unique] *)

Lemma insert_uniq_in (t x : Z) (l : list Z) :
  In x (Greedy.insert_uniq t l) <-> x = t \/ In x l.
Proof.
  induction l as [|h r IH]; simpl; [intuition congruence|].
  destruct (Z.ltb_spec t h); simpl; [intuition congruence|].
  destruct (Z.eqb_spec t h); simpl; [subst; intuition congruence|].
  rewrite IH. intuition congruence.
Qed.

Lemma insert_uniq_sorted (t : Z) (l : list Z) :
  StronglySorted Z.lt l -> StronglySorted Z.lt (Greedy.insert_uniq t l).
Proof.
  induction 1 as [|h r Hr IH Hall]; simpl.
  - repeat constructor.
  - destruct (Z.ltb_spec t h) as [Hlt|Hge].
    + constructor; [constructor; assumption|].
      constructor; [exact Hlt|].
      eapply Forall_impl; [exact Hall|]. intros; simpl in *; lia.
    + destruct (Z.eqb_spec t h) as [->|Hne]; [constructor; assumption|].
      constructor; [exact IH|].
      apply List.Forall_forall. intros x Hx. apply insert_uniq_in in Hx.
      destruct Hx as [->|Hx]; [lia|].
      rewrite List.Forall_forall in Hall. apply Hall, Hx.
Qed.

Lemma sort_uniq_in (x : Z) (l : list Z) :
  In x (Greedy.sort_uniq l) <-> In x l.
Proof.
  induction l as [|t l IH]; simpl; [reflexivity|].
  rewrite insert_uniq_in, IH. intuition congruence.
Qed.

Lemma sort_uniq_sorted (l : list Z) : StronglySorted Z.lt (Greedy.sort_uniq l).
Proof.
  induction l as [|t l IH]; simpl; [constructor|].
  apply insert_uniq_sorted, IH.
Qed.

(** [first_index] finds the first occurrence. *)
Lemma first_index_split (l : list (Z * Z)) (x : Z) :
  In x (map fst l) ->
  exists l1 c l2,
    l = l1 ++ (x, c) :: l2 /\ ~ In x (map fst l1) /\
    Greedy.first_index x (map fst l) = length l1.
Proof.
  induction l as [|[t c] l IH]; simpl; [tauto|].
  intros H. destruct (Z.eqb_spec t x) as [->|Hne].
  - exists [], c, l. simpl. repeat split. tauto.
  - destruct H as [H|H]; [contradiction|].
    destruct (IH H) as (l1 & c' & l2 & -> & Hnot & Hidx).
    exists ((t, c) :: l1), c', l2. simpl. repeat split.
    + intros [Heq|Hin]; [contradiction|]. apply Hnot, Hin.
    + rewrite Hidx. reflexivity.
Qed.

Lemma in_arange (a b j : Z) : In j (Greedy.arange a b) <-> (a <= j < b)%Z.
Proof.
  unfold Greedy.arange. rewrite in_map_iff. split.
  - intros (k & <- & Hk). apply in_seq in Hk. lia.
  - intros H. exists (Z.to_nat (j - a)). split; [lia|].
    apply in_seq. lia.
Qed.

Lemma in_jittered (J : Z) (len : nat) (peaks chans : list Z) (x c : Z) :
  In (x, c) (Greedy.jittered J len peaks chans) <->
  exists t j, In (t, c) (combine peaks chans) /\ (- J <= j < J)%Z /\
              x = (t + j)%Z /\ (0 < x < Z.of_nat len)%Z.
Proof.
  unfold Greedy.jittered. rewrite in_concat. split.
  - intros (l & Hl & Hin). apply in_map_iff in Hl.
    destruct Hl as ([t c'] & <- & Htc).
    apply list_elem_of_In, list_elem_of_omap in Hin.
    destruct Hin as (j & Hj & Hf). simpl in Hf.
    destruct (Z.ltb_spec 0 (t + j)); simpl in Hf; [|discriminate].
    destruct (Z.ltb_spec (t + j) (Z.of_nat len)); simpl in Hf; [|discriminate].
    injection Hf as <- <-.
    apply list_elem_of_In, in_arange in Hj.
    exists t, j. repeat split; try assumption; lia.
  - intros (t & j & Htc & Hj & -> & Hx).
    eexists. split; [apply in_map_iff; exists (t, c); split;
                     [reflexivity|exact Htc]|].
    apply list_elem_of_In, list_elem_of_omap. exists j. split.
    + apply list_elem_of_In, in_arange, Hj.
    + simpl. destruct (Z.ltb_spec 0 (t + j)); [|lia].
      destruct (Z.ltb_spec (t + j) (Z.of_nat len)); [|lia]. reflexivity.
Qed.

Lemma in_combine_exists {A B : Type} (l : list A) (l' : list B) (t : A) :
  length l = length l' -> In t l -> exists c, In (t, c) (combine l l').
Proof.
  revert l'; induction l as [|a l IH]; intros [|b l'] Hlen Hin; simpl in *;
    try tauto; try discriminate.
  destruct Hin as [->|Hin].
  - exists b. left; reflexivity.
  - destruct (IH l' ltac:(congruence) Hin) as (c & Hc). exists c. right; exact Hc.
Qed.

(** ** C9: jitter expansion *)

(** C9 (as amended).  When [jitter = J > 0] (and the detector returns as
    many channels as peaks), the peak times after expansion are exactly
    the [t + j], [t] a detected peak and [-J <= j < J], that satisfy
    [0 < t + j < len(peak_traces)] (time [0] is discarded too); they are
    strictly increasing, hence deduplicated; and each keeps the channel
    of its first occurrence in the expansion order. *)
Theorem jitter_expansion (d : Greedy.params) (len : nat) (peaks chans : list Z) :
  (0 < Greedy.jitter d)%Z ->
  length peaks = length chans ->
  let jit := Greedy.jittered (Greedy.jitter d) len peaks chans in
  let times := (Greedy.expand_peaks d len peaks chans).1 in
  let channels := (Greedy.expand_peaks d len peaks chans).2 in
  (forall x, In x times <->
     exists t j, In t peaks /\ (- Greedy.jitter d <= j < Greedy.jitter d)%Z /\
                 x = (t + j)%Z /\ (0 < x < Z.of_nat len)%Z) /\
  StronglySorted Z.lt times /\
  length channels = length times /\
  (forall k x, times !! k = Some x ->
     exists l1 c l2,
       jit = l1 ++ (x, c) :: l2 /\ ~ In x (map fst l1) /\
       channels !! k = Some c).
Proof.
  intros HJ Hlen jit times channels.
  unfold times, channels, Greedy.expand_peaks.
  destruct (Z.ltb_spec 0 (Greedy.jitter d)) as [_|]; [|lia].
  unfold Greedy.np_unique. cbn [fst snd]. fold jit.
  assert (Hin : forall x, In x (map fst jit) <->
            exists t j, In t peaks /\
              (- Greedy.jitter d <= j < Greedy.jitter d)%Z /\
              x = (t + j)%Z /\ (0 < x < Z.of_nat len)%Z).
  { intros x. rewrite in_map_iff. split.
    - intros ([x' c] & Hx & Hxc). simpl in Hx. subst x'.
      apply in_jittered in Hxc. destruct Hxc as (t & j & Htc & Hj & -> & Hr).
      exists t, j. repeat split; try assumption; try lia.
      eapply in_combine_l, Htc.
    - intros (t & j & Ht & Hj & -> & Hr).
      destruct (in_combine_exists peaks chans t Hlen Ht) as (c & Hc).
      exists ((t + j)%Z, c). split; [reflexivity|].
      apply in_jittered. exists t, j. repeat split; try assumption; lia. }
  split; [|split; [|split]].
  - intros x. rewrite sort_uniq_in. apply Hin.
  - apply sort_uniq_sorted.
  - rewrite !length_map. reflexivity.
  - intros k x Hk.
    assert (Hx : In x (map fst jit)).
    { apply sort_uniq_in, list_elem_of_In. eapply list_elem_of_lookup_2, Hk. }
    destruct (first_index_split jit x Hx) as (l1 & c & l2 & Hjit & Hnot & Hidx).
    exists l1, c, l2. split; [exact Hjit|]. split; [exact Hnot|].
    rewrite !list_lookup_fmap, Hk. simpl. f_equal.
    rewrite Hidx, Hjit, map_app. simpl.
    rewrite <- (length_map snd l1). apply nth_middle.
Qed.

Lemma jitter_expansion_witness :
  let d := {| Greedy.templates := [[1]]; Greedy.num_templates := 1;
              Greedy.overlaps := [[[0]]]; Greedy.margin := 2;
              Greedy.norms := [1]; Greedy.jitter := 1;
              Greedy.patch_sizes := (1%nat, 1%nat);
              Greedy.nbefore := 0; Greedy.nafter := 1;
              Greedy.amplitudes := [(1 / 2, 3 / 2)];
              Greedy.sym_patch := false |} in
  (Greedy.expand_peaks d 5 [2%Z; 3%Z] [7%Z; 8%Z]).1 = [1%Z; 2%Z; 3%Z] /\
  (Greedy.expand_peaks d 5 [2%Z; 3%Z] [7%Z; 8%Z]).2 = [7%Z; 7%Z; 8%Z] /\
  StronglySorted Z.lt (Greedy.expand_peaks d 5 [2%Z; 3%Z] [7%Z; 8%Z]).1.
Proof.
  intros d. split; [reflexivity|]. split; [reflexivity|].
  apply (jitter_expansion d 5 [2%Z; 3%Z] [7%Z; 8%Z]); reflexivity.
Defined.

(** C9 (as stated) fails at time [0]: a peak at [0] with [J = 1] in a
    trimmed trace of [5] samples expands to [-1] and [0]; sample [0] is
    inside the trace, yet the mask [jittered_peaks > 0] discards it. *)
Lemma jitter_expansion_counterexample :
  let d := {| Greedy.templates := [[1]]; Greedy.num_templates := 1;
              Greedy.overlaps := [[[0]]]; Greedy.margin := 2;
              Greedy.norms := [1]; Greedy.jitter := 1;
              Greedy.patch_sizes := (1%nat, 1%nat);
              Greedy.nbefore := 0; Greedy.nafter := 1;
              Greedy.amplitudes := [(1 / 2, 3 / 2)];
              Greedy.sym_patch := false |} in
  In 0%Z [0%Z] /\ (- Greedy.jitter d <= 0 < Greedy.jitter d)%Z /\
  (0 <= 0 + 0 < Z.of_nat 5)%Z /\
  ~ In (0 + 0)%Z (Greedy.expand_peaks d 5 [0%Z] [0%Z]).1.
Proof.
  intros d. split; [left; reflexivity|]. split; [simpl; lia|].
  split; [lia|]. simpl. tauto.
Qed.

(** ** The Greedy residual update *)

Lemma entry_update_cols {A : Type} (lo hi : nat) (f : nat -> nat -> A -> A)
    (S : list (list A)) (m q : nat) :
  entry (update_cols lo hi f S) m q
  = (fun s => if (lo <=? q)%nat && (q <? hi)%nat then f m q s else s)
      <$> entry S m q.
Proof.
  unfold entry, update_cols. rewrite list_lookup_imap.
  destruct (S !! m) as [row|]; simpl; [|reflexivity].
  rewrite list_lookup_imap. reflexivity.
Qed.

Lemma searchsorted_lt (a : list Z) (v : Z) (q : nat) :
  StronglySorted Z.lt a -> (q < length a)%nat ->
  (q < Greedy.searchsorted a v)%nat <-> (nth q a 0 < v)%Z.
Proof.
  intros Hs. revert q. induction Hs as [|x a Ha IH Hall]; intros q Hq;
    simpl in *; [lia|].
  destruct (Z.ltb_spec x v) as [Hlt|Hge].
  - destruct q as [|q]; [split; intros; [exact Hlt|lia]|].
    rewrite <- IH by lia. lia.
  - split; [lia|]. intros Hnth. exfalso.
    destruct q as [|q]; [lia|].
    rewrite List.Forall_forall in Hall.
    assert (x < nth q a 0)%Z by (apply Hall, nth_In; lia). lia.
Qed.

Lemma searchsorted_le_length (a : list Z) (v : Z) :
  (Greedy.searchsorted a v <= length a)%nat.
Proof.
  induction a as [|x a IH]; simpl; [lia|].
  destruct (x <? v)%Z; simpl; lia.
Qed.

Lemma StronglySorted_map_lt (f : Z -> Z) (l : list Z) :
  (forall x y, (x < y)%Z -> (f x < f y)%Z) ->
  StronglySorted Z.lt l -> StronglySorted Z.lt (map f l).
Proof.
  intros Hf. induction 1 as [|x l Hl IH Hall]; simpl; constructor;
    [exact IH|].
  apply List.Forall_forall. intros y Hy. apply in_map_iff in Hy.
  destruct Hy as (z & <- & Hz). rewrite List.Forall_forall in Hall.
  apply Hf, Hall, Hz.
Qed.

Lemma nth_peak_data (peaks : list Z) (p q : nat) :
  (q < length peaks)%nat ->
  nth q (Greedy.peak_data peaks p) 0%Z = (nth q peaks 0 - nth p peaks 0)%Z.
Proof.
  intros Hq. unfold Greedy.peak_data.
  rewrite (nth_map_in _ _ _ _ 0%Z) by exact Hq. reflexivity.
Qed.

(** Which peaks the slice [is_valid_nn[0] : is_valid_nn[1]] covers. *)
Lemma neighbors_window (d : Greedy.params) (peaks : list Z) (p q : nat) :
  StronglySorted Z.lt peaks -> (q < length peaks)%nat ->
  let L := Z.of_nat (Greedy.num_samples d) in
  let dq := (nth q peaks 0 - nth p peaks 0)%Z in
  ((Greedy.neighbors d peaks p).1 <=? q)%nat
  && (q <? (Greedy.neighbors d peaks p).2)%nat
  = (- L <? dq)%Z && (dq <? L)%Z.
Proof.
  intros Hs Hq L dq. unfold Greedy.neighbors. cbn [fst snd].
  assert (Hpd : StronglySorted Z.lt (Greedy.peak_data peaks p)).
  { apply StronglySorted_map_lt; [intros; lia|exact Hs]. }
  assert (Hlen : (q < length (Greedy.peak_data peaks p))%nat).
  { unfold Greedy.peak_data. rewrite length_map. exact Hq. }
  pose proof (searchsorted_lt _ (- Greedy.neighbor_window d) q Hpd Hlen) as Hlo.
  pose proof (searchsorted_lt _ (Greedy.neighbor_window d + 1) q Hpd Hlen) as Hhi.
  rewrite nth_peak_data in Hlo, Hhi by exact Hq. fold dq in Hlo, Hhi.
  unfold Greedy.neighbor_window in *. fold L in Hlo, Hhi. fold L.
  destruct (Nat.leb_spec (Greedy.searchsorted (Greedy.peak_data peaks p)
                            (- (L - 1))) q);
    destruct (Nat.ltb_spec q (Greedy.searchsorted (Greedy.peak_data peaks p)
                                (L - 1 + 1)));
    destruct (Z.ltb_spec (- L) dq); destruct (Z.ltb_spec dq L);
    simpl; try reflexivity; exfalso; lia.
Qed.

Lemma entry_update (d : Greedy.params) (peaks : list Z) (n p : nat) (A : R)
    (S : list (list score)) (m q : nat) :
  StronglySorted Z.lt peaks -> (q < length peaks)%nat ->
  entry (Greedy.update d peaks n p A S) m q
  = updated d peaks n p A m q <$> entry S m q.
Proof.
  intros Hs Hq. unfold Greedy.update.
  pose proof (neighbors_window d peaks p q Hs Hq) as Hw. cbv zeta in Hw.
  destruct (Greedy.neighbors d peaks p) as [lo hi]. cbn [fst snd] in Hw.
  rewrite !entry_update_cols. rewrite Hw.
  destruct (entry S m q) as [s|]; simpl; [|reflexivity].
  f_equal. unfold updated.
  destruct ((- Z.of_nat (Greedy.num_samples d) <? _)%Z && _); [|reflexivity].
  destruct (m =? n)%nat; [reflexivity|].
  rewrite nth_peak_data by exact Hq. unfold Greedy.neighbor_window.
  replace (nth q peaks 0 - nth p peaks 0 + (Z.of_nat (Greedy.num_samples d) - 1))%Z
    with (Z.of_nat (Greedy.num_samples d) - 1 + (nth q peaks 0 - nth p peaks 0))%Z
    by lia.
  destruct s as [|y]; simpl; [reflexivity|]. f_equal. ring.
Qed.

(** The peak times the Greedy loop works with are strictly increasing. *)
Lemma expand_peaks_sorted (d : Greedy.params) (len : nat) (peaks chans : list Z) :
  StronglySorted Z.lt (Greedy.shift d (Greedy.expand_peaks d len peaks chans).1).
Proof.
  unfold Greedy.shift. apply StronglySorted_map_lt; [intros; lia|].
  unfold Greedy.expand_peaks, Greedy.np_unique.
  destruct (0 <? Greedy.jitter d)%Z; cbn [fst]; apply sort_uniq_sorted.
Qed.

Ltac solve_Rltb :=
  repeat match goal with
         | |- context [Rltb ?a ?b] =>
             first [ rewrite (proj2 (Rltb_true a b)) by (simpl; lra)
                   | rewrite (proj2 (Rltb_false a b)) by (simpl; lra) ]
         | |- context [Rleb ?a ?b] =>
             first [ rewrite (proj2 (Rleb_true a b)) by (simpl; lra)
                   | rewrite (proj2 (Rleb_false a b)) by (simpl; lra) ]
         end.

(** ** C5: the residual law of the Greedy loop *)

(** C5.  A turn of the Greedy loop that selects [(n, p)] with amplitude
    [A = S[n, p]] (and still has room in [spikes]) goes on with a score
    tensor that differs from [S] exactly at the peaks [q] whose sample
    distance [dq] from peak [p] lies in [(-L, L)]: there [S[m, q]] has
    become [S[m, q] - A * O_n[m, L - 1 + dq]] for [m <> n] and [-inf]
    for [m = n]; every other entry is the one of [S], and the selection
    is appended to the detections. *)
Theorem greedy_residual_update (detect_peaks : matrix -> list Z * list Z)
    (d : Greedy.params) (traces : matrix) (chans : list Z) (size : nat)
    (st : Greedy.state) (n p : nat) (A : R) :
  let pt := Greedy.peak_traces d traces in
  let peaks :=
    Greedy.shift d (Greedy.expand_peaks d (length pt)
                      (detect_peaks pt).1 (detect_peaks pt).2).1 in
  let S := Greedy.scalar_products st in
  select_best (Greedy.is_valid d) S = Some (n, p, A) ->
  (length (Greedy.spikes st) < size)%nat ->
  exists st',
    Greedy.step d peaks chans size st = Greedy.Next st' /\
    entry S n p = Some (Fin A) /\
    (forall m q, (q < length peaks)%nat ->
       entry (Greedy.scalar_products st') m q
       = (fun s =>
            let L := Z.of_nat (Greedy.num_samples d) in
            let dq := (nth q peaks 0 - nth p peaks 0)%Z in
            if (- L <? dq)%Z && (dq <? L)%Z then
              if (m =? n)%nat then NegInf
              else score_sub s (A * mget (nth n (Greedy.overlaps d) []) m
                                          (Z.to_nat (L - 1 + dq)))
            else s) <$> entry S m q) /\
    (forall m q, (length peaks <= q)%nat ->
       entry (Greedy.scalar_products st') m q = entry S m q) /\
    Greedy.spikes st'
    = Greedy.spikes st ++ [ {| sample_index := nth p peaks 0%Z;
                               channel_index := nth p chans 0%Z;
                               cluster_index := n;
                               amplitude := A |} ].
Proof.
  intros pt peaks S Hsel Hroom.
  eexists. split.
  { unfold Greedy.step. fold S. rewrite Hsel.
    destruct (Nat.leb_spec size (length (Greedy.spikes st))) as [Hfull|_];
      [lia|reflexivity]. }
  cbn [Greedy.scalar_products Greedy.spikes].
  split; [apply (select_best_Some _ _ _ _ _ Hsel)|]. split; [|split].
  - intros m q Hq. apply entry_update; [|exact Hq].
    apply expand_peaks_sorted.
  - intros m q Hq. unfold Greedy.update.
    pose proof (searchsorted_le_length (Greedy.peak_data peaks p)
                  (Greedy.neighbor_window d + 1)) as Hhi.
    unfold Greedy.peak_data in Hhi at 2. rewrite length_map in Hhi.
    unfold Greedy.neighbors.
    rewrite !entry_update_cols.
    destruct (Nat.ltb_spec q (Greedy.searchsorted (Greedy.peak_data peaks p)
                                (Greedy.neighbor_window d + 1))); [lia|].
    rewrite andb_false_r. destruct (entry S m q); reflexivity.
  - reflexivity.
Qed.

Lemma greedy_residual_update_witness :
  let d := residual_example in
  let st := {| Greedy.scalar_products := residual_example_scores;
               Greedy.spikes := [] |} in
  exists st',
    Greedy.step d [2%Z; 3%Z; 9%Z] [0%Z; 0%Z; 0%Z] 6 st = Greedy.Next st' /\
    entry (Greedy.scalar_products st') 0 0 = Some NegInf /\
    entry (Greedy.scalar_products st') 0 1 = Some NegInf /\
    entry (Greedy.scalar_products st') 0 2 = Some (Fin (1 / 5)) /\
    entry (Greedy.scalar_products st') 1 0 = Some (Fin (3 / 4 - 1 * (1 / 2))) /\
    entry (Greedy.scalar_products st') 1 1 = Some (Fin (1 / 4 - 1 * (1 / 8))) /\
    entry (Greedy.scalar_products st') 1 2 = Some (Fin (1 / 3)) /\
    Greedy.spikes st'
    = [ {| sample_index := 2; channel_index := 0; cluster_index := 0;
           amplitude := 1 |} ].
Proof.
  intros d st.
  assert (Hsel : select_best (Greedy.is_valid d) (Greedy.scalar_products st)
                 = Some (0%nat, 0%nat, 1)).
  { unfold select_best, entries. simpl.
    unfold Greedy.is_valid, Greedy.min_sps, Greedy.max_sps, vget. simpl.
    solve_Rltb. simpl. solve_Rltb. reflexivity. }
  destruct (greedy_residual_update
              (fun _ => ([2%Z; 3%Z; 9%Z], [0%Z; 0%Z; 0%Z])) d []
              [0%Z; 0%Z; 0%Z] 6 st 0 0 1 Hsel)
    as (st' & Hstep & _ & Hin & _ & Hsp); [simpl; lia|].
  exists st'. split; [exact Hstep|].
  assert (Hlen : forall q, (q < 3)%nat ->
            (q < length (Greedy.shift d
                   (Greedy.expand_peaks d
                      (length (Greedy.peak_traces d []))
                      ([2%Z; 3%Z; 9%Z], [0%Z; 0%Z; 0%Z]).1
                      ([2%Z; 3%Z; 9%Z], [0%Z; 0%Z; 0%Z]).2).1))%nat).
  { intros q Hq. exact Hq. }
  pose proof (Hin 0%nat 0%nat (Hlen 0%nat ltac:(lia))) as H00.
  pose proof (Hin 0%nat 1%nat (Hlen 1%nat ltac:(lia))) as H01.
  pose proof (Hin 0%nat 2%nat (Hlen 2%nat ltac:(lia))) as H02.
  pose proof (Hin 1%nat 0%nat (Hlen 0%nat ltac:(lia))) as H10.
  pose proof (Hin 1%nat 1%nat (Hlen 1%nat ltac:(lia))) as H11.
  pose proof (Hin 1%nat 2%nat (Hlen 2%nat ltac:(lia))) as H12.
  repeat split; [exact H00|exact H01|exact H02|exact H10|exact H11|exact H12
                |exact Hsp].
Defined.

(** ** Counting the finite entries *)

Lemma count_fin_le_length (row : list score) :
  (count_fin row <= length row)%nat.
Proof.
  induction row as [|s r IH]; simpl; [lia|]. destruct (is_neg_inf s); lia.
Qed.

Lemma finite_count_le (P : nat) (S : list (list score)) :
  shaped P S -> (finite_count S <= length S * P)%nat.
Proof.
  induction 1 as [|row S Hrow _ IH]; simpl; [lia|].
  pose proof (count_fin_le_length row). lia.
Qed.

Lemma count_fin_imap_le (g : nat -> score -> score) (row : list score) :
  (forall q, g q NegInf = NegInf) ->
  (count_fin (imap g row) <= count_fin row)%nat.
Proof.
  revert g; induction row as [|s r IH]; intros g Hg; [simpl; lia|].
  rewrite imap_cons. simpl.
  specialize (IH (g ∘ S) (fun q => Hg (S q))).
  destruct s as [|x]; [rewrite Hg; simpl; lia|].
  simpl. destruct (is_neg_inf (g 0%nat (Fin x))); lia.
Qed.

Lemma count_fin_imap_lt (g : nat -> score -> score) (row : list score)
    (p : nat) (x : R) :
  (forall q, g q NegInf = NegInf) ->
  row !! p = Some (Fin x) -> g p (Fin x) = NegInf ->
  (count_fin (imap g row) < count_fin row)%nat.
Proof.
  revert g p; induction row as [|s r IH]; intros g p Hg Hp Hx;
    [discriminate|].
  rewrite imap_cons. simpl. destruct p as [|p].
  - injection Hp as ->. rewrite Hx. simpl.
    pose proof (count_fin_imap_le (g ∘ S) r (fun q => Hg (S q))). lia.
  - simpl in Hp.
    specialize (IH (g ∘ S) p (fun q => Hg (S q)) Hp Hx).
    destruct s as [|y]; [rewrite Hg; simpl; lia|].
    simpl. destruct (is_neg_inf (g 0%nat (Fin y))); lia.
Qed.

Lemma finite_count_imap_le (G : nat -> nat -> score -> score)
    (S : list (list score)) :
  (forall m q, G m q NegInf = NegInf) ->
  (finite_count (imap (fun m row => imap (G m) row) S) <= finite_count S)%nat.
Proof.
  revert G; induction S as [|row S' IH]; intros G HG; [simpl; lia|].
  rewrite imap_cons. simpl.
  pose proof (count_fin_imap_le (G 0%nat) row (HG 0%nat)).
  specialize (IH (fun m => G (S m)) (fun m => HG (S m))).
  unfold compose. lia.
Qed.

Lemma finite_count_imap_lt (G : nat -> nat -> score -> score)
    (S : list (list score)) (n p : nat) (x : R) :
  (forall m q, G m q NegInf = NegInf) ->
  entry S n p = Some (Fin x) -> G n p (Fin x) = NegInf ->
  (finite_count (imap (fun m row => imap (G m) row) S) < finite_count S)%nat.
Proof.
  revert G n; induction S as [|row S' IH]; intros G n HG He Hx;
    [discriminate|].
  rewrite imap_cons. simpl. unfold compose. destruct n as [|n].
  - unfold entry in He. simpl in He.
    pose proof (count_fin_imap_lt (G 0%nat) row p x (HG 0%nat) He Hx).
    pose proof (finite_count_imap_le (fun m => G (S m)) S'
                  (fun m => HG (S m))).
    lia.
  - pose proof (count_fin_imap_le (G 0%nat) row (HG 0%nat)).
    specialize (IH (fun m => G (S m)) n (fun m => HG (S m)) He Hx). lia.
Qed.

Lemma shaped_update_cols {A : Type} (P lo hi : nat) (f : nat -> nat -> A -> A)
    (S : list (list A)) :
  shaped P S -> shaped P (update_cols lo hi f S).
Proof.
  unfold shaped, update_cols. intros H.
  apply Forall_lookup_2. intros m row Hrow.
  rewrite list_lookup_imap in Hrow.
  destruct (S !! m) as [row0|] eqn:H0; [|discriminate].
  simpl in Hrow. injection Hrow as <-. rewrite length_imap.
  eapply Forall_lookup_1 in H; [exact H|exact H0].
Qed.

Lemma entry_shaped {A : Type} (P : nat) (S : list (list A)) (n p : nat) (s : A) :
  shaped P S -> entry S n p = Some s -> (p < P)%nat.
Proof.
  unfold shaped, entry. intros H He.
  destruct (S !! n) as [row|] eqn:Hrow; [|discriminate]. simpl in He.
  eapply Forall_lookup_1 in H; [|exact Hrow]. simpl in H. subst P.
  eapply lookup_lt_Some, He.
Qed.

(** ** Progress of the Greedy loop *)

Lemma update_keeps_neg_inf (d : Greedy.params) (peaks : list Z) (n p : nat)
    (A : R) (S : list (list score)) (m q : nat) :
  entry S m q = Some NegInf ->
  entry (Greedy.update d peaks n p A S) m q = Some NegInf.
Proof.
  intros He. unfold Greedy.update.
  destruct (Greedy.neighbors d peaks p) as [lo hi].
  rewrite !entry_update_cols, He. simpl.
  destruct ((lo <=? q)%nat && (q <? hi)%nat); simpl; [|reflexivity].
  destruct (m =? n)%nat; reflexivity.
Qed.

Lemma update_shaped (d : Greedy.params) (peaks : list Z) (n p : nat) (A : R)
    (P : nat) (S : list (list score)) :
  shaped P S -> shaped P (Greedy.update d peaks n p A S).
Proof.
  intros H. unfold Greedy.update.
  destruct (Greedy.neighbors d peaks p) as [lo hi].
  apply shaped_update_cols, shaped_update_cols, H.
Qed.

Section GreedyProgress.

(** What [main_function] guarantees of the peak times it hands to the
    loop, and the one assumption on the templates. *)
Variable d : Greedy.params.
Variable peaks : list Z.
Hypothesis peaks_sorted : StronglySorted Z.lt peaks.
Hypothesis samples_pos : (0 < Greedy.num_samples d)%nat.

(** The selected peak lies in its own neighbour slice. *)
Lemma neighbors_self (p : nat) :
  (p < length peaks)%nat ->
  ((Greedy.neighbors d peaks p).1 <=? p)%nat
  && (p <? (Greedy.neighbors d peaks p).2)%nat = true.
Proof.
  intros Hp. rewrite (neighbors_window d peaks p p peaks_sorted Hp).
  rewrite Z.sub_diag.
  destruct (Z.ltb_spec (- Z.of_nat (Greedy.num_samples d)) 0); [|lia].
  destruct (Z.ltb_spec 0 (Z.of_nat (Greedy.num_samples d))); [|lia].
  reflexivity.
Qed.

Lemma update_selected (n p : nat) (A : R) (S : list (list score)) :
  shaped (length peaks) S -> entry S n p = Some (Fin A) ->
  entry (Greedy.update d peaks n p A S) n p = Some NegInf.
Proof.
  intros Hsh He.
  pose proof (entry_shaped _ _ _ _ _ Hsh He) as Hp.
  rewrite entry_update by assumption. rewrite He. simpl. f_equal.
  unfold updated. rewrite Z.sub_diag.
  destruct (Z.ltb_spec (- Z.of_nat (Greedy.num_samples d)) 0); [|lia].
  destruct (Z.ltb_spec 0 (Z.of_nat (Greedy.num_samples d))); [|lia].
  simpl. rewrite Nat.eqb_refl. reflexivity.
Qed.

(** Each turn turns at least one finite entry into [-inf] and none
    back. *)
Lemma update_finite_count (n p : nat) (A : R) (S : list (list score)) :
  shaped (length peaks) S -> entry S n p = Some (Fin A) ->
  (finite_count (Greedy.update d peaks n p A S) < finite_count S)%nat.
Proof.
  intros Hsh He.
  pose proof (entry_shaped _ _ _ _ _ Hsh He) as Hp.
  pose proof (neighbors_self p Hp) as Hin.
  unfold Greedy.update.
  destruct (Greedy.neighbors d peaks p) as [lo hi]. cbn [fst snd] in Hin.
  set (f1 := fun (m q : nat) (s : score) =>
               score_add s
                 (- A * mget (nth n (Greedy.overlaps d) []) m
                          (Z.to_nat (nth q (Greedy.peak_data peaks p) 0%Z
                                     + Greedy.neighbor_window d)))).
  set (S1 := update_cols lo hi f1 S).
  assert (H1 : (finite_count S1 <= finite_count S)%nat).
  { unfold S1, update_cols.
    apply (finite_count_imap_le
             (fun m q s => if (lo <=? q)%nat && (q <? hi)%nat
                           then f1 m q s else s)).
    intros m q. destruct ((lo <=? q)%nat && (q <? hi)%nat); reflexivity. }
  assert (He1 : entry S1 n p = Some (Fin (A + - A
                  * mget (nth n (Greedy.overlaps d) []) n
                      (Z.to_nat (nth p (Greedy.peak_data peaks p) 0%Z
                                 + Greedy.neighbor_window d))))).
  { unfold S1. rewrite entry_update_cols, He, Hin. reflexivity. }
  eapply Nat.lt_le_trans; [|exact H1].
  unfold update_cols at 1.
  eapply (finite_count_imap_lt
            (fun m q s => if (lo <=? q)%nat && (q <? hi)%nat
                          then (if (m =? n)%nat then NegInf else s) else s)).
  - intros m q. destruct ((lo <=? q)%nat && (q <? hi)%nat); [|reflexivity].
    destruct (m =? n)%nat; reflexivity.
  - exact He1.
  - simpl. rewrite Hin, Nat.eqb_refl. reflexivity.
Qed.

Variable chans : list Z.
Variable size : nat.

(** A turn never overflows the spike array, keeps the invariant, and
    lowers the number of finite entries. *)
Lemma greedy_step_progress (st : Greedy.state) :
  greedy_inv (length peaks) size st ->
  match Greedy.step d peaks chans size st with
  | Greedy.Finished => True
  | Greedy.Failed _ => False
  | Greedy.Next st' =>
      greedy_inv (length peaks) size st' /\
      length (Greedy.spikes st') = S (length (Greedy.spikes st)) /\
      (finite_count (Greedy.scalar_products st')
       < finite_count (Greedy.scalar_products st))%nat
  end.
Proof.
  intros [Hsh Hsize]. unfold Greedy.step.
  destruct (select_best _ _) as [[[n p] A]|] eqn:Hsel; [|exact I].
  apply select_best_Some in Hsel. destruct Hsel as [He _].
  pose proof (update_finite_count n p A _ Hsh He) as Hlt.
  destruct (Nat.leb_spec size (length (Greedy.spikes st))); [lia|].
  cbn [Greedy.scalar_products Greedy.spikes].
  rewrite length_app. simpl. repeat split.
  - apply update_shaped, Hsh.
  - simpl. rewrite length_app. simpl. lia.
  - lia.
  - exact Hlt.
Qed.

(** From any state satisfying the invariant the loop makes at most as
    many turns as there are finite entries, then exits normally. *)
Lemma greedy_loop_exits (fuel : nat) (st : Greedy.state) :
  greedy_inv (length peaks) size st ->
  (finite_count (Greedy.scalar_products st) < fuel)%nat ->
  exists k st',
    (k <= finite_count (Greedy.scalar_products st))%nat /\
    Greedy.iterate k d peaks chans size st = Some st' /\
    Greedy.step d peaks chans size st' = Greedy.Finished /\
    Greedy.loop fuel d peaks chans size st = Ok st' /\
    length (Greedy.spikes st') = (length (Greedy.spikes st) + k)%nat.
Proof.
  revert st; induction fuel as [|fuel' IH]; intros st Hinv Hfuel; [lia|].
  pose proof (greedy_step_progress st Hinv) as Hstep.
  simpl. destruct (Greedy.step d peaks chans size st) as [|st1|e] eqn:Hst.
  - exists 0%nat, st. repeat split; try assumption; simpl; lia.
  - destruct Hstep as (Hinv1 & Hlen1 & Hlt1).
    destruct (IH st1 Hinv1 ltac:(lia))
      as (k & st' & Hk & Hit & Hfin & Hl & Hlen).
    exists (S k), st'. repeat split; try assumption.
    + lia.
    + simpl. rewrite Hst. exact Hit.
    + lia.
  - contradiction.
Qed.

End GreedyProgress.

Lemma snippets_length (d : Greedy.params) (traces : matrix) (peaks : list Z)
    (sn : list (list R)) :
  Greedy.snippets d traces peaks = Ok sn -> length sn = length peaks.
Proof.
  unfold Greedy.snippets, Greedy.snippets_sym, Greedy.snippets_window.
  destruct (Greedy.sym_patch d).
  - destruct (_ <? _)%nat; [discriminate|].
    destruct (mapM _ peaks) as [sn'|] eqn:Hm; [|discriminate].
    intros H; injection H as <-. symmetry. eapply length_mapM, Hm.
  - destruct (mapM _ (Greedy.shift d peaks)) as [sn'|] eqn:Hm; [|discriminate].
    intros H; injection H as <-. apply length_mapM in Hm.
    unfold Greedy.shift in Hm. rewrite length_map in Hm. symmetry; exact Hm.
Qed.

Lemma scores_shaped (d : Greedy.params) (sn : list (list R)) :
  shaped (length sn) (Greedy.scores d sn).
Proof.
  unfold shaped, Greedy.scores. destruct sn as [|s0 sn].
  - apply List.Forall_forall. intros row Hrow.
    apply repeat_spec in Hrow. subst row. reflexivity.
  - apply List.Forall_forall. intros row Hrow. apply in_map_iff in Hrow.
    destruct Hrow as (tmpl & <- & _). rewrite length_map. reflexivity.
Qed.

(** ** C10: termination of the Greedy loop *)

(** C10.  With templates of at least one sample, the Greedy selection
    loop terminates: each turn sets the selected entry [S[n, p]] to
    [-inf], an entry equal to [-inf] stays so, and from the initial
    score tensor ([N] rows, [P] peaks) the loop makes [k <= N * P]
    full turns, then finds no valid entry and exits normally, so that
    [main_function] returns at most [N * P] detections. *)
Theorem greedy_loop_terminates (detect_peaks : matrix -> list Z * list Z)
    (d : Greedy.params) (traces : matrix) (sn : list (list R)) (fuel : nat) :
  let pt := Greedy.peak_traces d traces in
  let found := Greedy.expand_peaks d (length pt)
                 (detect_peaks pt).1 (detect_peaks pt).2 in
  let peaks := Greedy.shift d found.1 in
  let sps := Greedy.scores d sn in
  let size := (length sps * length peaks)%nat in
  (0 < Greedy.num_samples d)%nat ->
  Greedy.snippets d traces found.1 = Ok sn ->
  (size < fuel)%nat ->
  (exists k st,
     (k <= size)%nat /\
     Greedy.iterate k d peaks found.2 size
       {| Greedy.scalar_products := sps; Greedy.spikes := [] |} = Some st /\
     Greedy.step d peaks found.2 size st = Greedy.Finished /\
     Greedy.loop fuel d peaks found.2 size
       {| Greedy.scalar_products := sps; Greedy.spikes := [] |} = Ok st /\
     length (Greedy.spikes st) = k) /\
  (forall S n p A,
     shaped (length peaks) S ->
     select_best (Greedy.is_valid d) S = Some (n, p, A) ->
     entry (Greedy.update d peaks n p A S) n p = Some NegInf /\
     (forall m q, entry S m q = Some NegInf ->
                  entry (Greedy.update d peaks n p A S) m q = Some NegInf)) /\
  (exists spikes,
     Greedy.main_function detect_peaks fuel traces d = Ok spikes /\
     (length spikes <= size)%nat).
Proof.
  intros pt found peaks sps size HL Hsn Hfuel.
  assert (Hs : StronglySorted Z.lt peaks) by apply expand_peaks_sorted.
  assert (Hlen : length sn = length peaks).
  { rewrite (snippets_length _ _ _ _ Hsn). unfold peaks, Greedy.shift.
    rewrite length_map. reflexivity. }
  assert (Hsh : shaped (length peaks) sps).
  { rewrite <- Hlen. apply scores_shaped. }
  assert (Hinv : greedy_inv (length peaks) size
                   {| Greedy.scalar_products := sps; Greedy.spikes := [] |}).
  { split; [exact Hsh|]. simpl. apply finite_count_le, Hsh. }
  pose proof (finite_count_le _ _ Hsh) as Hcount. fold size in Hcount.
  destruct (greedy_loop_exits d peaks Hs HL found.2 size fuel _ Hinv)
    as (k & st & Hk & Hit & Hfin & Hloop & Hlen'); [simpl; lia|].
  simpl in Hk, Hlen'.
  split; [|split].
  - exists k, st. repeat split; try assumption. lia.
  - intros S0 n p A HS Hsel. apply select_best_Some in Hsel.
    destruct Hsel as [He _]. split.
    + apply update_selected; assumption.
    + intros m q. apply update_keeps_neg_inf.
  - exists (Greedy.emit d (Greedy.spikes st)). split.
    + unfold Greedy.main_function. fold pt.
      unfold found in Hsn, Hloop. unfold peaks, found in Hloop.
      unfold size, peaks, found, sps in Hloop.
      destruct (detect_peaks pt) as [peaks0 chans0]. cbn [fst snd] in *.
      destruct (Greedy.expand_peaks d (length pt) peaks0 chans0)
        as [pk ch]. cbn [fst snd] in *.
      rewrite Hsn.
      replace (length (Greedy.shift d pk)) with (length pk) in Hloop
        by (unfold Greedy.shift; rewrite length_map; reflexivity).
      rewrite Hloop. reflexivity.
    + unfold Greedy.emit.
      rewrite (Permutation_length (argsort_spikes_perm _)), length_map. lia.
Qed.

Lemma greedy_loop_terminates_witness :
  let d := {| Greedy.templates := [[1]]; Greedy.num_templates := 1;
              Greedy.overlaps := [[[1]]]; Greedy.margin := 0;
              Greedy.norms := [1]; Greedy.jitter := 0;
              Greedy.patch_sizes := (1%nat, 1%nat);
              Greedy.nbefore := 0; Greedy.nafter := 1;
              Greedy.amplitudes := [(1 / 2, 3 / 2)];
              Greedy.sym_patch := false |} in
  exists spikes,
    Greedy.main_function (fun _ => ([0%Z], [0%Z])) 2 [[1]] d = Ok spikes /\
    (length spikes <= 1)%nat.
Proof.
  intros d.
  apply (greedy_loop_terminates (fun _ => ([0%Z], [0%Z])) d [[1]] [[1]] 2).
  - unfold d, Greedy.num_samples. simpl. lia.
  - reflexivity.
  - unfold d. simpl. lia.
Defined.

(** ** C7: the output is sorted *)

Lemma greedy_step_next_spikes (d : Greedy.params) (peaks chans : list Z)
    (size : nat) (st st' : Greedy.state) :
  Greedy.step d peaks chans size st = Greedy.Next st' ->
  (length (Greedy.spikes st) < size)%nat /\
  length (Greedy.spikes st') = S (length (Greedy.spikes st)).
Proof.
  unfold Greedy.step.
  destruct (select_best _ _) as [[[n p] x]|]; [|discriminate].
  destruct (Nat.leb_spec size (length (Greedy.spikes st))); [discriminate|].
  intros Heq; injection Heq as <-. split; [assumption|].
  simpl. rewrite length_app. simpl. lia.
Qed.

(** The Greedy loop needs at most [size + 1] turns whatever the input:
    the spike array has room for [size] records, one per full turn. *)
Lemma greedy_loop_fuel (d : Greedy.params) (peaks chans : list Z)
    (size fuel : nat) (st : Greedy.state) :
  (size - length (Greedy.spikes st) < fuel)%nat ->
  Greedy.loop fuel d peaks chans size st <> OutOfFuel.
Proof.
  revert st; induction fuel as [|fuel IH]; intros st Hfuel; [lia|].
  simpl. destruct (Greedy.step d peaks chans size st) as [|st'|e] eqn:Hstep;
    try discriminate.
  apply greedy_step_next_spikes in Hstep. destruct Hstep as [Hlt Hs].
  apply IH. lia.
Qed.

(** C7.  For both engines and every input trace, whatever
    [main_function] returns is ordered by non-decreasing [sample_index];
    and each engine does come back (with that array or an exception)
    within a bounded number of turns of its loop. *)
Theorem output_sorted :
  (forall fuel traces d spikes,
     OMP.main_function fuel traces d = Ok spikes ->
     StronglySorted spike_le spikes) /\
  (forall traces d fuel,
     (OMP.num_templates d * (length traces - OMP.num_samples d + 1) < fuel)%nat ->
     OMP.main_function fuel traces d <> OutOfFuel) /\
  (forall detect_peaks fuel traces d spikes,
     Greedy.main_function detect_peaks fuel traces d = Ok spikes ->
     StronglySorted spike_le spikes) /\
  (forall detect_peaks traces d,
     exists bound, forall fuel,
       (bound < fuel)%nat ->
       Greedy.main_function detect_peaks fuel traces d <> OutOfFuel).
Proof.
  split; [|split; [|split]].
  - intros fuel traces d spikes H. unfold OMP.main_function in H.
    destruct (OMP.initial_scores d traces) as [sps|e|]; try discriminate.
    destruct (OMP.loop _ _ _ _ _) as [st|e|]; try discriminate.
    injection H as <-. apply argsort_spikes_sorted.
  - intros traces d fuel Hfuel. unfold OMP.main_function.
    destruct (OMP.initial_scores d traces) as [sps|e|] eqn:Hs; try discriminate.
    + destruct (OMP.loop _ _ _ _ _) as [st|e|] eqn:Hl; try discriminate.
      exfalso. revert Hl. apply omp_loop_fuel.
      unfold OMP.num_selection. simpl. rewrite Nat.sub_0_r.
      eapply Nat.le_lt_trans; [|exact Hfuel].
      apply Nat.mul_le_mono_l. lia.
    + exfalso. revert Hs. apply initial_scores_no_fuel.
  - intros detect_peaks fuel traces d spikes H.
    unfold Greedy.main_function in H.
    destruct (detect_peaks _) as [peaks0 chans0].
    destruct (Greedy.expand_peaks _ _ _ _) as [pk ch].
    destruct (Greedy.snippets d traces pk) as [sn|e|]; try discriminate.
    destruct (Greedy.loop _ _ _ _ _ _) as [st|e|]; try discriminate.
    injection H as <-. apply argsort_spikes_sorted.
  - intros detect_peaks traces d. unfold Greedy.main_function.
    destruct (detect_peaks _) as [peaks0 chans0].
    destruct (Greedy.expand_peaks _ _ _ _) as [pk ch].
    destruct (Greedy.snippets d traces pk) as [sn|e|] eqn:Hs.
    + exists (length (Greedy.scores d sn) * length pk)%nat. intros fuel Hfuel.
      destruct (Greedy.loop _ _ _ _ _ _) as [st|e|] eqn:Hl; try discriminate.
      exfalso. revert Hl. apply greedy_loop_fuel. simpl.
      rewrite Nat.sub_0_r. exact Hfuel.
    + exists 0%nat. intros; discriminate.
    + exfalso. unfold Greedy.snippets, Greedy.snippets_sym,
        Greedy.snippets_window in Hs.
      destruct (Greedy.sym_patch d).
      * destruct (_ <? _)%nat; [discriminate|].
        destruct (mapM _ pk); discriminate.
      * destruct (mapM _ (Greedy.shift d pk)); discriminate.
Qed.

(** ** C8: a trace of zeros *)

Lemma mapM_in {A B : Type} (f : A -> option B) (l : list A) (k : list B) (y : B) :
  mapM f l = Some k -> In y k -> exists x, In x l /\ f x = Some y.
Proof.
  intros H. apply mapM_Some in H. induction H as [|x y' l k Hxy _ IH];
    intros Hin; [contradiction|].
  destruct Hin as [->|Hin].
  - exists x. split; [left; reflexivity|exact Hxy].
  - destruct (IH Hin) as (x' & Hx' & Hf). exists x'. split; [right|]; assumption.
Qed.

Lemma Forall_concat_zero (rows : matrix) :
  Forall (Forall (eq 0)) rows -> Forall (eq 0) (concat rows).
Proof.
  induction 1 as [|r rows Hr _ IH]; simpl; [constructor|].
  apply Forall_app. split; assumption.
Qed.

Lemma snippets_zero (d : Greedy.params) (traces : matrix) (peaks : list Z)
    (sn : list (list R)) :
  zero_trace traces -> Greedy.snippets d traces peaks = Ok sn ->
  Forall (Forall (eq 0)) sn.
Proof.
  intros Hz. unfold Greedy.snippets, Greedy.snippets_sym, Greedy.snippets_window.
  destruct (Greedy.sym_patch d).
  - destruct (_ <? _)%nat; [discriminate|].
    destruct (mapM _ peaks) as [sn'|] eqn:Hm; [|discriminate].
    intros H; injection H as <-.
    apply List.Forall_forall. intros snip Hsnip.
    destruct (mapM_in _ _ _ _ Hm Hsnip) as (t & _ & Ht).
    destruct (Greedy.np_index _ t) as [k|]; simpl in Ht; [|discriminate].
    injection Ht as <-.
    apply Forall_concat_zero, Forall_take, Forall_drop, Hz.
  - destruct (mapM _ (Greedy.shift d peaks)) as [sn'|] eqn:Hm; [|discriminate].
    intros H; injection H as <-.
    apply List.Forall_forall. intros snip Hsnip.
    destruct (mapM_in _ _ _ _ Hm Hsnip) as (t & _ & Ht).
    destruct (mapM _ (Greedy.arange _ _)) as [rows|] eqn:Hrows;
      simpl in Ht; [|discriminate].
    injection Ht as <-.
    apply Forall_concat_zero, List.Forall_forall. intros row Hrow.
    destruct (mapM_in _ _ _ _ Hrows Hrow) as (w & _ & Hw).
    destruct (Greedy.np_index _ _) as [k|]; simpl in Hw; [|discriminate].
    injection Hw as <-. unfold mrow.
    destruct (nth_in_or_default k traces []) as [Hin | ->]; [|constructor].
    unfold zero_trace in Hz. rewrite List.Forall_forall in Hz. apply Hz, Hin.
Qed.

Lemma lookup_map {A B : Type} (f : A -> B) (l : list A) (i : nat) :
  map f l !! i = f <$> (l !! i).
Proof. apply list_lookup_fmap. Qed.

Lemma scores_zero (d : Greedy.params) (sn : list (list R)) (n p : nat) (x : R) :
  Forall (Forall (eq 0)) sn ->
  entry (Greedy.scores d sn) n p = Some (Fin x) -> x = 0.
Proof.
  intros Hz. unfold Greedy.scores, entry. destruct sn as [|s0 sn].
  - destruct (repeat [] (Greedy.num_templates d) !! n) as [row|] eqn:Hrow;
      [|discriminate].
    apply list_elem_of_lookup_2, list_elem_of_In, repeat_spec in Hrow.
    subst row. discriminate.
  - remember (s0 :: sn) as l eqn:El. clear El.
    rewrite lookup_map.
    destruct (Greedy.templates d !! n) as [tmpl|]; [|discriminate]. simpl.
    rewrite lookup_map.
    destruct (l !! p) as [snip|] eqn:Hsnip; [|discriminate]. simpl.
    intros H; injection H as <-.
    apply dot_zero_r. rewrite List.Forall_forall in Hz.
    apply Hz, list_elem_of_In. eapply list_elem_of_lookup_2, Hsnip.
Qed.

Lemma entry_repeat_nil {A : Type} (N n p : nat) :
  entry (repeat (@nil A) N) n p = None.
Proof.
  unfold entry. destruct (repeat [] N !! n) as [row|] eqn:Hrow; [|reflexivity].
  apply list_elem_of_lookup_2, list_elem_of_In, repeat_spec in Hrow.
  subst row. reflexivity.
Qed.

(** C8 (as amended).  On a trace of all zeros the OMP engine (thresholds
    as set at initialisation, trace at least as long as a template,
    ignored ids in range) returns no detection whenever its band does
    not strictly contain zero, i.e. unless [a_min < 0 < a_max]; the
    Greedy engine, run with a detector that reports no peak on a trace
    of zeros, returns no detection whatever the bands (the chunk being
    at least as tall as a snippet patch when [sym_patch] cuts
    patches). *)
Theorem zero_trace_no_detection :
  (forall d traces fuel p norms noise L,
     zero_trace traces ->
     OMP.stop_criteria d = init_stop_criteria p norms noise L ->
     0 <= p ->
     (OMP.num_samples d <= length traces)%nat ->
     Forall (fun i => (i < OMP.num_templates d)%nat) (OMP.ignored_ids d) ->
     ~ ((OMP.amplitudes d).1 < 0 < (OMP.amplitudes d).2) ->
     OMP.main_function (S fuel) traces d = Ok []) /\
  (forall detect_peaks d traces fuel,
     zero_trace traces ->
     (forall pt, zero_trace pt -> detect_peaks pt = ([], [])) ->
     (Greedy.sym_patch d = true ->
      ((Greedy.patch_sizes d).1 <= length traces)%nat) ->
     Greedy.main_function detect_peaks (S fuel) traces d = Ok []).
Proof.
  split.
  - intros d traces fuel p norms noise L Hz Htau Hp HT Hids Hband.
    rewrite (omp_zero_trace d traces fuel p norms noise L) by assumption.
    unfold OMP.emit. rewrite retained_zero by exact Hband. reflexivity.
  - intros detect_peaks d traces fuel Hz Hdet Hpatch.
    unfold Greedy.main_function.
    rewrite Hdet by (apply Forall_take, Forall_drop, Hz).
    assert (Hexp : forall len, Greedy.expand_peaks d len [] [] = ([], [])).
    { intros len. unfold Greedy.expand_peaks.
      destruct (0 <? Greedy.jitter d)%Z; reflexivity. }
    rewrite Hexp.
    assert (Hsn : Greedy.snippets d traces [] = Ok []).
    { unfold Greedy.snippets, Greedy.snippets_sym, Greedy.snippets_window.
      destruct (Greedy.sym_patch d) eqn:Hsym; [|reflexivity].
      destruct (Nat.ltb_spec (length traces) (Greedy.patch_sizes d).1)
        as [Hlt|_]; [|reflexivity].
      specialize (Hpatch eq_refl). lia. }
    rewrite Hsn. cbn [Greedy.loop]. unfold Greedy.step.
    rewrite select_best_None; [reflexivity|].
    intros n q x Hx. cbn [Greedy.scalar_products Greedy.scores] in Hx.
    rewrite entry_repeat_nil in Hx. discriminate.
Qed.

(** C8 (as stated) fails: with the band [(-1, 1)] the all-zero amplitude
    grid passes the output filter, so a single-template engine returns
    one detection (of amplitude [0]) for the one-sample trace of zeros. *)
Lemma zero_trace_counterexample :
  let d := {| OMP.num_templates := 1; OMP.overlaps := [[[0]]];
              OMP.norms := [1]; OMP.nbefore := 0; OMP.nafter := 1;
              OMP.amplitudes := (Ropp 1, 1); OMP.ignored_ids := [];
              OMP.stop_criteria := init_stop_criteria (1 / 10) [1] [1] 1;
              OMP.vicinity := 0;
              OMP.spatial := [[[1]]]; OMP.singular := [[1]];
              OMP.temporal := [[[1]]] |} in
  zero_trace [[0]] /\
  OMP.main_function 1 [[0]] d
  = Ok [ {| sample_index := 0; channel_index := 0; cluster_index := 0;
            amplitude := 0 |} ].
Proof.
  intros d. split; [repeat constructor|].
  rewrite (omp_zero_trace d [[0]] 0 (1 / 10) [1] [1] 1).
  - unfold OMP.emit, OMP.retained. simpl. solve_Rltb. reflexivity.
  - repeat constructor.
  - reflexivity.
  - lra.
  - unfold d, OMP.num_samples. simpl. lia.
  - constructor.
Qed.

(** ** The stopping tolerance and a first worked run *)

Lemma omp_tol_bounds : 0 < omp_tol < 1 / 2.
Proof.
  unfold omp_tol. split.
  - apply Rinv_0_lt_compat. apply pow_lt. lra.
  - assert (H : 2 < 2 ^ 23) by (simpl; lra).
    assert (H2 : / 2 ^ 23 < / 2) by (apply Rinv_lt_contravar; lra).
    lra.
Qed.

Lemma dependent_example_scores :
  OMP.initial_scores dependent_example [[1]; [0]] = Ok [[Fin 1]].
Proof.
  unfold OMP.initial_scores. simpl.
  unfold OMP.ignore, OMP.convolve, OMP.conv_valid, OMP.scaled_filtered. simpl.
  unfold vget, mget, mrow, vget. simpl. do 4 f_equal. ring.
Qed.

Lemma dependent_example_step :
  OMP.step dependent_example [[Fin 1]] 1 (OMP.init_state 1 1 [[Fin 1]])
  = OMP.Next dependent_example_state.
Proof.
  unfold OMP.step, select_best, entries. simpl.
  unfold OMP.is_valid, vget. simpl. solve_Rltb. simpl.
  unfold OMP.cholesky_row, OMP.candidate. simpl.
  unfold potrs, solve_lower. simpl. unfold vget, mget, mrow, vget. simpl.
  replace (((1 - 0) / 1 - 0) / 1 / 1 - 0) with 1 by field.
  replace (((1 - 0) / 1 - 0) / 1 / 1) with 1 by field.
  rewrite Rabs_R1.
  rewrite (proj2 (Rltb_true omp_tol 1)) by (pose proof omp_tol_bounds; lra).
  simpl. unfold OMP.subtract, update_cols. simpl.
  unfold vget, mget, mrow, vget. simpl.
  unfold dependent_example_state. do 5 f_equal. ring.
Qed.

Lemma dependent_example_select :
  select_best (OMP.is_valid dependent_example)
    (OMP.scalar_products dependent_example_state)
  = Some (0%nat, 0%nat, 0).
Proof.
  unfold select_best, entries. simpl.
  unfold OMP.is_valid, vget. simpl. solve_Rltb. reflexivity.
Qed.

Lemma dependent_example_Lkk :
  1 - nrm2 [(1 - 0) / 1] ^ 2 <= omp_tol.
Proof.
  unfold nrm2. simpl.
  replace ((1 - 0) / 1 * ((1 - 0) / 1) + 0) with 1 by field.
  rewrite sqrt_1. pose proof omp_tol_bounds. lra.
Qed.

(** ** The worked run and the statements above *)

Lemma dependent_example_run :
  OMP.main_function 2 [[1]; [0]] dependent_example
  = Ok [ {| sample_index := 1; channel_index := 0; cluster_index := 0;
            amplitude := 1 |} ].
Proof.
  unfold OMP.main_function. rewrite dependent_example_scores.
  rewrite (omp_loop_iterate dependent_example [[Fin 1]] 1 1 2 _
             dependent_example_state).
  - unfold OMP.emit, OMP.retained. simpl. solve_Rltb. reflexivity.
  - simpl. rewrite dependent_example_step. reflexivity.
  - left. eapply omp_step_dependent.
    + exact dependent_example_select.
    + reflexivity.
    + exact dependent_example_Lkk.
  - lia.
Qed.

Lemma omp_output_filter_witness :
  In {| sample_index := 1; channel_index := 0; cluster_index := 0;
        amplitude := 1 |}
     (OMP.emit dependent_example [[1]]).
Proof.
  apply (proj1 (proj2 (omp_output_filter dependent_example))).
  exists 0%nat, 0%nat, 1. split; [reflexivity|]. split; [simpl; lra|reflexivity].
Defined.

Lemma positive_samples_zero (pt : matrix) :
  zero_trace pt -> positive_samples pt = ([], []).
Proof.
  intros Hz. unfold positive_samples.
  assert (Hnone : forall (f : nat -> vector -> nat * vector),
            (forall i row, (f i row).2 = row) ->
            omap (fun e : nat * vector =>
                    if Rltb 0 (vget e.2 0) then Some (Z.of_nat e.1) else None)
                 (imap f pt) = []).
  { induction Hz as [|row pt Hrow _ IH]; intros f Hf; [reflexivity|].
    cbn. rewrite Hf.
    rewrite (proj2 (Rltb_false 0 (vget row 0)))
      by (rewrite (vget_zero row 0 Hrow); lra).
    apply IH. intros i r. apply Hf. }
  rewrite (Hnone pair) by reflexivity. reflexivity.
Qed.

Lemma zero_trace_no_detection_witness :
  OMP.main_function 1 [[0]; [0]]
    {| OMP.num_templates := 1; OMP.overlaps := [[[0; 0; 1]]];
       OMP.norms := [1]; OMP.nbefore := 1; OMP.nafter := 1;
       OMP.amplitudes := (6 / 10, 2); OMP.ignored_ids := [];
       OMP.stop_criteria := init_stop_criteria (1 / 10) [1] [1] 2;
       OMP.vicinity := 0;
       OMP.spatial := [[[1]]]; OMP.singular := [[1]];
       OMP.temporal := [[[0; 1]]] |}
  = Ok [] /\
  Greedy.main_function positive_samples 1 [[0]; [0]; [0]; [0]; [0]]
    greedy_example
  = Ok [].
Proof.
  split.
  - apply (proj1 zero_trace_no_detection _ _ 0%nat (1 / 10) [1] [1] 2%nat).
    + repeat constructor.
    + reflexivity.
    + lra.
    + unfold OMP.num_samples. simpl. lia.
    + constructor.
    + simpl. lra.
  - apply (proj2 zero_trace_no_detection positive_samples greedy_example
             [[0]; [0]; [0]; [0]; [0]] 0%nat).
    + repeat constructor.
    + exact positive_samples_zero.
    + intros _. simpl. lia.
Defined.

(** * Further properties *)

(** ** [get_margin] and the trimmed trace *)

(** X1.  With the margin [get_margin] computes, [margin // 2] is
    [max(nbefore, nafter)], the margin covers a whole template, and (for
    a trace at least as long as the margin, templates not empty) the
    peak detector sees the trace with [max(nbefore, nafter)] rows cut
    on each side, [T - margin] rows in all. *)
Theorem get_margin_trims (d : Greedy.params) (traces : matrix) :
  Greedy.margin d = get_margin (Greedy.nbefore d) (Greedy.nafter d) ->
  (0 < Greedy.num_samples d)%nat ->
  (Greedy.margin d <= length traces)%nat ->
  let m := Nat.max (Greedy.nbefore d) (Greedy.nafter d) in
  (Greedy.margin d / 2 = m)%nat /\
  (Greedy.num_samples d <= Greedy.margin d)%nat /\
  Greedy.peak_traces d traces = take (length traces - 2 * m) (drop m traces) /\
  length (Greedy.peak_traces d traces) = (length traces - Greedy.margin d)%nat.
Proof.
  intros Hm HL HT m. unfold get_margin in Hm. fold m in Hm.
  unfold Greedy.num_samples in *.
  assert (H2 : (Greedy.margin d / 2 = m)%nat).
  { rewrite Hm. rewrite Nat.mul_comm. apply Nat.div_mul. lia. }
  assert (H3 : ((Greedy.margin d + 1) / 2 = m)%nat).
  { rewrite Hm. replace (2 * m + 1)%nat with (1 + m * 2)%nat by lia.
    rewrite Nat.div_add by lia. reflexivity. }
  assert (Hpt : Greedy.peak_traces d traces
                = take (length traces - 2 * m) (drop m traces)).
  { unfold Greedy.peak_traces. rewrite H2, H3.
    destruct (Nat.eqb_spec (Greedy.margin d) 0) as [H0|_]; [lia|].
    f_equal. lia. }
  split; [exact H2|]. split; [lia|]. split; [exact Hpt|].
  rewrite Hpt, length_take, length_drop. lia.
Qed.

Lemma get_margin_trims_witness :
  let d := {| Greedy.templates := [[1; 0]]; Greedy.num_templates := 1;
              Greedy.overlaps := [[[0; 0; 1]]]; Greedy.margin := 2;
              Greedy.norms := [1]; Greedy.jitter := 0;
              Greedy.patch_sizes := (2%nat, 1%nat);
              Greedy.nbefore := 1; Greedy.nafter := 1;
              Greedy.amplitudes := [(1 / 2, 3 / 2)];
              Greedy.sym_patch := true |} in
  length (Greedy.peak_traces d [[1]; [2]; [3]; [4]; [5]]) = 3%nat.
Proof.
  intros d.
  apply (get_margin_trims d [[1]; [2]; [3]; [4]; [5]]).
  - reflexivity.
  - unfold d, Greedy.num_samples. simpl. lia.
  - unfold d. simpl. lia.
Defined.

(** ** [serialize_method_kwargs] *)

(** X2.  Serialising keyword arguments that hold a waveform extractor
    returns the same dictionary without that key (every other key is
    untouched, and putting the extractor back restores the original);
    what comes out can be unserialised but not serialised again, since
    the second [pop] raises [KeyError]. *)
Theorem serialize_removes_extractor {V : Type} (kwargs : gmap string V) (v : V) :
  kwargs !! "waveform_extractor" = Some v ->
  exists out,
    serialize_method_kwargs kwargs = Popped out /\
    out !! "waveform_extractor" = None /\
    (forall k, k <> "waveform_extractor" -> out !! k = kwargs !! k) /\
    <["waveform_extractor" := v]> (unserialize_in_worker out) = kwargs /\
    serialize_method_kwargs (unserialize_in_worker out) = KeyError.
Proof.
  intros Hv. exists (delete "waveform_extractor" kwargs).
  unfold serialize_method_kwargs, unserialize_in_worker. rewrite Hv.
  split; [reflexivity|]. split; [apply lookup_delete_eq|]. split.
  - intros k Hk. apply lookup_delete_ne. congruence.
  - split.
    + rewrite insert_delete_eq. apply insert_id. exact Hv.
    + rewrite lookup_delete_eq. reflexivity.
Qed.

Lemma serialize_removes_extractor_witness :
  exists out,
    serialize_method_kwargs
      (<["waveform_extractor" := 7%nat]> (<["rank" := 5%nat]> ∅)) = Popped out /\
    out !! "rank" = Some 5%nat.
Proof.
  destruct (serialize_removes_extractor
              (<["waveform_extractor" := 7%nat]> (<["rank" := 5%nat]> ∅)) 7%nat)
    as (out & Hs & _ & Hk & _).
  - apply lookup_insert_eq.
  - exists out. split; [exact Hs|].
    rewrite Hk by discriminate.
    rewrite lookup_insert_ne by discriminate. apply lookup_insert_eq.
Defined.

(** ** The MCC criterion *)

Lemma inside_not_outside (bounds : R * R) (x : R) :
  Calibration.inside bounds x = negb (Calibration.outside bounds x).
Proof.
  unfold Calibration.inside, Calibration.outside, Rltb, Rleb.
  destruct (Rle_dec bounds.1 x), (Rle_dec x bounds.2),
    (Rlt_dec x bounds.1), (Rlt_dec bounds.2 x); simpl; try reflexivity; lra.
Qed.

(** Every sample is counted once: inside or outside. *)
Lemma count_partition (bounds : R * R) (l : list R) :
  (Calibration.count (Calibration.inside bounds) l
   + Calibration.count (Calibration.outside bounds) l = length l)%nat.
Proof.
  unfold Calibration.count. induction l as [|x l IH]; simpl; [reflexivity|].
  rewrite inside_not_outside.
  destruct (Calibration.outside bounds x); simpl; lia.
Qed.

Lemma count_all (f : R -> bool) (l : list R) :
  Forall (fun x => f x = true) l -> Calibration.count f l = length l.
Proof.
  unfold Calibration.count. induction 1 as [|x l Hx _ IH]; simpl;
    [reflexivity|].
  rewrite Hx. simpl. rewrite IH. reflexivity.
Qed.

Lemma count_none (f : R -> bool) (l : list R) :
  Forall (fun x => f x = false) l -> Calibration.count f l = 0%nat.
Proof.
  unfold Calibration.count. induction 1 as [|x l Hx _ IH]; simpl;
    [reflexivity|].
  rewrite Hx. exact IH.
Qed.

(** The confusion-matrix inequality behind [-1 <= mcc <= 1]. *)
Lemma confusion_square (a b c e : R) :
  0 <= a -> 0 <= b -> 0 <= c -> 0 <= e ->
  (a * e - b * c) * (a * e - b * c)
  <= (a + b) * (a + c) * (e + b) * (e + c).
Proof.
  intros Ha Hb Hc He.
  assert (Hae : 0 <= a * e) by (apply Rmult_le_pos; assumption).
  assert (Hbc : 0 <= b * c) by (apply Rmult_le_pos; assumption).
  assert (Hac : 0 <= a * c) by (apply Rmult_le_pos; assumption).
  assert (Hbe : 0 <= b * e) by (apply Rmult_le_pos; assumption).
  assert (Hab : 0 <= a * b) by (apply Rmult_le_pos; assumption).
  assert (Hce : 0 <= c * e) by (apply Rmult_le_pos; assumption).
  set (u := a * e + b * c).
  set (p := a * c + b * e).
  set (q := a * b + c * e).
  assert (Hu : 0 <= u) by (unfold u; lra).
  assert (Hp : 0 <= p) by (unfold p; lra).
  assert (Hq : 0 <= q) by (unfold q; lra).
  replace ((a + b) * (a + c) * (e + b) * (e + c)) with ((u + p) * (u + q))
    by (unfold u, p, q; ring).
  assert (H1 : (a * e - b * c) * (a * e - b * c) <= u * u).
  { unfold u. assert (0 <= (a * e) * (b * c)) by (apply Rmult_le_pos; assumption).
    nra. }
  assert (H2 : 0 <= u * p) by (apply Rmult_le_pos; assumption).
  assert (H3 : 0 <= u * q) by (apply Rmult_le_pos; assumption).
  assert (H4 : 0 <= p * q) by (apply Rmult_le_pos; assumption).
  nra.
Qed.

Lemma Rabs_le_sqrt (x y : R) : x * x <= y -> Rabs x <= sqrt y.
Proof.
  intros H. rewrite <- (sqrt_Rsqr_abs x). apply sqrt_le_1_alt.
  unfold Rsqr. exact H.
Qed.

(** [int64] results that fit are not changed by the wrap, and wrapping
    an operand first changes nothing. *)
Lemma wrap64_small (z : Z) :
  (- 2 ^ 63 <= z < 2 ^ 63)%Z -> Calibration.wrap64 z = z.
Proof.
  intros H. unfold Calibration.wrap64.
  rewrite Z.mod_small by lia. lia.
Qed.

Lemma wrap64_eqm (a b : Z) :
  (a mod 2 ^ 64 = b mod 2 ^ 64)%Z -> Calibration.wrap64 a = Calibration.wrap64 b.
Proof.
  intros H. unfold Calibration.wrap64. f_equal.
  rewrite (Z.add_mod a), (Z.add_mod b), H by lia. reflexivity.
Qed.

Lemma wrap64_mod (a : Z) :
  (Calibration.wrap64 a mod 2 ^ 64 = a mod 2 ^ 64)%Z.
Proof.
  unfold Calibration.wrap64.
  rewrite Zminus_mod_idemp_l. f_equal. lia.
Qed.

Lemma mul64_wrap (a b : Z) :
  Calibration.mul64 (Calibration.wrap64 a) (Calibration.wrap64 b)
  = Calibration.wrap64 (a * b).
Proof.
  unfold Calibration.mul64. apply wrap64_eqm.
  rewrite Z.mul_mod, !wrap64_mod, <- Z.mul_mod by lia. reflexivity.
Qed.

Lemma sub64_wrap (a b : Z) :
  Calibration.sub64 (Calibration.wrap64 a) (Calibration.wrap64 b)
  = Calibration.wrap64 (a - b).
Proof.
  unfold Calibration.sub64. apply wrap64_eqm.
  rewrite Zminus_mod, !wrap64_mod, <- Zminus_mod. reflexivity.
Qed.

(** The whole denominator and numerator, wrapped once. *)
Lemma mcc_error_wrapped (bounds : R * R) (good bad : list R) :
  let fn := Z.of_nat (Calibration.count (Calibration.outside bounds) good) in
  let fp := Z.of_nat (Calibration.count (Calibration.inside bounds) bad) in
  let tp := Z.of_nat (Calibration.count (Calibration.inside bounds) good) in
  let tn := Z.of_nat (Calibration.count (Calibration.outside bounds) bad) in
  Calibration._mcc_error bounds good bad
  = if (0 <? Calibration.wrap64 (margins_product bounds good bad))%Z
    then 1 - IZR (Calibration.wrap64 (tp * tn - fp * fn))
             / sqrt (IZR (Calibration.wrap64 (margins_product bounds good bad)))
    else 1.
Proof.
  intros fn fp tp tn. unfold Calibration._mcc_error, margins_product.
  fold fn fp tp tn. cbv zeta.
  unfold Calibration.add64. rewrite !mul64_wrap.
  unfold Calibration.mul64 at 1 2. rewrite sub64_wrap. reflexivity.
Qed.

Lemma margins_product_nonneg (bounds : R * R) (good bad : list R) :
  (0 <= margins_product bounds good bad)%Z.
Proof. unfold margins_product. cbv zeta. repeat apply Z.mul_nonneg_nonneg; lia. Qed.

(** When the product of the margins fits in an [int64], nothing wraps. *)
Lemma mcc_error_unwrapped (bounds : R * R) (good bad : list R) :
  (margins_product bounds good bad < 2 ^ 63)%Z ->
  Calibration._mcc_error bounds good bad = mcc_exact bounds good bad.
Proof.
  intros Hfit. rewrite mcc_error_wrapped. cbv zeta.
  pose proof (margins_product_nonneg bounds good bad) as Hnn.
  rewrite (wrap64_small (margins_product bounds good bad)) by lia.
  unfold mcc_exact. fold (margins_product bounds good bad). cbv zeta.
  destruct (Z.ltb_spec 0 (margins_product bounds good bad)) as [Hpos|_];
    [|reflexivity].
  rewrite wrap64_small; [reflexivity|].
  unfold margins_product in *. cbv zeta in *.
  set (fn := Z.of_nat (Calibration.count (Calibration.outside bounds) good)) in *.
  set (fp := Z.of_nat (Calibration.count (Calibration.inside bounds) bad)) in *.
  set (tp := Z.of_nat (Calibration.count (Calibration.inside bounds) good)) in *.
  set (tn := Z.of_nat (Calibration.count (Calibration.outside bounds) bad)) in *.
  assert (Hfn : (0 <= fn)%Z) by (unfold fn; lia).
  assert (Hfp : (0 <= fp)%Z) by (unfold fp; lia).
  assert (Htp : (0 <= tp)%Z) by (unfold tp; lia).
  assert (Htn : (0 <= tn)%Z) by (unfold tn; lia).
  assert (Hsq : ((tp * tn - fp * fn) * (tp * tn - fp * fn)
                 <= (tp + fp) * (tp + fn) * (tn + fp) * (tn + fn))%Z).
  { apply le_IZR. rewrite !mult_IZR, !minus_IZR, !plus_IZR, !mult_IZR.
    apply confusion_square; apply IZR_le; assumption. }
  nia.
Qed.

Lemma mcc_exact_range (bounds : R * R) (good bad : list R) :
  0 <= mcc_exact bounds good bad <= 2.
Proof.
  unfold mcc_exact.
  set (fn := Z.of_nat (Calibration.count (Calibration.outside bounds) good)).
  set (fp := Z.of_nat (Calibration.count (Calibration.inside bounds) bad)).
  set (tp := Z.of_nat (Calibration.count (Calibration.inside bounds) good)).
  set (tn := Z.of_nat (Calibration.count (Calibration.outside bounds) bad)).
  cbv zeta.
  destruct (Z.ltb_spec 0 ((tp + fp) * (tp + fn) * (tn + fp) * (tn + fn)))
    as [Hpos|_]; [|lra].
  assert (Hfn : 0 <= IZR fn) by (apply IZR_le; unfold fn; lia).
  assert (Hfp : 0 <= IZR fp) by (apply IZR_le; unfold fp; lia).
  assert (Htp : 0 <= IZR tp) by (apply IZR_le; unfold tp; lia).
  assert (Htn : 0 <= IZR tn) by (apply IZR_le; unfold tn; lia).
  assert (Hd : 0 < sqrt (IZR ((tp + fp) * (tp + fn) * (tn + fp) * (tn + fn)))).
  { apply sqrt_lt_R0. apply IZR_lt. exact Hpos. }
  assert (Habs : Rabs (IZR (tp * tn - fp * fn))
                 <= sqrt (IZR ((tp + fp) * (tp + fn) * (tn + fp) * (tn + fn)))).
  { apply Rabs_le_sqrt.
    rewrite minus_IZR, !mult_IZR, !plus_IZR.
    apply confusion_square; assumption. }
  set (s := sqrt (IZR ((tp + fp) * (tp + fn) * (tn + fp) * (tn + fn)))) in *.
  set (x := IZR (tp * tn - fp * fn)) in *.
  assert (Hx : - s <= x <= s).
  { unfold Rabs in Habs. destruct (Rcase_abs x); lra. }
  assert (Hq : -1 <= x / s <= 1).
  { split.
    - apply (Rmult_le_reg_r s); [exact Hd|].
      unfold Rdiv. rewrite Rmult_assoc, Rinv_l by lra. lra.
    - apply (Rmult_le_reg_r s); [exact Hd|].
      unfold Rdiv. rewrite Rmult_assoc, Rinv_l by lra. lra. }
  lra.
Qed.

Lemma mcc_exact_extremes (bounds : R * R) (good bad : list R) :
  good <> [] -> bad <> [] ->
  (Forall (fun x => Calibration.inside bounds x = true) good ->
   Forall (fun x => Calibration.outside bounds x = true) bad ->
   mcc_exact bounds good bad = 0) /\
  (Forall (fun x => Calibration.outside bounds x = true) good ->
   Forall (fun x => Calibration.inside bounds x = true) bad ->
   mcc_exact bounds good bad = 2).
Proof.
  intros Hg Hb.
  assert (Hlg : (0 < length good)%nat) by (destruct good; simpl; [congruence|lia]).
  assert (Hlb : (0 < length bad)%nat) by (destruct bad; simpl; [congruence|lia]).
  pose proof (count_partition bounds good) as Pg.
  pose proof (count_partition bounds bad) as Pb.
  split; intros Hgood Hbad; unfold mcc_exact.
  - rewrite (count_all _ _ Hgood) in *. rewrite (count_all _ _ Hbad) in *.
    assert (Calibration.count (Calibration.outside bounds) good = 0%nat) as -> by lia.
    assert (Calibration.count (Calibration.inside bounds) bad = 0%nat) as -> by lia.
    set (g := Z.of_nat (length good)). set (b := Z.of_nat (length bad)).
    assert (0 < g)%Z by (unfold g; lia). assert (0 < b)%Z by (unfold b; lia).
    cbv zeta. change (Z.of_nat 0) with 0%Z. rewrite !Z.add_0_r.
    destruct (Z.ltb_spec 0 (g * g * b * b)) as [_|Hn]; [|nia].
    replace (g * b - 0 * 0)%Z with (g * b)%Z by lia.
    replace (g * g * b * b)%Z with ((g * b) * (g * b))%Z by ring.
    rewrite (mult_IZR (g * b) (g * b)).
    rewrite sqrt_square by (apply IZR_le; nia).
    assert (Hnz : IZR (g * b) <> 0) by (apply not_0_IZR; nia).
    set (y := IZR (g * b)) in *. field. exact Hnz.
  - rewrite (count_all _ _ Hgood) in *. rewrite (count_all _ _ Hbad) in *.
    assert (Calibration.count (Calibration.inside bounds) good = 0%nat) as -> by lia.
    assert (Calibration.count (Calibration.outside bounds) bad = 0%nat) as -> by lia.
    set (g := Z.of_nat (length good)). set (b := Z.of_nat (length bad)).
    assert (0 < g)%Z by (unfold g; lia). assert (0 < b)%Z by (unfold b; lia).
    cbv zeta. change (Z.of_nat 0) with 0%Z. rewrite !Z.add_0_l.
    destruct (Z.ltb_spec 0 (b * g * b * g)) as [_|Hn]; [|nia].
    replace (0 * 0 - b * g)%Z with (- (b * g))%Z by lia.
    replace (b * g * b * g)%Z with ((b * g) * (b * g))%Z by ring.
    rewrite (mult_IZR (b * g) (b * g)), opp_IZR.
    rewrite sqrt_square by (apply IZR_le; nia).
    assert (Hnz : IZR (b * g) <> 0) by (apply not_0_IZR; nia).
    set (y := IZR (b * g)) in *. field. exact Hnz.
Qed.

(** An empty margin makes the product of the margins zero. *)
Lemma margins_product_degenerate (bounds : R * R) (good bad : list R) :
  good = [] \/ bad = [] \/
  Forall (fun x => Calibration.outside bounds x = true) (good ++ bad) \/
  Forall (fun x => Calibration.inside bounds x = true) (good ++ bad) ->
  margins_product bounds good bad = 0%Z.
Proof.
  intros H. unfold margins_product.
  pose proof (count_partition bounds good) as Pg.
  pose proof (count_partition bounds bad) as Pb.
  set (fn := Calibration.count (Calibration.outside bounds) good) in *.
  set (fp := Calibration.count (Calibration.inside bounds) bad) in *.
  set (tp := Calibration.count (Calibration.inside bounds) good) in *.
  set (tn := Calibration.count (Calibration.outside bounds) bad) in *.
  cbv zeta.
  assert (Hz : (Z.of_nat tp + Z.of_nat fn = 0 \/ Z.of_nat tn + Z.of_nat fp = 0 \/
                Z.of_nat tp + Z.of_nat fp = 0 \/ Z.of_nat tn + Z.of_nat fn = 0)%Z).
  { destruct H as [-> | [-> | [Hall | Hall]]].
    - left. unfold tp, fn. reflexivity.
    - right; left. unfold tn, fp. reflexivity.
    - right; right; left. apply Forall_app in Hall. destruct Hall as [Hg Hb].
      unfold fn, tn in *.
      rewrite (count_all _ _ Hg) in Pg. rewrite (count_all _ _ Hb) in Pb. lia.
    - right; right; right. apply Forall_app in Hall. destruct Hall as [Hg Hb].
      unfold tp, fp in *.
      rewrite (count_all _ _ Hg) in Pg. rewrite (count_all _ _ Hb) in Pb. lia. }
  destruct Hz as [Hz | [Hz | [Hz | Hz]]]; rewrite Hz; lia.
Qed.

(** X3.  As long as the product of the four margins of the confusion
    matrix fits in an [int64] (below [2^63]), the MCC error lies in
    [[0, 2]]. *)
Theorem mcc_error_range (bounds : R * R) (good bad : list R) :
  (margins_product bounds good bad < 2 ^ 63)%Z ->
  0 <= Calibration._mcc_error bounds good bad <= 2.
Proof.
  intros Hfit. rewrite (mcc_error_unwrapped _ _ _ Hfit).
  apply mcc_exact_range.
Qed.

Lemma mcc_error_range_witness :
  0 <= Calibration._mcc_error (1 / 2, 3 / 2) [1; 2] [2; 1; 3] <= 2.
Proof.
  apply (mcc_error_range (1 / 2, 3 / 2) [1; 2] [2; 1; 3]).
  unfold margins_product, Calibration.count, Calibration.inside,
    Calibration.outside. simpl. solve_Rltb. simpl. lia.
Defined.

(** X4.  With a product of margins that fits in an [int64], the MCC
    error is [0] for bounds that separate perfectly (every good sample
    inside, every bad sample outside, both present) and [2] for bounds
    that get everything wrong. *)
Theorem mcc_error_extremes (bounds : R * R) (good bad : list R) :
  good <> [] -> bad <> [] ->
  (margins_product bounds good bad < 2 ^ 63)%Z ->
  (Forall (fun x => Calibration.inside bounds x = true) good ->
   Forall (fun x => Calibration.outside bounds x = true) bad ->
   Calibration._mcc_error bounds good bad = 0) /\
  (Forall (fun x => Calibration.outside bounds x = true) good ->
   Forall (fun x => Calibration.inside bounds x = true) bad ->
   Calibration._mcc_error bounds good bad = 2).
Proof.
  intros Hg Hb Hfit. rewrite (mcc_error_unwrapped _ _ _ Hfit).
  apply mcc_exact_extremes; assumption.
Qed.

Lemma mcc_error_extremes_witness :
  Calibration._mcc_error (1 / 2, 3 / 2) [1; 1] [2; 0; 3] = 0.
Proof.
  apply (mcc_error_extremes (1 / 2, 3 / 2) [1; 1] [2; 0; 3]).
  - discriminate.
  - discriminate.
  - unfold margins_product, Calibration.count, Calibration.inside,
      Calibration.outside. simpl. solve_Rltb. simpl. lia.
  - repeat constructor; unfold Calibration.inside; simpl; solve_Rltb;
      reflexivity.
  - repeat constructor; unfold Calibration.outside; simpl; solve_Rltb;
      reflexivity.
Defined.

(** X5.  When a margin of the confusion matrix is empty (no good sample,
    no bad sample, no sample inside the bounds, or none outside) the
    denominator vanishes and the MCC error is [1]. *)
Theorem mcc_error_degenerate (bounds : R * R) (good bad : list R) :
  good = [] \/ bad = [] \/
  Forall (fun x => Calibration.outside bounds x = true) (good ++ bad) \/
  Forall (fun x => Calibration.inside bounds x = true) (good ++ bad) ->
  Calibration._mcc_error bounds good bad = 1.
Proof.
  intros H. pose proof (margins_product_degenerate bounds good bad H) as Hz.
  rewrite mcc_error_wrapped. cbv zeta. rewrite Hz. reflexivity.
Qed.

Lemma mcc_error_degenerate_witness :
  Calibration._mcc_error (1 / 2, 3 / 2) [] [2] = 1.
Proof.
  apply mcc_error_degenerate. left. reflexivity.
Defined.

(** X6.  Inside the optimiser's search box ([a] in [[min, 1]], [b] in
    [[1, max]], [min < max], mixing weight in [[0, 1]]) the width penalty
    is [1 - (b - a) / (max - min)] and at the widest bounds [(min, max)]
    the cost reduces to [alpha] times the MCC error; when moreover the
    product of the margins fits in an [int64], the cost lies in
    [[0, 2]]. *)
Theorem cost_function_bounds (a b lo hi alpha : R) (good bad : list R) :
  0 <= alpha <= 1 -> lo < hi -> lo <= a <= 1 -> 1 <= b <= hi ->
  let cost bounds :=
    Calibration._cost_function_mcc bounds good bad (hi - lo) alpha in
  cost (a, b)
  = alpha * Calibration._mcc_error (a, b) good bad
    + (1 - alpha) * (1 - (b - a) / (hi - lo)) /\
  ((margins_product (a, b) good bad < 2 ^ 63)%Z -> 0 <= cost (a, b) <= 2) /\
  cost (lo, hi) = alpha * Calibration._mcc_error (lo, hi) good bad.
Proof.
  intros Halpha Hlh Ha Hb cost. unfold cost, Calibration._cost_function_mcc.
  cbn [fst snd].
  assert (Hw : 0 <= (b - a) / (hi - lo) <= 1).
  { split.
    - apply Rmult_le_pos; [lra|]. left. apply Rinv_0_lt_compat. lra.
    - apply (Rmult_le_reg_r (hi - lo)); [lra|].
      unfold Rdiv. rewrite Rmult_assoc, Rinv_l by lra. lra. }
  rewrite (Rabs_pos_eq (1 - (b - a) / (hi - lo))) by lra.
  split; [reflexivity|]. split.
  - intros Hfit. rewrite (mcc_error_unwrapped _ _ _ Hfit).
    pose proof (mcc_exact_range (a, b) good bad) as HE. split.
    + apply Rplus_le_le_0_compat; apply Rmult_le_pos; lra.
    + assert (alpha * mcc_exact (a, b) good bad <= alpha * 2)
        by (apply Rmult_le_compat_l; lra).
      assert ((1 - alpha) * (1 - (b - a) / (hi - lo)) <= (1 - alpha) * 1)
        by (apply Rmult_le_compat_l; lra).
      lra.
  - replace ((hi - lo) / (hi - lo)) with 1 by (field; lra).
    replace (1 - 1) with 0 by ring. rewrite Rabs_R0. ring.
Qed.

Lemma cost_function_bounds_witness :
  0 <= Calibration._cost_function_mcc (3 / 4, 5 / 4) [1] [2] (3 / 2 - 1 / 2) (1 / 2)
    <= 2.
Proof.
  apply (cost_function_bounds (3 / 4) (5 / 4) (1 / 2) (3 / 2) (1 / 2) [1] [2]);
    try lra.
  unfold margins_product, Calibration.count, Calibration.inside,
    Calibration.outside. simpl. solve_Rltb. simpl. lia.
Defined.

(** ** The Greedy normalisation *)

Lemma select_zero_masked (mask : list bool) (row : list R) :
  Prepare.select mask (GreedyPrepare.zero_masked mask row)
  = Prepare.select mask row.
Proof.
  revert row; induction mask as [|b mask IH]; intros [|x row]; simpl;
    try reflexivity.
  destruct b; rewrite IH; reflexivity.
Qed.

Lemma select_map (f : R -> R) (mask : list bool) (row : list R) :
  Prepare.select mask (map f row) = map f (Prepare.select mask row).
Proof.
  revert row; induction mask as [|b mask IH]; intros [|x row]; simpl;
    try reflexivity.
  destruct b; simpl; rewrite IH; reflexivity.
Qed.

Lemma dot_zero_masked (mask : list bool) (row : list R) :
  dot (GreedyPrepare.zero_masked mask row) (GreedyPrepare.zero_masked mask row)
  = dot (Prepare.select mask row) (Prepare.select mask row).
Proof.
  revert row; induction mask as [|b mask IH]; intros [|x row]; simpl;
    try reflexivity.
  destruct b; simpl; rewrite IH; ring.
Qed.

Lemma sumsq_zeroed (mask : list bool) (W : matrix) :
  sumsq (GreedyPrepare.zeroed mask W) = sumsq (Prepare.restrict mask W).
Proof.
  unfold sumsq, GreedyPrepare.zeroed, Prepare.restrict.
  rewrite !dot_concat_self, !map_map.
  f_equal. apply map_ext. intros row. apply dot_zero_masked.
Qed.

(** X7.  [CircusOMPPeeler] normalises the rank-truncated reconstruction
    [V] of a template, [CircusPeeler] the template [W] itself.  Whenever
    the reconstruction reproduces the template on its unmasked channels,
    the two engines normalise alike: the norm [CircusPeeler] takes of
    [W] after zeroing its masked channels is the norm [CircusOMPPeeler]
    takes of the unmasked channels of [V], and the compressed
    [circus_templates] handed to [compute_overlaps] are the same
    arrays. *)
Theorem greedy_normalisation_agrees (mask : list bool) (W V : matrix) :
  Prepare.restrict mask V = Prepare.restrict mask W ->
  GreedyPrepare.norm_of mask W = Prepare.norm_of mask V /\
  GreedyPrepare.circus_template mask W = Prepare.normalize mask V.
Proof.
  intros Hrec.
  assert (Hn : GreedyPrepare.norm_of mask W = Prepare.norm_of mask V).
  { unfold GreedyPrepare.norm_of, Prepare.norm_of, frobenius.
    rewrite sumsq_zeroed, Hrec. reflexivity. }
  split; [exact Hn|].
  unfold GreedyPrepare.circus_template, GreedyPrepare.normalized,
    Prepare.normalize.
  rewrite Hn, Hrec.
  unfold Prepare.restrict, GreedyPrepare.zeroed.
  rewrite !map_map. apply map_ext. intros row.
  rewrite select_map, select_zero_masked. reflexivity.
Qed.

Lemma greedy_normalisation_agrees_witness :
  let mask := [true; false] in
  let W := [[3; 7]; [4; 9]] in
  let V := [[3; 0]; [4; 0]] in
  GreedyPrepare.norm_of mask W = Prepare.norm_of mask V /\
  GreedyPrepare.circus_template mask W = Prepare.normalize mask V.
Proof.
  intros mask W V.
  apply (greedy_normalisation_agrees mask W V). reflexivity.
Defined.

Lemma sumsq_scale (A : matrix) (k : R) :
  sumsq (map (map (fun x => x / k)) A) = sumsq A / (k * k).
Proof.
  unfold sumsq. rewrite !dot_concat_self, map_map.
  rewrite (map_ext _ (fun r => dot r r / (k * k)))
    by (intros r; apply dot_scale).
  apply Rsum_map_scale.
Qed.

Lemma sumsq_unit (A : matrix) :
  0 < frobenius A ->
  sumsq (map (map (fun x => x / frobenius A)) A) = 1.
Proof.
  intros Hpos. rewrite sumsq_scale. unfold frobenius in *.
  assert (Hs : 0 <= sumsq A) by apply dot_self_nonneg.
  rewrite sqrt_sqrt by exact Hs.
  assert (sumsq A <> 0) by (intros E; rewrite E, sqrt_0 in Hpos; lra).
  field. assumption.
Qed.

(** Cauchy-Schwarz for [dot]. *)
Lemma dot_cauchy_schwarz (a b : list R) :
  dot a b * dot a b <= dot a a * dot b b.
Proof.
  revert b; induction a as [|x a IH]; intros [|y b]; simpl;
    try (rewrite ?Rmult_0_l, ?Rmult_0_r; lra).
  specialize (IH b).
  pose proof (dot_self_nonneg a) as HA. pose proof (dot_self_nonneg b) as HB.
  set (s := dot a b) in *. set (A := dot a a) in *. set (B := dot b b) in *.
  assert (HP : 0 <= x * x * B) by (apply Rmult_le_pos; [nra|exact HB]).
  assert (HQ : 0 <= y * y * A) by (apply Rmult_le_pos; [nra|exact HA]).
  assert (Ht : 2 * x * y * s <= x * x * B + y * y * A).
  { destruct (Rle_lt_dec (2 * x * y * s) (x * x * B + y * y * A)) as [H|H];
      [exact H|exfalso].
    assert (H1 : (x * x * B + y * y * A) * (x * x * B + y * y * A)
                 < (2 * x * y * s) * (2 * x * y * s)) by nra.
    assert (H2 : (2 * x * y * s) * (2 * x * y * s)
                 <= 4 * (x * x * B) * (y * y * A)).
    { replace ((2 * x * y * s) * (2 * x * y * s))
        with (4 * (x * x) * (y * y) * (s * s)) by ring.
      replace (4 * (x * x * B) * (y * y * A))
        with (4 * (x * x) * (y * y) * (A * B)) by ring.
      apply Rmult_le_compat_l; [|exact IH].
      assert (0 <= x * x) by nra. assert (0 <= y * y) by nra.
      assert (0 <= (x * x) * (y * y)) by (apply Rmult_le_pos; assumption).
      lra. }
    set (P := x * x * B) in *. set (Q := y * y * A) in *.
    assert (H3 : 0 <= (P - Q) * (P - Q)) by apply Rle_0_sqr.
    replace (4 * P * Q) with ((P + Q) * (P + Q) - (P - Q) * (P - Q)) in H2
      by ring.
    lra. }
  replace ((x * y + s) * (x * y + s))
    with (x * x * (y * y) + 2 * x * y * s + s * s) by ring.
  replace ((x * x + A) * (y * y + B))
    with (x * x * (y * y) + (x * x * B + y * y * A) + A * B) by ring.
  lra.
Qed.

Lemma dot_abs_le (a b : list R) :
  dot a a <= 1 -> dot b b <= 1 -> Rabs (dot a b) <= 1.
Proof.
  intros Ha Hb. pose proof (dot_cauchy_schwarz a b) as H.
  pose proof (dot_self_nonneg a). pose proof (dot_self_nonneg b).
  assert (dot a b * dot a b <= 1) by nra.
  unfold Rabs. destruct (Rcase_abs (dot a b)); nra.
Qed.

(** X8.  After the Greedy normalisation a template of positive norm is a
    unit vector, so its matched-filter score against any snippet is at
    most the Euclidean norm of the snippet in absolute value. *)
Theorem greedy_template_unit (mask : list bool) (W : matrix) (snippet : list R) :
  0 < GreedyPrepare.norm_of mask W ->
  let tmpl := GreedyPrepare.flat_template mask W in
  dot tmpl tmpl = 1 /\
  Rabs (dot tmpl snippet) <= sqrt (dot snippet snippet).
Proof.
  intros Hpos tmpl.
  assert (H1 : dot tmpl tmpl = 1).
  { unfold tmpl, GreedyPrepare.flat_template, GreedyPrepare.normalized.
    apply sumsq_unit. exact Hpos. }
  split; [exact H1|].
  apply Rabs_le_sqrt.
  pose proof (dot_cauchy_schwarz tmpl snippet) as H. rewrite H1 in H. lra.
Qed.

Lemma greedy_template_unit_witness :
  dot (GreedyPrepare.flat_template [true; false] [[3; 7]; [4; 9]])
      (GreedyPrepare.flat_template [true; false] [[3; 7]; [4; 9]]) = 1.
Proof.
  apply (greedy_template_unit [true; false] [[3; 7]; [4; 9]] []).
  unfold GreedyPrepare.norm_of, frobenius, sumsq. simpl.
  apply sqrt_lt_R0. lra.
Defined.

(** ** When [compute_overlaps] raises, and the shape of what it returns *)

Lemma scatter_None_iff (sigma : list nat) (row vals : list R) :
  Overlaps.scatter row sigma vals = None <->
  exists k c, (k < length vals)%nat /\ sigma !! k = Some c /\
              (length row <= c)%nat.
Proof.
  revert row vals; induction sigma as [|c sigma IH]; intros row vals.
  - simpl. split; [discriminate|]. intros (k & c & _ & Hk & _). discriminate.
  - destruct vals as [|v vals].
    + simpl. split; [discriminate|]. intros (k & c' & Hk & _). simpl in Hk. lia.
    + simpl. destruct (Nat.ltb_spec c (length row)) as [Hlt|Hge].
      * rewrite IH. rewrite length_insert. split.
        -- intros (k & c' & Hk & Hs & Hc). exists (S k), c'.
           repeat split; [simpl; lia|exact Hs|exact Hc].
        -- intros (k & c' & Hk & Hs & Hc). destruct k as [|k].
           ++ simpl in Hs. injection Hs as <-. lia.
           ++ exists k, c'. repeat split; [simpl in Hk; lia|exact Hs|exact Hc].
      * split; [|reflexivity]. intros _. exists 0%nat, c.
        repeat split; [simpl; lia|exact Hge].
Qed.

Lemma mapM_None_iff {A B : Type} (f : A -> option B) (l : list A) :
  mapM f l = None <-> exists x, In x l /\ f x = None.
Proof.
  induction l as [|x l IH]; simpl.
  - split; [discriminate|]. intros (x & [] & _).
  - destruct (f x) as [y|] eqn:Hx; simpl.
    + destruct (mapM f l) as [k|] eqn:Hl; simpl.
      * split; [discriminate|]. intros (x' & [<-|Hin] & Hf); [congruence|].
        assert (E : Some k = None)
          by (apply IH; exists x'; split; assumption).
        discriminate E.
      * split; [|reflexivity]. intros _.
        destruct IH as [IH' _]. destruct (IH' eq_refl) as (x' & Hin & Hf).
        exists x'. split; [right; exact Hin|exact Hf].
    + split; [|reflexivity]. intros _. exists x. split; [left; reflexivity|exact Hx].
Qed.

Lemma compute_overlaps_None (templates : list matrix) (L C : nat)
    (sparsities : list (list nat)) :
  Overlaps.compute_overlaps templates L C sparsities = None <->
  Overlaps.densify L C templates sparsities = None.
Proof.
  destruct (Overlaps.densify L C templates sparsities) as [dense|] eqn:Hd.
  - rewrite (compute_overlaps_table _ _ _ _ _ Hd). split; discriminate.
  - unfold Overlaps.compute_overlaps. rewrite Hd. split; reflexivity.
Qed.

(** X9.  On well-shaped arguments (at least one template, templates of
    [L >= 1] samples, one value per listed channel in every row)
    [compute_overlaps] raises (an [IndexError], from the assignment into
    the dense block) exactly when some template lists a channel index
    outside [[0, num_channels)]; it never fails on a missing dictionary
    key. *)
Theorem compute_overlaps_raises (templates : list matrix) (L C : nat)
    (sparsities : list (list nat)) :
  (1 <= length templates)%nat -> (1 <= L)%nat ->
  (forall i, (i < length templates)%nat ->
     length (nth i templates []) = L /\
     forall t, (t < L)%nat ->
       length (mrow (nth i templates []) t) = length (nth i sparsities [])) ->
  Overlaps.compute_overlaps templates L C sparsities = None <->
  exists i c : nat,
    (i < length templates)%nat /\ In c (nth i sparsities []) /\ (C <= c)%nat.
Proof.
  intros HN HL Hshape.
  rewrite compute_overlaps_None. unfold Overlaps.densify.
  rewrite mapM_None_iff. split.
  - intros (i & Hi & Hone). apply in_seq in Hi.
    unfold Overlaps.densify_one in Hone. apply mapM_None_iff in Hone.
    destruct Hone as (t & Ht & Hs). apply in_seq in Ht.
    apply scatter_None_iff in Hs. destruct Hs as (k & c & Hk & Hc & Hge).
    rewrite repeat_length in Hge.
    exists i, c. split; [lia|]. split; [|exact Hge].
    apply list_elem_of_In. eapply list_elem_of_lookup_2, Hc.
  - intros (i & c & Hi & Hc & Hge).
    exists i. split; [apply in_seq; lia|].
    unfold Overlaps.densify_one. apply mapM_None_iff.
    exists 0%nat. split; [apply in_seq; lia|].
    apply scatter_None_iff.
    apply list_elem_of_In, list_elem_of_lookup_1 in Hc.
    destruct Hc as (k & Hk).
    exists k, c. rewrite repeat_length.
    split; [|split; [exact Hk|exact Hge]].
    rewrite (proj2 (Hshape i Hi) 0%nat) by lia.
    eapply lookup_lt_Some, Hk.
Qed.

Lemma compute_overlaps_raises_witness :
  Overlaps.compute_overlaps [[[1]; [0]]; [[0]; [1]]] 2 1 [[0%nat]; [3%nat]]
  = None.
Proof.
  apply (compute_overlaps_raises [[[1]; [0]]; [[0]; [1]]] 2 1
           [[0%nat]; [3%nat]]).
  - simpl. lia.
  - lia.
  - intros i Hi. simpl in Hi.
    destruct i as [|[|i]]; [| |lia];
      (split; [reflexivity|]);
      intros t Ht; destruct t as [|[|t]]; try lia; reflexivity.
  - exists 1%nat, 3%nat. simpl. split; [lia|]. split; [left; reflexivity|lia].
Defined.

Lemma length_overlap_table (L : nat) (dense : tensor3) :
  length (overlap_table L dense) = length dense /\
  (forall n, (n < length dense)%nat ->
     length (nth n (overlap_table L dense) []) = length dense /\
     (forall m, (m < length dense)%nat ->
        length (nth m (nth n (overlap_table L dense) []) [])
        = (2 * L - 1)%nat)).
Proof.
  unfold overlap_table. split; [rewrite length_map, length_seq; reflexivity|].
  intros n Hn. rewrite nth_map_seq by exact Hn. split.
  - rewrite length_map, length_seq. reflexivity.
  - intros m Hm. rewrite nth_map_seq by exact Hm.
    rewrite length_map, length_seq. reflexivity.
Qed.

(** X10.  Whatever [compute_overlaps] returns is a list of [N] arrays of
    shape [N x (2L - 1)]; in each, column [0] (delay [0], no overlap) is
    zero, and column [L] holds the inner products of whole templates,
    so that [O_n[m, L] = O_m[n, L]]. *)
Theorem compute_overlaps_shape (templates : list matrix) (L C : nat)
    (sparsities : list (list nat)) (O : tensor3) :
  Overlaps.compute_overlaps templates L C sparsities = Some O ->
  let N := length templates in
  length O = N /\
  (forall n, (n < N)%nat ->
     length (nth n O []) = N /\
     (forall m, (m < N)%nat ->
        length (nth m (nth n O []) []) = (2 * L - 1)%nat /\
        ((1 <= L)%nat -> tget O n m 0 = 0) /\
        ((2 <= L)%nat -> tget O n m L = tget O m n L))).
Proof.
  intros HO N.
  destruct (Overlaps.densify L C templates sparsities) as [dense|] eqn:Hd.
  2:{ apply compute_overlaps_None in Hd. congruence. }
  assert (Hlen : length dense = N).
  { apply length_mapM in Hd. rewrite length_seq in Hd. symmetry; exact Hd. }
  rewrite (compute_overlaps_table _ _ _ _ _ Hd) in HO. injection HO as <-.
  destruct (length_overlap_table L dense) as [H1 H2]. rewrite Hlen in *.
  split; [exact H1|]. intros n Hn. destruct (H2 n Hn) as [H3 H4].
  split; [exact H3|]. intros m Hm. split; [apply H4, Hm|]. split.
  - intros HL. rewrite tget_overlap_table by lia.
    unfold lag_matrix. simpl. rewrite mget_cross by lia. reflexivity.
  - intros HL. rewrite !tget_overlap_table by lia.
    unfold lag_matrix. rewrite Nat.leb_refl. rewrite !mget_cross by lia.
    rewrite Nat.sub_diag, !drop_0.
    rewrite !take_ge by (rewrite (densify_rows _ _ _ _ _ _ Hd); lia).
    apply dot_comm.
Qed.

Lemma compute_overlaps_shape_witness :
  length (overlap_table 2 [[[1]; [0]]]) = 1%nat.
Proof.
  apply (compute_overlaps_shape [[[1]; [0]]] 2 1 [[0%nat]]).
  apply compute_overlaps_table. reflexivity.
Defined.

(** ** Overlaps of normalised templates are correlations *)

Lemma sumsq_take_drop (k : nat) (A : matrix) :
  sumsq A = sumsq (take k A) + sumsq (drop k A).
Proof.
  unfold sumsq. rewrite <- (take_drop k A) at 1 2.
  rewrite concat_app, dot_app by reflexivity. reflexivity.
Qed.

Lemma sumsq_take_le (k : nat) (A : matrix) : sumsq (take k A) <= sumsq A.
Proof.
  rewrite (sumsq_take_drop k A).
  pose proof (dot_self_nonneg (concat (drop k A))). unfold sumsq. lra.
Qed.

Lemma sumsq_drop_le (k : nat) (A : matrix) : sumsq (drop k A) <= sumsq A.
Proof.
  rewrite (sumsq_take_drop k A).
  pose proof (dot_self_nonneg (concat (take k A))). unfold sumsq. lra.
Qed.

(** The dense block of normalised templates: it exists whenever the
    masks fit the channels, and a template of [L] rows and positive norm
    fills its slice with a unit vector. *)
Lemma densify_normalized (templates : list matrix)
    (sparsity : list (list bool)) (L C : nat) :
  Forall (fun mask => length mask = C) sparsity ->
  exists dense,
    Overlaps.densify L C (Prepare.normalized templates sparsity)
      (Prepare.sparsities templates sparsity) = Some dense /\
    length dense = length templates /\
    (forall n, (n < length templates)%nat ->
       length (nth n templates []) = L ->
       0 < Prepare.norm_of (nth n sparsity []) (nth n templates []) ->
       sumsq (nth n dense []) = 1).
Proof.
  intros Hmask.
  assert (Hm : forall i, (length (nth i sparsity []) <= C)%nat).
  { intros i. destruct (nth_in_or_default i sparsity []) as [Hin | ->].
    - rewrite List.Forall_forall in Hmask. rewrite (Hmask _ Hin). lia.
    - simpl. lia. }
  assert (HN : length (Prepare.normalized templates sparsity)
               = length templates).
  { unfold Prepare.normalized. rewrite length_map, length_seq. reflexivity. }
  destruct (Overlaps.densify L C (Prepare.normalized templates sparsity)
              (Prepare.sparsities templates sparsity)) as [dense|] eqn:Hd.
  2:{ exfalso. apply eq_None_not_Some in Hd. apply Hd.
      unfold Overlaps.densify. apply mapM_is_Some_2.
      apply List.Forall_forall. intros i Hi. apply in_seq in Hi.
      rewrite HN in Hi.
      unfold compose, Prepare.normalized, Prepare.sparsities.
      rewrite !nth_map_seq by lia.
      destruct (densify_one_normalized L C (nth i sparsity [])
                  (nth i templates []) (Hm i)) as (D & HD & _).
      rewrite HD. eexists; reflexivity. }
  exists dense. split; [reflexivity|].
  assert (Hlen : length dense = length templates).
  { apply length_mapM in Hd. rewrite length_seq, HN in Hd. congruence. }
  split; [exact Hlen|]. intros n Hn HL Hpos.
  pose proof Hd as Hone. unfold Overlaps.densify in Hone.
  apply (mapM_seq_nth _ _ _ n []) in Hone; [|rewrite HN; exact Hn].
  unfold Prepare.normalized, Prepare.sparsities in Hone.
  rewrite !nth_map_seq in Hone by exact Hn.
  destruct (densify_one_normalized L C (nth n sparsity [])
              (nth n templates []) (Hm n)) as (D & HD & Hsq).
  rewrite HD in Hone. injection Hone as <-. rewrite Hsq.
  assert (HL' : L = length (Prepare.normalize (nth n sparsity [])
                              (nth n templates []))).
  { unfold Prepare.normalize, Prepare.restrict. rewrite !length_map.
    symmetry; exact HL. }
  rewrite HL' at 1.
  rewrite (Rsum_rows _ (fun r => dot r r)), <- dot_concat_self.
  apply sumsq_normalize. exact Hpos.
Qed.

(** X11.  For templates normalised as in [_prepare_templates] (each of
    [L] rows and positive norm), [compute_overlaps] returns and every
    entry it stores is a correlation: [|O_n[m, delta]| <= 1]. *)
Theorem overlaps_bounded (templates : list matrix)
    (sparsity : list (list bool)) (L C : nat) :
  Forall (fun mask => length mask = C) sparsity ->
  (forall n, (n < length templates)%nat ->
     length (nth n templates []) = L /\
     0 < Prepare.norm_of (nth n sparsity []) (nth n templates [])) ->
  exists O,
    Overlaps.compute_overlaps (Prepare.normalized templates sparsity) L C
      (Prepare.sparsities templates sparsity) = Some O /\
    (forall n m delta,
       (n < length templates)%nat -> (m < length templates)%nat ->
       (delta < 2 * L - 1)%nat ->
       Rabs (tget O n m delta) <= 1).
Proof.
  intros Hmask Hall.
  destruct (densify_normalized templates sparsity L C Hmask)
    as (dense & Hd & Hlen & Hunit).
  exists (overlap_table L dense). split.
  - apply compute_overlaps_table. exact Hd.
  - intros n m delta Hn Hm Hdelta.
    destruct (Hall n Hn) as [HLn Hpn]. destruct (Hall m Hm) as [HLm Hpm].
    pose proof (Hunit n Hn HLn Hpn) as Un.
    pose proof (Hunit m Hm HLm Hpm) as Um.
    rewrite tget_overlap_table by lia. unfold lag_matrix.
    destruct (Nat.leb_spec delta L).
    + rewrite mget_cross by lia. apply dot_abs_le.
      * pose proof (sumsq_take_le delta (nth n dense [])). unfold sumsq in *. lra.
      * pose proof (sumsq_drop_le (L - delta) (nth m dense [])).
        unfold sumsq in *. lra.
    + rewrite mget_transpose by lia. rewrite mget_cross by lia.
      apply dot_abs_le.
      * pose proof (sumsq_take_le (2 * L - delta) (nth m dense [])).
        unfold sumsq in *. lra.
      * pose proof (sumsq_drop_le (L - (2 * L - delta)) (nth n dense [])).
        unfold sumsq in *. lra.
Qed.

Lemma overlaps_bounded_witness :
  exists O,
    Overlaps.compute_overlaps (Prepare.normalized [[[1]; [0]]] [[true]]) 2 1
      (Prepare.sparsities [[[1]; [0]]] [[true]]) = Some O /\
    Rabs (tget O 0 0 1) <= 1.
Proof.
  destruct (overlaps_bounded [[[1]; [0]]] [[true]] 2 1) as (O & HO & Hb).
  - repeat constructor.
  - intros n Hn. simpl in Hn. assert (n = 0%nat) as -> by lia.
    split; [reflexivity|exact example_norm_pos].
  - exists O. split; [exact HO|]. apply Hb; simpl; lia.
Defined.

(** ** Invariants of the OMP loop *)

Lemma omp_step_Next (d : OMP.params) (sps : list (list score)) (P : nat)
    (st st' : OMP.state) :
  OMP.step d sps P st = OMP.Next st' ->
  exists n p x row,
    select_best (OMP.is_valid d) (OMP.scalar_products st) = Some (n, p, x) /\
    OMP.cholesky_row d st n p = Some row /\
    OMP.M st' = OMP.M st ++ [row] /\
    OMP.selection st' = OMP.selection st ++ [(n, p)] /\
    (exists amps : list (R * (nat * nat)),
       (forall e, In e amps -> In e.2 (OMP.selection st')) /\
       OMP.final_amplitudes st'
       = fold_left (fun A (e : R * (nat * nat)) => mset A e.2.1 e.2.2 e.1)
                   amps (OMP.final_amplitudes st)) /\
    (exists mods : list (R * (nat * nat)),
       OMP.scalar_products st'
       = fold_left (fun S (e : R * (nat * nat)) =>
                      OMP.subtract d P e.2.1 e.2.2
                        (e.1 * vget (OMP.norms d) e.2.1) S)
                   mods (OMP.scalar_products st)).
Proof.
  unfold OMP.step.
  destruct (select_best _ _) as [[[n p] x]|] eqn:Hsel; [|discriminate].
  destruct (OMP.cholesky_row d st n p) as [row|] eqn:Hrow; [|discriminate].
  destruct (_ <=? _)%nat; [discriminate|].
  intros Heq; injection Heq as <-. exists n, p, x, row. cbn.
  split; [reflexivity|]. split; [exact Hrow|].
  split; [reflexivity|]. split; [reflexivity|]. split.
  - eexists. split; [|reflexivity].
    intros [a s] He. apply in_combine_r in He. exact He.
  - eexists. reflexivity.
Qed.

Lemma omp_loop_invariant (d : OMP.params) (sps : list (list score)) (P : nat)
    (Inv : OMP.state -> Prop) :
  (forall st st', Inv st -> OMP.step d sps P st = OMP.Next st' -> Inv st') ->
  forall fuel st st',
    Inv st -> OMP.loop fuel d sps P st = Ok st' -> Inv st'.
Proof.
  intros Hstep. induction fuel as [|fuel IH]; intros st st' Hinv Hl;
    [discriminate|].
  simpl in Hl. destruct (OMP.step d sps P st) as [| |st1|e] eqn:Hs.
  - injection Hl as <-. exact Hinv.
  - injection Hl as <-. exact Hinv.
  - eapply IH; [|exact Hl]. eapply Hstep; eassumption.
  - discriminate.
Qed.

Lemma length_mset {A : Type} (S : list (list A)) (i j : nat) (v : A) :
  length (mset S i j v) = length S.
Proof. unfold mset. apply length_alter. Qed.

Lemma shaped_mset {A : Type} (P : nat) (S : list (list A)) (i j : nat) (v : A) :
  shaped P S -> shaped P (mset S i j v).
Proof.
  unfold shaped, mset. intros H. apply Forall_lookup_2. intros m row Hrow.
  destruct (decide (i = m)) as [->|Hne].
  - rewrite list_lookup_alter_eq in Hrow.
    destruct (S !! m) as [row0|] eqn:H0; [|discriminate].
    simpl in Hrow. injection Hrow as <-. rewrite length_insert.
    eapply Forall_lookup_1 in H; [exact H|exact H0].
  - rewrite list_lookup_alter_ne in Hrow by exact Hne.
    eapply Forall_lookup_1 in H; [exact H|exact Hrow].
Qed.

Lemma entry_mset_ne {A : Type} (S : list (list A)) (i j n p : nat) (v : A) :
  i <> n -> entry (mset S i j v) n p = entry S n p.
Proof.
  intros Hne. unfold entry, mset.
  rewrite list_lookup_alter_ne by exact Hne. reflexivity.
Qed.

Lemma length_omap_le {A B : Type} (f : A -> option B) (l : list A) :
  (length (omap f l) <= length l)%nat.
Proof.
  induction l as [|x l IH]; [simpl; lia|].
  cbn. destruct (f x); simpl; lia.
Qed.

Lemma length_entries_rows {A : Type} (f : nat -> nat) (P : nat)
    (rows : list (list A)) :
  shaped P rows ->
  length (concat (imap (fun n row => imap (fun p s => (f n, p, s)) row) rows))
  = (length rows * P)%nat.
Proof.
  intros H. revert f. induction H as [|row rows Hrow _ IH]; intros f;
    [reflexivity|].
  rewrite imap_cons. simpl. rewrite length_app, length_imap.
  unfold compose. rewrite (IH (fun n => f (S n))). lia.
Qed.

Lemma length_entries {A : Type} (P : nat) (S : list (list A)) :
  shaped P S -> length (entries S) = (length S * P)%nat.
Proof. intros H. apply (length_entries_rows (fun n => n) P S H). Qed.

(** The amplitude grid keeps its [N x P] shape. *)
Lemma omp_final_amplitudes_shape (d : OMP.params) (sps : list (list score))
    (P fuel : nat) (st : OMP.state) :
  OMP.loop fuel d sps P (OMP.init_state (OMP.num_templates d) P sps) = Ok st ->
  length (OMP.final_amplitudes st) = OMP.num_templates d /\
  shaped P (OMP.final_amplitudes st).
Proof.
  apply (omp_loop_invariant d sps P
           (fun st => length (OMP.final_amplitudes st) = OMP.num_templates d /\
                      shaped P (OMP.final_amplitudes st))).
  - intros st0 st1 [Hlen Hsh] Hstep.
    apply omp_step_Next in Hstep.
    destruct Hstep as (n & p & x & row & _ & _ & _ & _ & (amps & _ & ->) & _).
    clear - Hlen Hsh. revert Hlen Hsh.
    generalize (OMP.final_amplitudes st0).
    induction amps as [|e amps IH]; intros A Hlen Hsh; [split; assumption|].
    simpl. apply IH; [rewrite length_mset; exact Hlen|apply shaped_mset, Hsh].
  - simpl. split; [apply repeat_length|].
    unfold shaped. apply List.Forall_forall. intros row Hrow.
    apply repeat_spec in Hrow. subst row. apply repeat_length.
Qed.

(** X12.  Whatever the OMP engine returns lies inside the trace: the
    trace is at most one sample short of a template (and then nothing
    is returned), there are at most [N * P] detections
    ([P = T - L + 1]), and every detection has [channel_index = 0], a
    cluster index below [N], and a sample index with [nbefore] samples
    before it and [nafter] from it on within the [T] samples of the
    trace. *)
Theorem omp_detections_in_range (d : OMP.params) (traces : matrix)
    (fuel : nat) (spikes : list spike) :
  OMP.main_function fuel traces d = Ok spikes ->
  (OMP.num_samples d <= length traces + 1)%nat /\
  ((length traces < OMP.num_samples d)%nat -> spikes = []) /\
  (length spikes
   <= OMP.num_templates d * (length traces + 1 - OMP.num_samples d))%nat /\
  (forall s, In s spikes ->
     channel_index s = 0%Z /\
     (cluster_index s < OMP.num_templates d)%nat /\
     (Z.of_nat (OMP.nbefore d) <= sample_index s)%Z /\
     (sample_index s + Z.of_nat (OMP.nafter d) <= Z.of_nat (length traces))%Z).
Proof.
  intros H. unfold OMP.main_function in H.
  destruct (OMP.initial_scores d traces) as [sps|e|] eqn:Hs; try discriminate.
  destruct (OMP.loop _ _ _ _ _) as [st|e|] eqn:Hl; try discriminate.
  injection H as <-.
  destruct (initial_scores_inv d traces sps Hs) as [HT _].
  destruct (omp_final_amplitudes_shape _ _ _ _ _ Hl) as [Hlen Hsh].
  assert (Hin : forall s, In s (OMP.emit d (OMP.final_amplitudes st)) ->
            exists n p a,
              (n < OMP.num_templates d)%nat /\
              (p < length traces + 1 - OMP.num_samples d)%nat /\
              s = {| sample_index := Z.of_nat p + Z.of_nat (OMP.nbefore d);
                     channel_index := 0; cluster_index := n;
                     amplitude := a |}).
  { intros s Hin. unfold OMP.emit in Hin.
    apply (Permutation_in _ (argsort_spikes_perm _)) in Hin.
    apply retained_in in Hin. destruct Hin as (n & p & a & He & _ & ->).
    exists n, p, a. split; [|split; [|reflexivity]].
    - rewrite <- Hlen. unfold entry in He.
      destruct (OMP.final_amplitudes st !! n) as [row|] eqn:Hrow;
        [|discriminate].
      eapply lookup_lt_Some, Hrow.
    - apply (entry_shaped _ _ _ _ _ Hsh He). }
  split; [exact HT|]. split; [|split].
  - intros Hshort.
    destruct (OMP.emit d (OMP.final_amplitudes st)) as [|s l] eqn:He;
      [reflexivity|].
    destruct (Hin s (or_introl eq_refl)) as (n & p & a & _ & Hp & _). lia.
  - unfold OMP.emit.
    rewrite (Permutation_length (argsort_spikes_perm _)).
    unfold OMP.retained.
    eapply Nat.le_trans; [apply length_omap_le|].
    rewrite (length_entries _ _ Hsh), Hlen.
    apply Nat.mul_le_mono_l. lia.
  - intros s Hs'. destruct (Hin s Hs') as (n & p & a & Hn & Hp & ->).
    unfold OMP.num_samples in *. simpl. repeat split; try lia.
Qed.

Lemma omp_detections_in_range_witness :
  let s := {| sample_index := 1; channel_index := 0; cluster_index := 0;
              amplitude := 1 |} in
  channel_index s = 0%Z /\
  (cluster_index s < OMP.num_templates dependent_example)%nat /\
  (Z.of_nat (OMP.nbefore dependent_example) <= sample_index s)%Z /\
  (sample_index s + Z.of_nat (OMP.nafter dependent_example)
   <= Z.of_nat (length [[1]; [0]]))%Z.
Proof.
  intros s.
  apply (omp_detections_in_range dependent_example [[1]; [0]] 2 _
           dependent_example_run).
  left. reflexivity.
Defined.

Lemma entry_ignore_NegInf (ids : list nat) (A : matrix) (n p : nat) (s : score) :
  In n ids -> entry (OMP.ignore ids A) n p = Some s -> s = NegInf.
Proof.
  intros Hin. unfold entry, OMP.ignore. rewrite list_lookup_imap.
  destruct (A !! n) as [row|]; [|discriminate]. simpl.
  replace (existsb (Nat.eqb n) ids) with true.
  - rewrite lookup_map. destruct (row !! p); simpl; [|discriminate].
    intros H; injection H as <-. reflexivity.
  - symmetry. apply existsb_exists. exists n. split; [exact Hin|].
    apply Nat.eqb_refl.
Qed.

Lemma subtract_keeps_NegInf (d : OMP.params) (P : nat)
    (mods : list (R * (nat * nat))) (S0 : list (list score)) (n : nat) :
  (forall p s, entry S0 n p = Some s -> s = NegInf) ->
  forall p s,
    entry (fold_left (fun S (e : R * (nat * nat)) =>
                        OMP.subtract d P e.2.1 e.2.2
                          (e.1 * vget (OMP.norms d) e.2.1) S)
                     mods S0) n p = Some s ->
    s = NegInf.
Proof.
  revert S0; induction mods as [|e mods IH]; intros S0 H p s; [apply H|].
  simpl. apply IH. clear p s. intros p s.
  unfold OMP.subtract. rewrite entry_update_cols.
  destruct (entry S0 n p) as [s0|] eqn:He; [|discriminate].
  rewrite (H _ _ He). simpl.
  destruct (_ && _); intros E; injection E as <-; reflexivity.
Qed.

Lemma mset_keeps_rows (amps : list (R * (nat * nat))) (A : matrix) (n p : nat) :
  (forall e, In e amps -> e.2.1 <> n) ->
  entry (fold_left (fun A (e : R * (nat * nat)) => mset A e.2.1 e.2.2 e.1)
                   amps A) n p
  = entry A n p.
Proof.
  revert A; induction amps as [|e amps IH]; intros A H; [reflexivity|].
  simpl. rewrite IH by (intros e' He'; apply H; right; exact He').
  apply entry_mset_ne. apply H. left; reflexivity.
Qed.

(** X13.  A template listed in [ignored_ids] is never selected by the
    OMP loop, so its amplitudes stay zero; unless the band strictly
    contains zero ([a_min < 0 < a_max]), no detection carries its
    cluster index. *)
Theorem omp_ignored_never_detected (d : OMP.params) (traces : matrix)
    (fuel : nat) (spikes : list spike) :
  OMP.main_function fuel traces d = Ok spikes ->
  (exists sps st,
     OMP.initial_scores d traces = Ok sps /\
     OMP.loop fuel d sps (length traces + 1 - OMP.num_samples d)
       (OMP.init_state (OMP.num_templates d)
          (length traces + 1 - OMP.num_samples d) sps) = Ok st /\
     (forall s, In s (OMP.selection st) -> ~ In s.1 (OMP.ignored_ids d)) /\
     (forall n p a, In n (OMP.ignored_ids d) ->
        entry (OMP.final_amplitudes st) n p = Some a -> a = 0)) /\
  (~ ((OMP.amplitudes d).1 < 0 < (OMP.amplitudes d).2) ->
   forall s, In s spikes -> ~ In (cluster_index s) (OMP.ignored_ids d)).
Proof.
  intros H. unfold OMP.main_function in H.
  destruct (OMP.initial_scores d traces) as [sps|e|] eqn:Hs; try discriminate.
  destruct (OMP.loop _ _ _ _ _) as [st|e|] eqn:Hl; try discriminate.
  injection H as <-.
  set (P := (length traces + 1 - OMP.num_samples d)%nat) in *.
  set (ids := OMP.ignored_ids d) in *.
  assert (Hinv :
    (forall n p s, In n ids ->
       entry (OMP.scalar_products st) n p = Some s -> s = NegInf) /\
    (forall n p a, In n ids ->
       entry (OMP.final_amplitudes st) n p = Some a -> a = 0) /\
    (forall s, In s (OMP.selection st) -> ~ In s.1 ids)).
  { revert Hl.
    apply (omp_loop_invariant d sps P
             (fun st =>
                (forall n p s, In n ids ->
                   entry (OMP.scalar_products st) n p = Some s -> s = NegInf) /\
                (forall n p a, In n ids ->
                   entry (OMP.final_amplitudes st) n p = Some a -> a = 0) /\
                (forall s, In s (OMP.selection st) -> ~ In s.1 ids))).
    - intros st0 st1 (HS & Hfa & Hsel) Hstep.
      apply omp_step_Next in Hstep.
      destruct Hstep as (n & p & x & row & Hbest & _ & _ & Hsel1
                         & (amps & Hamps & Hfa1) & (mods & HS1)).
      apply select_best_Some in Hbest. destruct Hbest as [He _].
      assert (Hn : ~ In n ids).
      { intros Hin. specialize (HS _ _ _ Hin He). discriminate. }
      assert (Hsel' : forall s, In s (OMP.selection st1) -> ~ In s.1 ids).
      { intros s Hin. rewrite Hsel1 in Hin. apply in_app_or in Hin.
        destruct Hin as [Hin|[<-|[]]]; [apply Hsel, Hin|exact Hn]. }
      split; [|split; [|exact Hsel']].
      + intros n' p' s Hin. rewrite HS1.
        apply subtract_keeps_NegInf. intros q s0. apply HS, Hin.
      + intros n' p' a Hin. rewrite Hfa1.
        rewrite mset_keeps_rows; [apply Hfa, Hin|].
        intros e He' Heq. apply (Hsel' _ (Hamps e He')). rewrite Heq. exact Hin.
    - split; [|split].
      + intros n p s Hin. cbn [OMP.scalar_products OMP.init_state].
        destruct (initial_scores_inv d traces sps Hs) as [_ ->].
        apply entry_ignore_NegInf, Hin.
      + intros n p a _ He. cbn [OMP.final_amplitudes OMP.init_state] in He.
        eapply entry_repeat, He.
      + intros s []. }
  destruct Hinv as (_ & Hfa & Hsel).
  split.
  - exists sps, st. repeat split; try assumption.
  - intros Hband s Hin Hign. unfold OMP.emit in Hin.
    apply (Permutation_in _ (argsort_spikes_perm _)) in Hin.
    apply retained_in in Hin. destruct Hin as (n & p & a & He & Ha & ->).
    simpl in Hign. rewrite (Hfa _ _ _ Hign He) in Ha. contradiction.
Qed.

(** ** Detections of the Greedy engine *)

Lemma greedy_step_Next (d : Greedy.params) (peaks chans : list Z) (size : nat)
    (st st' : Greedy.state) :
  Greedy.step d peaks chans size st = Greedy.Next st' ->
  exists n p A,
    entry (Greedy.scalar_products st) n p = Some (Fin A) /\
    Greedy.is_valid d n A = true /\
    Greedy.scalar_products st'
    = Greedy.update d peaks n p A (Greedy.scalar_products st) /\
    Greedy.spikes st'
    = Greedy.spikes st ++
      [ {| sample_index := nth p peaks 0%Z; channel_index := nth p chans 0%Z;
           cluster_index := n; amplitude := A |} ].
Proof.
  unfold Greedy.step.
  destruct (select_best _ _) as [[[n p] A]|] eqn:Hsel; [|discriminate].
  destruct (_ <=? _)%nat; [discriminate|].
  intros H; injection H as <-.
  apply select_best_Some in Hsel. destruct Hsel as [He Hv].
  exists n, p, A. repeat split; assumption.
Qed.

Lemma greedy_loop_invariant (d : Greedy.params) (peaks chans : list Z)
    (size : nat) (Inv : Greedy.state -> Prop) :
  (forall st st', Inv st -> Greedy.step d peaks chans size st = Greedy.Next st' ->
                  Inv st') ->
  forall fuel st st',
    Inv st -> Greedy.loop fuel d peaks chans size st = Ok st' -> Inv st'.
Proof.
  intros Hstep. induction fuel as [|fuel IH]; intros st st' Hinv Hl;
    [discriminate|].
  simpl in Hl. destruct (Greedy.step d peaks chans size st) as [|st1|e] eqn:Hs.
  - injection Hl as <-. exact Hinv.
  - eapply IH; [|exact Hl]. eapply Hstep; eassumption.
  - discriminate.
Qed.

(** What a normal return of [main_function] went through. *)
Lemma greedy_main_Ok (detect_peaks : matrix -> list Z * list Z)
    (d : Greedy.params) (traces : matrix) (fuel : nat) (spikes : list spike) :
  Greedy.main_function detect_peaks fuel traces d = Ok spikes ->
  let pt := Greedy.peak_traces d traces in
  let found := Greedy.expand_peaks d (length pt)
                 (detect_peaks pt).1 (detect_peaks pt).2 in
  exists sn st,
    Greedy.snippets d traces found.1 = Ok sn /\
    Greedy.loop fuel d (Greedy.shift d found.1) found.2
      (length (Greedy.scores d sn) * length found.1)
      {| Greedy.scalar_products := Greedy.scores d sn; Greedy.spikes := [] |}
    = Ok st /\
    spikes = Greedy.emit d (Greedy.spikes st).
Proof.
  intros H. cbv zeta. unfold Greedy.main_function in H.
  destruct (detect_peaks (Greedy.peak_traces d traces)) as [peaks0 chans0].
  cbn [fst snd].
  destruct (Greedy.expand_peaks d _ peaks0 chans0) as [pk ch]. cbn [fst snd].
  destruct (Greedy.snippets d traces pk) as [sn|e|]; try discriminate.
  destruct (Greedy.loop _ _ _ _ _ _) as [st|e|] eqn:Hl; try discriminate.
  injection H as <-. exists sn, st. repeat split. exact Hl.
Qed.

Lemma length_update (d : Greedy.params) (peaks : list Z) (n p : nat) (A : R)
    (S : list (list score)) :
  length (Greedy.update d peaks n p A S) = length S.
Proof.
  unfold Greedy.update. destruct (Greedy.neighbors d peaks p) as [lo hi].
  unfold update_cols. rewrite !length_imap. reflexivity.
Qed.

Lemma entry_row_lt {A : Type} (S : list (list A)) (n p : nat) (s : A) :
  entry S n p = Some s -> (n < length S)%nat.
Proof.
  unfold entry. destruct (S !! n) as [row|] eqn:Hrow; [|discriminate].
  intros _. eapply lookup_lt_Some, Hrow.
Qed.

Lemma length_scores (d : Greedy.params) (sn : list (list R)) :
  sn <> [] -> length (Greedy.scores d sn) = length (Greedy.templates d).
Proof.
  destruct sn as [|s0 sn]; [congruence|]. intros _. simpl.
  apply length_map.
Qed.

Lemma in_emit (d : Greedy.params) (sp : list spike) (s : spike) :
  In s (Greedy.emit d sp) <->
  exists s0, In s0 sp /\
    s = {| sample_index := sample_index s0; channel_index := channel_index s0;
           cluster_index := cluster_index s0;
           amplitude := amplitude s0
                        / vget (Greedy.norms d) (cluster_index s0) |}.
Proof.
  unfold Greedy.emit. split.
  - intros H. apply (Permutation_in _ (argsort_spikes_perm _)) in H.
    apply in_map_iff in H. destruct H as (s0 & <- & H0). exists s0. tauto.
  - intros (s0 & H0 & ->).
    apply (Permutation_in _ (Permutation_sym (argsort_spikes_perm _))).
    apply in_map_iff. exists s0. tauto.
Qed.

Lemma greedy_example_run :
  Greedy.main_function greedy_example_detect 2 greedy_example_trace
    greedy_example
  = Ok [ {| sample_index := 2; channel_index := 0; cluster_index := 0;
            amplitude := 1 |} ].
Proof.
  unfold Greedy.main_function, greedy_example_detect.
  change (Greedy.peak_traces greedy_example greedy_example_trace)
    with [[0]; [1]; [0]].
  change (Greedy.expand_peaks greedy_example (length [[0]; [1]; [0]]) [1%Z] [0%Z])
    with ([1%Z], [0%Z]).
  cbv iota beta.
  change (Greedy.snippets greedy_example greedy_example_trace [1%Z])
    with (Ok [[0; 1]]).
  cbv iota beta.
  replace (Greedy.scores greedy_example [[0; 1]]) with [[Fin 1]]
    by (simpl; do 3 f_equal; ring).
  change (Greedy.shift greedy_example [1%Z]) with [2%Z].
  change (length [[Fin 1]] * length [1%Z])%nat with 1%nat.
  cbn [Greedy.loop].
  assert (Hsel : select_best (Greedy.is_valid greedy_example) [[Fin 1]]
                 = Some (0%nat, 0%nat, 1)).
  { unfold select_best. simpl. unfold Greedy.is_valid, Greedy.min_sps,
      Greedy.max_sps. simpl. change (vget [1] 0) with 1.
    solve_Rltb. reflexivity. }
  unfold Greedy.step at 1. cbn [Greedy.scalar_products Greedy.spikes].
  rewrite Hsel. cbn [length Nat.leb].
  change (Greedy.update greedy_example [2%Z] 0 0 1 [[Fin 1]]) with [[NegInf]].
  unfold Greedy.step. cbn [Greedy.scalar_products Greedy.spikes].
  change (select_best (Greedy.is_valid greedy_example) [[NegInf]])
    with (@None (nat * nat * R)).
  cbv iota beta. cbn [Greedy.spikes app nth].
  unfold Greedy.emit. simpl. change (vget [1] 0) with 1.
  do 3 f_equal. field.
Qed.

(** Where the spikes of a finished loop come from. *)
Lemma greedy_loop_provenance (d : Greedy.params) (peaks chans : list Z)
    (size fuel : nat) (S0 : list (list score)) (st : Greedy.state) :
  shaped (length peaks) S0 ->
  Greedy.loop fuel d peaks chans size
    {| Greedy.scalar_products := S0; Greedy.spikes := [] |} = Ok st ->
  forall s, In s (Greedy.spikes st) ->
    (cluster_index s < length S0)%nat /\
    (exists p, (p < length peaks)%nat /\
       sample_index s = nth p peaks 0%Z /\
       channel_index s = nth p chans 0%Z) /\
    Greedy.is_valid d (cluster_index s) (amplitude s) = true.
Proof.
  intros Hsh0 Hl.
  enough (Hinv :
    (shaped (length peaks) (Greedy.scalar_products st) /\
     length (Greedy.scalar_products st) = length S0) /\
    (forall s, In s (Greedy.spikes st) ->
       (cluster_index s < length S0)%nat /\
       (exists p, (p < length peaks)%nat /\
          sample_index s = nth p peaks 0%Z /\
          channel_index s = nth p chans 0%Z) /\
       Greedy.is_valid d (cluster_index s) (amplitude s) = true))
    by apply Hinv.
  revert Hl.
  apply (greedy_loop_invariant d peaks chans _
           (fun st =>
              (shaped (length peaks) (Greedy.scalar_products st) /\
               length (Greedy.scalar_products st) = length S0) /\
              (forall s, In s (Greedy.spikes st) ->
                 (cluster_index s < length S0)%nat /\
                 (exists p, (p < length peaks)%nat /\
                    sample_index s = nth p peaks 0%Z /\
                    channel_index s = nth p chans 0%Z) /\
                 Greedy.is_valid d (cluster_index s) (amplitude s) = true))).
  - intros st0 st1 [[Hsh HN] Hsp] Hstep.
    apply greedy_step_Next in Hstep.
    destruct Hstep as (n & p & A & He & Hv & HS & Hs).
    split; [split|].
    + rewrite HS. apply update_shaped, Hsh.
    + rewrite HS, length_update. exact HN.
    + intros s Hin. rewrite Hs in Hin. apply in_app_or in Hin.
      destruct Hin as [Hin|[<-|[]]]; [apply Hsp, Hin|]. simpl.
      split; [|split].
      * rewrite <- HN. eapply entry_row_lt, He.
      * exists p. split; [|split; reflexivity].
        eapply entry_shaped; eassumption.
      * exact Hv.
  - split; [split|].
    + exact Hsh0.
    + reflexivity.
    + intros s [].
Qed.

(** X14.  Every detection the Greedy engine returns comes from one peak
    of the expanded list (its time shifted by [margin // 2], its
    channel) and one template; its amplitude is a score that passed the
    validity test divided by the template's norm, hence lies strictly
    inside the template's bracket when that norm is positive. *)
Theorem greedy_detections (detect_peaks : matrix -> list Z * list Z)
    (d : Greedy.params) (traces : matrix) (fuel : nat) (spikes : list spike) :
  Greedy.main_function detect_peaks fuel traces d = Ok spikes ->
  let pt := Greedy.peak_traces d traces in
  let found := Greedy.expand_peaks d (length pt)
                 (detect_peaks pt).1 (detect_peaks pt).2 in
  forall s, In s spikes ->
    (cluster_index s < length (Greedy.templates d))%nat /\
    (exists p t,
       found.1 !! p = Some t /\
       sample_index s = (t + Z.of_nat (Greedy.margin d / 2))%Z /\
       channel_index s = nth p found.2 0%Z) /\
    (exists A,
       Greedy.is_valid d (cluster_index s) A = true /\
       amplitude s = A / vget (Greedy.norms d) (cluster_index s)) /\
    (0 < vget (Greedy.norms d) (cluster_index s) ->
     (nth (cluster_index s) (Greedy.amplitudes d) (0, 0)).1 < amplitude s
     < (nth (cluster_index s) (Greedy.amplitudes d) (0, 0)).2).
Proof.
  intros H pt found. apply greedy_main_Ok in H. fold pt in H. fold found in H.
  destruct H as (sn & st & Hsn & Hl & ->).
  set (peaks := Greedy.shift d found.1) in *.
  assert (Hlen : length sn = length peaks).
  { rewrite (snippets_length _ _ _ _ Hsn). unfold peaks, Greedy.shift.
    rewrite length_map. reflexivity. }
  assert (Hsp := greedy_loop_provenance d peaks found.2 _ fuel
                  (Greedy.scores d sn) st
                  ltac:(rewrite <- Hlen; apply scores_shaped) Hl).
  intros s Hin. apply in_emit in Hin. destruct Hin as (s0 & H0 & ->).
  destruct (Hsp _ H0) as (Hn & (p & Hp & Ht & Hc) & Hv). simpl.
  assert (Hne : sn <> []).
  { intros ->. simpl in Hlen. lia. }
  rewrite (length_scores d sn Hne) in Hn.
  split; [exact Hn|]. split; [|split].
  - unfold peaks, Greedy.shift in Hp, Ht. rewrite length_map in Hp.
    destruct (found.1 !! p) as [t|] eqn:Hlk.
    + exists p, t. split; [exact Hlk|]. split; [|exact Hc].
      rewrite Ht.
      apply nth_lookup_Some. rewrite lookup_map, Hlk. reflexivity.
    + apply lookup_ge_None in Hlk. lia.
  - exists (amplitude s0). split; [exact Hv|reflexivity].
  - intros Hpos. unfold Greedy.is_valid in Hv.
    apply andb_true_iff in Hv. destruct Hv as [Hlo Hhi].
    apply Rltb_true in Hlo, Hhi. unfold Greedy.min_sps in Hlo.
    unfold Greedy.max_sps in Hhi.
    set (nrm := vget (Greedy.norms d) (cluster_index s0)) in *.
    set (lo := (nth (cluster_index s0) (Greedy.amplitudes d) (0, 0)).1) in *.
    set (hi := (nth (cluster_index s0) (Greedy.amplitudes d) (0, 0)).2) in *.
    split.
    + apply (Rmult_lt_reg_r nrm); [exact Hpos|].
      unfold Rdiv. rewrite Rmult_assoc, Rinv_l by lra. lra.
    + apply (Rmult_lt_reg_r nrm); [exact Hpos|].
      unfold Rdiv. rewrite Rmult_assoc, Rinv_l by lra. lra.
Qed.

Lemma greedy_detections_witness : 1 / 2 < 1 < 3 / 2.
Proof.
  exact (proj2 (proj2 (proj2
           (greedy_detections greedy_example_detect greedy_example
              greedy_example_trace 2 _ greedy_example_run
              {| sample_index := 2; channel_index := 0; cluster_index := 0;
                 amplitude := 1 |} (or_introl eq_refl))))
           ltac:(change (0 < 1); lra)).
Defined.

(** ** Refractory behaviour of the Greedy engine *)

Lemma entry_update_Some (d : Greedy.params) (peaks : list Z) (n p : nat)
    (A : R) (S : list (list score)) (m q : nat) (x : score) :
  entry (Greedy.update d peaks n p A S) m q = Some x ->
  exists x0, entry S m q = Some x0.
Proof.
  unfold Greedy.update. destruct (Greedy.neighbors d peaks p) as [lo hi].
  rewrite !entry_update_cols.
  destruct (entry S m q) as [x0|]; [|discriminate]. intros _.
  exists x0. reflexivity.
Qed.

(** X15.  With templates of at least one sample, the Greedy engine never
    returns the same template twice at one sample, and two detections of
    one template are at least [num_samples] samples apart: selecting
    [(n, p)] blanks row [n] on every peak closer than that. *)
Theorem greedy_refractory (detect_peaks : matrix -> list Z * list Z)
    (d : Greedy.params) (traces : matrix) (fuel : nat) (spikes : list spike) :
  (0 < Greedy.num_samples d)%nat ->
  Greedy.main_function detect_peaks fuel traces d = Ok spikes ->
  NoDup (map (fun s => (cluster_index s, sample_index s)) spikes) /\
  (forall s1 s2, In s1 spikes -> In s2 spikes ->
     cluster_index s1 = cluster_index s2 ->
     sample_index s1 <> sample_index s2 ->
     (Z.of_nat (Greedy.num_samples d)
      <= Z.abs (sample_index s1 - sample_index s2))%Z).
Proof.
  intros HL H. apply greedy_main_Ok in H. cbv zeta in H.
  destruct H as (sn & st & Hsn & Hl & ->).
  set (pt := Greedy.peak_traces d traces) in *.
  set (found := Greedy.expand_peaks d (length pt)
                  (detect_peaks pt).1 (detect_peaks pt).2) in *.
  set (peaks := Greedy.shift d found.1) in *.
  set (L := Z.of_nat (Greedy.num_samples d)).
  assert (Hs : StronglySorted Z.lt peaks) by apply expand_peaks_sorted.
  assert (Hlen : length sn = length peaks).
  { rewrite (snippets_length _ _ _ _ Hsn). unfold peaks, Greedy.shift.
    rewrite length_map. reflexivity. }
  set (key := fun s : spike => (cluster_index s, sample_index s)).
  set (Inv := fun st : Greedy.state =>
    shaped (length peaks) (Greedy.scalar_products st) /\
    (forall s q x, In s (Greedy.spikes st) ->
       entry (Greedy.scalar_products st) (cluster_index s) q = Some x ->
       (- L < nth q peaks 0 - sample_index s < L)%Z -> x = NegInf) /\
    NoDup (map key (Greedy.spikes st)) /\
    (forall s1 s2, In s1 (Greedy.spikes st) -> In s2 (Greedy.spikes st) ->
       cluster_index s1 = cluster_index s2 ->
       sample_index s1 <> sample_index s2 ->
       (L <= Z.abs (sample_index s1 - sample_index s2))%Z)).
  assert (Hinv : Inv st).
  { revert Hl. apply (greedy_loop_invariant d peaks found.2 _ Inv).
    - intros st0 st1 (Hsh & Hblank & Hnd & Hfar) Hstep.
      apply greedy_step_Next in Hstep.
      destruct Hstep as (n & p & A & He & _ & HS & Hsp).
      assert (Hsh1 : shaped (length peaks) (Greedy.scalar_products st1)).
      { rewrite HS. apply update_shaped, Hsh. }
      assert (Hold : forall s, In s (Greedy.spikes st0) ->
                cluster_index s = n ->
                ~ (- L < nth p peaks 0 - sample_index s < L)%Z).
      { intros s Hin Hc Hw. subst n.
        specialize (Hblank s p (Fin A) Hin He Hw). discriminate. }
      split; [exact Hsh1|]. split; [|split].
      + intros s q x Hin Hx Hw. rewrite Hsp in Hin. apply in_app_or in Hin.
        destruct Hin as [Hin|[<-|[]]].
        * rewrite HS in Hx.
          destruct (entry_update_Some _ _ _ _ _ _ _ _ _ Hx) as (x0 & Hx0).
          pose proof (Hblank s q x0 Hin Hx0 Hw) as ->.
          rewrite (update_keeps_neg_inf _ _ _ _ _ _ _ _ Hx0) in Hx.
          injection Hx as <-. reflexivity.
        * simpl in Hx, Hw.
          pose proof (entry_shaped _ _ _ _ _ Hsh1 Hx) as Hq.
          rewrite HS, (entry_update d peaks n p A _ n q Hs Hq) in Hx.
          destruct (entry (Greedy.scalar_products st0) n q) as [x0|];
            [|discriminate].
          simpl in Hx. injection Hx as <-. unfold updated. fold L.
          destruct (Z.ltb_spec (- L)%Z (nth q peaks 0 - nth p peaks 0)%Z);
            [|lia].
          destruct (Z.ltb_spec (nth q peaks 0 - nth p peaks 0)%Z L); [|lia].
          simpl. rewrite Nat.eqb_refl. reflexivity.
      + rewrite Hsp, map_app. simpl.
        apply NoDup_app. split; [exact Hnd|]. split.
        * intros k Hk Hk'. apply list_elem_of_In in Hk.
          apply list_elem_of_singleton in Hk'. subst k.
          apply in_map_iff in Hk. destruct Hk as (s & Hkey & Hin).
          unfold key in Hkey. simpl in Hkey. injection Hkey as Hc Ht.
          apply (Hold s Hin Hc). rewrite Ht. unfold L. lia.
        * apply NoDup_singleton.
      + intros s1 s2 H1 H2 Hc Hne. rewrite Hsp in H1, H2.
        apply in_app_or in H1, H2.
        destruct H1 as [H1|[<-|[]]]; destruct H2 as [H2|[<-|[]]].
        * apply Hfar; assumption.
        * simpl in *. pose proof (Hold s1 H1 Hc). lia.
        * simpl in *. pose proof (Hold s2 H2 (eq_sym Hc)). lia.
        * simpl in Hne. congruence.
    - split; [|split; [|split]].
      + simpl. rewrite <- Hlen. apply scores_shaped.
      + intros s q x [].
      + constructor.
      + intros s1 s2 []. }
  destruct Hinv as (_ & _ & Hnd & Hfar).
  split.
  - unfold Greedy.emit.
    apply NoDup_ListNoDup.
    eapply Permutation_NoDup;
      [apply Permutation_map, Permutation_sym, argsort_spikes_perm|].
    rewrite map_map. apply NoDup_ListNoDup. exact Hnd.
  - intros s1 s2 H1 H2 Hc Hne. apply in_emit in H1, H2.
    destruct H1 as (a & Ha & ->). destruct H2 as (b & Hb & ->).
    simpl in *. apply Hfar; assumption.
Qed.

(** ** The margin contract of the Greedy engine *)

Lemma take_drop_rows {A : Type} (l : list A) (dflt : A) (h k : nat) :
  (k + h <= length l)%nat ->
  take h (drop k l) = map (fun i => nth (k + i) l dflt) (seq 0 h).
Proof.
  intros Hk. apply list_eq. intros i.
  rewrite lookup_map, lookup_take, lookup_drop.
  destruct (decide (i < h)%nat) as [Hi|Hi].
  - rewrite lookup_seq_lt by exact Hi. simpl.
    destruct (nth_lookup_or_length l (k + i) dflt) as [Hn|Hn];
      [exact Hn|lia].
  - rewrite lookup_seq_ge by lia. reflexivity.
Qed.

Lemma np_index_in_range (n : nat) (i : Z) :
  (0 <= i < Z.of_nat n)%Z -> Greedy.np_index n i = Some (Z.to_nat i).
Proof.
  intros H. unfold Greedy.np_index.
  destruct (Z.leb_spec 0 i); [|lia].
  destruct (Z.ltb_spec i (Z.of_nat n)); [|lia]. reflexivity.
Qed.

(** The window branch, when every window fits in the trace. *)
Lemma snippets_window_rows (d : Greedy.params) (traces : matrix)
    (peaks : list Z) :
  (forall t, In t peaks ->
     (Z.of_nat (Greedy.nbefore d) <= t)%Z /\
     (t + Z.of_nat (Greedy.nafter d) <= Z.of_nat (length traces))%Z) ->
  Greedy.snippets_window d traces peaks
  = Ok (map (fun t =>
               concat (take (Greedy.num_samples d)
                         (drop (Z.to_nat t - Greedy.nbefore d) traces)))
            peaks).
Proof.
  intros H. unfold Greedy.snippets_window.
  rewrite (mapM_tabulate _
             (fun t => concat (take (Greedy.num_samples d)
                                 (drop (Z.to_nat t - Greedy.nbefore d) traces))));
    [reflexivity|].
  intros t Ht. destruct (H t Ht) as [Hlo Hhi].
  rewrite (mapM_tabulate _
             (fun w => mrow traces (Z.to_nat (t + w)))).
  - simpl. f_equal. f_equal.
    rewrite (take_drop_rows traces [])
      by (unfold Greedy.num_samples; lia).
    unfold Greedy.arange. rewrite map_map.
    replace (Z.to_nat (Z.of_nat (Greedy.nafter d) - - Z.of_nat (Greedy.nbefore d)))
      with (Greedy.num_samples d) by (unfold Greedy.num_samples; lia).
    apply map_ext. intros i. unfold mrow. f_equal. lia.
  - intros w Hw. apply in_arange in Hw.
    rewrite np_index_in_range by lia. reflexivity.
Qed.

(** The patch branch, when every patch start is a valid patch index. *)
Lemma snippets_sym_rows (d : Greedy.params) (traces : matrix)
    (peaks : list Z) :
  ((Greedy.patch_sizes d).1 <= length traces)%nat ->
  (forall u, In u peaks ->
     (0 <= u)%Z /\
     (u + Z.of_nat (Greedy.patch_sizes d).1 <= Z.of_nat (length traces))%Z) ->
  Greedy.snippets_sym d traces peaks
  = Ok (map (fun u =>
               concat (take (Greedy.patch_sizes d).1
                         (drop (Z.to_nat u) traces)))
            peaks).
Proof.
  intros HT H. unfold Greedy.snippets_sym.
  destruct (Nat.ltb_spec (length traces) (Greedy.patch_sizes d).1); [lia|].
  rewrite (mapM_tabulate _
             (fun u => concat (take (Greedy.patch_sizes d).1
                                 (drop (Z.to_nat u) traces))));
    [reflexivity|].
  intros u Hu. destruct (H u Hu) as [Hlo Hhi].
  rewrite np_index_in_range by lia. reflexivity.
Qed.

Lemma expand_peaks_range (d : Greedy.params) (len : nat)
    (peaks chans : list Z) :
  ((Greedy.jitter d <= 0)%Z ->
   forall t, In t peaks -> (0 <= t < Z.of_nat len)%Z) ->
  forall u, In u (Greedy.expand_peaks d len peaks chans).1 ->
    (0 <= u < Z.of_nat len)%Z.
Proof.
  intros H u. unfold Greedy.expand_peaks, Greedy.np_unique.
  destruct (Z.ltb_spec 0 (Greedy.jitter d)) as [HJ|HJ]; cbn [fst].
  - rewrite sort_uniq_in, in_map_iff. intros ([x c] & <- & Hin).
    apply in_jittered in Hin. destruct Hin as (t & j & _ & _ & _ & Hr).
    simpl. lia.
  - rewrite sort_uniq_in. apply H, HJ.
Qed.

Lemma peak_traces_length (d : Greedy.params) (traces : matrix) (m : nat) :
  Greedy.margin d = (2 * m)%nat -> (0 < m)%nat ->
  (2 * m <= length traces)%nat ->
  length (Greedy.peak_traces d traces) = (length traces - 2 * m)%nat.
Proof.
  intros Hm Hpos HT. unfold Greedy.peak_traces. rewrite Hm.
  destruct (Nat.eqb_spec (2 * m) 0); [lia|].
  rewrite length_take, length_drop.
  replace (2 * m / 2)%nat with m by (apply Nat.div_unique_exact; lia).
  replace ((2 * m + 1) / 2)%nat with m
    by (apply (Nat.div_unique _ 2 m 1); lia).
  lia.
Qed.

(** X16.  Under the contract set up by [initialize_and_check_kwargs] and
    [get_margin] (margin [2 * max(nbefore, nafter)], patches of
    [num_samples] rows, [sym_patch] iff [nbefore = nafter]) and for peak
    times [u] of the trimmed trace, both extraction branches return, for
    each peak, the [num_samples] rows of the chunk that start [nbefore]
    rows before the shifted peak [u + margin // 2]; none raises. *)
Theorem greedy_snippets_contract (d : Greedy.params) (traces : matrix)
    (peaks : list Z) :
  Greedy.margin d = get_margin (Greedy.nbefore d) (Greedy.nafter d) ->
  (Greedy.patch_sizes d).1 = Greedy.num_samples d ->
  Greedy.sym_patch d = (Greedy.nbefore d =? Greedy.nafter d)%nat ->
  (Greedy.margin d <= length traces)%nat ->
  (forall u, In u peaks ->
     (0 <= u)%Z /\
     (u + Z.of_nat (Greedy.margin d) <= Z.of_nat (length traces))%Z) ->
  Greedy.snippets d traces peaks
  = Ok (map (fun u =>
               concat (take (Greedy.num_samples d)
                         (drop (Z.to_nat u + Greedy.margin d / 2
                                - Greedy.nbefore d) traces)))
            peaks).
Proof.
  unfold get_margin. intros Hm Hh Hsym HT Hr.
  set (m := Nat.max (Greedy.nbefore d) (Greedy.nafter d)) in *.
  assert (Hhalf : (Greedy.margin d / 2 = m)%nat).
  { rewrite Hm. symmetry. apply Nat.div_unique_exact; lia. }
  unfold Greedy.snippets. rewrite Hsym.
  destruct (Nat.eqb_spec (Greedy.nbefore d) (Greedy.nafter d)) as [Heq|Hne].
  - assert (Hs : Greedy.num_samples d = Greedy.margin d).
    { unfold Greedy.num_samples. lia. }
    rewrite snippets_sym_rows.
    + f_equal. apply map_ext_in. intros u Hu. destruct (Hr u Hu).
      rewrite Hh. do 3 f_equal. lia.
    + rewrite Hh, Hs. exact HT.
    + intros u Hu. destruct (Hr u Hu). rewrite Hh, Hs. lia.
  - rewrite snippets_window_rows.
    + f_equal. unfold Greedy.shift. rewrite map_map.
      apply map_ext_in. intros u Hu. destruct (Hr u Hu).
      do 3 f_equal. lia.
    + intros t Ht. unfold Greedy.shift in Ht. apply in_map_iff in Ht.
      destruct Ht as (u & <- & Hu). destruct (Hr u Hu). lia.
Qed.

Lemma greedy_snippets_contract_witness :
  Greedy.snippets greedy_example greedy_example_trace [1%Z] = Ok [[0; 1]].
Proof.
  apply (greedy_snippets_contract greedy_example greedy_example_trace [1%Z]).
  - reflexivity.
  - reflexivity.
  - reflexivity.
  - simpl. lia.
  - intros u [<-|[]]. simpl. lia.
Defined.

Lemma snippets_in_range (d : Greedy.params) (traces : matrix)
    (peaks : list Z) (m : nat) :
  m = Nat.max (Greedy.nbefore d) (Greedy.nafter d) ->
  Greedy.margin d = (2 * m)%nat ->
  (Greedy.patch_sizes d).1 = Greedy.num_samples d ->
  Greedy.sym_patch d = (Greedy.nbefore d =? Greedy.nafter d)%nat ->
  (2 * m <= length traces)%nat ->
  (forall u, In u peaks ->
     (0 <= u)%Z /\ (u + Z.of_nat (2 * m) <= Z.of_nat (length traces))%Z) ->
  exists sn, Greedy.snippets d traces peaks = Ok sn.
Proof.
  intros Hmax Hm Hh Hsym HT Hr.
  assert (Hhalf : (Greedy.margin d / 2 = m)%nat).
  { rewrite Hm. symmetry. apply Nat.div_unique_exact; lia. }
  unfold Greedy.snippets. rewrite Hsym.
  destruct (Nat.eqb_spec (Greedy.nbefore d) (Greedy.nafter d)) as [Heq|Hne].
  - assert (Hs : Greedy.num_samples d = (2 * m)%nat).
    { unfold Greedy.num_samples. lia. }
    rewrite snippets_sym_rows; [eexists; reflexivity| |].
    + rewrite Hh, Hs. exact HT.
    + intros u Hu. destruct (Hr u Hu). rewrite Hh, Hs. lia.
  - rewrite snippets_window_rows; [eexists; reflexivity|].
    intros t Ht. unfold Greedy.shift in Ht. apply in_map_iff in Ht.
    destruct Ht as (u & <- & Hu). destruct (Hr u Hu). lia.
Qed.

(** X17.  Under the same contract, with templates of at least one
    sample, a chunk at least as long as the margin and (when there is no
    jitter) a detector that reports indices of the trimmed trace,
    [main_function] raises nothing: it returns its detections, each at a
    sample of the chunk at least [margin // 2] away from both ends. *)
Theorem greedy_contract_returns (detect_peaks : matrix -> list Z * list Z)
    (d : Greedy.params) (traces : matrix) (fuel : nat) :
  let pt := Greedy.peak_traces d traces in
  let found := Greedy.expand_peaks d (length pt)
                 (detect_peaks pt).1 (detect_peaks pt).2 in
  Greedy.margin d = get_margin (Greedy.nbefore d) (Greedy.nafter d) ->
  (Greedy.patch_sizes d).1 = Greedy.num_samples d ->
  Greedy.sym_patch d = (Greedy.nbefore d =? Greedy.nafter d)%nat ->
  length (Greedy.templates d) = Greedy.num_templates d ->
  (0 < Greedy.num_samples d)%nat ->
  (Greedy.margin d <= length traces)%nat ->
  ((Greedy.jitter d <= 0)%Z ->
   forall t, In t (detect_peaks pt).1 -> (0 <= t < Z.of_nat (length pt))%Z) ->
  (Greedy.num_templates d * length found.1 < fuel)%nat ->
  exists spikes,
    Greedy.main_function detect_peaks fuel traces d = Ok spikes /\
    forall s, In s spikes ->
      (Z.of_nat (Greedy.margin d / 2) <= sample_index s
       < Z.of_nat (length traces) - Z.of_nat (Greedy.margin d / 2))%Z.
Proof.
  intros pt found. unfold get_margin. intros Hm Hh Hsym HN HL HT Hdet Hfuel.
  set (m := Nat.max (Greedy.nbefore d) (Greedy.nafter d)) in *.
  assert (Hpos : (0 < m)%nat) by (unfold Greedy.num_samples in HL; lia).
  assert (Hhalf : (Greedy.margin d / 2 = m)%nat).
  { rewrite Hm. symmetry. apply Nat.div_unique_exact; lia. }
  assert (Hpt : length pt = (length traces - 2 * m)%nat).
  { apply peak_traces_length; [exact Hm|exact Hpos|lia]. }
  assert (Hr : forall u, In u found.1 ->
            (0 <= u < Z.of_nat (length traces - 2 * m))%Z).
  { rewrite <- Hpt. apply expand_peaks_range, Hdet. }
  destruct (snippets_in_range d traces found.1 m eq_refl Hm Hh Hsym
              ltac:(lia)) as (sn & Hsn).
  { intros u Hu. specialize (Hr u Hu). lia. }
  set (peaks := Greedy.shift d found.1).
  assert (Hs : StronglySorted Z.lt peaks) by apply expand_peaks_sorted.
  assert (Hlp : length peaks = length found.1).
  { unfold peaks, Greedy.shift. apply length_map. }
  assert (Hlen : length sn = length peaks).
  { rewrite (snippets_length _ _ _ _ Hsn). symmetry. exact Hlp. }
  assert (Hsh : shaped (length peaks) (Greedy.scores d sn)).
  { rewrite <- Hlen. apply scores_shaped. }
  assert (Hrows : length (Greedy.scores d sn) = Greedy.num_templates d).
  { destruct sn as [|s0 sn]; simpl.
    - apply repeat_length.
    - rewrite length_map. exact HN. }
  set (size := (length (Greedy.scores d sn) * length found.1)%nat).
  assert (Hinv : greedy_inv (length peaks) size
                   {| Greedy.scalar_products := Greedy.scores d sn;
                      Greedy.spikes := [] |}).
  { split; [exact Hsh|]. simpl. unfold size. rewrite <- Hlp.
    apply finite_count_le, Hsh. }
  destruct (greedy_loop_exits d peaks Hs HL found.2 size fuel _ Hinv)
    as (k & st & _ & _ & _ & Hloop & _).
  { simpl. pose proof (finite_count_le _ _ Hsh) as Hc.
    rewrite Hrows, Hlp in Hc. lia. }
  exists (Greedy.emit d (Greedy.spikes st)). split.
  - unfold Greedy.main_function. fold pt.
    unfold size, peaks, found in Hloop. unfold found in Hsn.
    destruct (detect_peaks pt) as [peaks0 chans0]. cbn [fst snd] in *.
    destruct (Greedy.expand_peaks d (length pt) peaks0 chans0) as [pk ch].
    cbn [fst snd] in *. rewrite Hsn, Hloop. reflexivity.
  - intros s Hin. apply in_emit in Hin. destruct Hin as (s0 & H0 & ->).
    cbn [sample_index].
    destruct (greedy_loop_provenance d peaks found.2 size fuel _ st Hsh Hloop
                s0 H0) as (_ & (p & Hp & Ht & _) & _).
    rewrite Ht. unfold peaks, Greedy.shift.
    rewrite Hlp in Hp.
    destruct (found.1 !! p) as [u|] eqn:Hlk;
      [|apply lookup_ge_None in Hlk; lia].
    rewrite (nth_lookup_Some _ _ _ (u + Z.of_nat (Greedy.margin d / 2))%Z)
      by (rewrite lookup_map, Hlk; reflexivity).
    assert (Hu : In u found.1).
    { apply list_elem_of_In. eapply list_elem_of_lookup_2, Hlk. }
    specialize (Hr u Hu). rewrite !Hhalf. lia.
Qed.

Lemma greedy_contract_returns_witness :
  exists spikes,
    Greedy.main_function greedy_example_detect 2 greedy_example_trace
      greedy_example = Ok spikes /\
    forall s, In s spikes -> (1 <= sample_index s < 5 - 1)%Z.
Proof.
  apply (greedy_contract_returns greedy_example_detect greedy_example
           greedy_example_trace 2).
  - reflexivity.
  - reflexivity.
  - reflexivity.
  - reflexivity.
  - unfold Greedy.num_samples. simpl. lia.
  - simpl. lia.
  - simpl. lia.
  - simpl. lia.
Defined.

(** ** A chunk without peaks *)

(** X18.  When the detector reports no peak the Greedy engine returns an
    empty array after one test of the loop condition, except in the
    [sym_patch] branch on a chunk with fewer rows than a patch, where
    the patch extraction raises [ValueError] although there is nothing
    to extract. *)
Theorem greedy_no_peaks (detect_peaks : matrix -> list Z * list Z)
    (d : Greedy.params) (traces : matrix) (fuel : nat) :
  (detect_peaks (Greedy.peak_traces d traces)).1 = [] ->
  (0 < fuel)%nat ->
  Greedy.main_function detect_peaks fuel traces d
  = if Greedy.sym_patch d && (length traces <? (Greedy.patch_sizes d).1)%nat
    then Raise ValueError else Ok [].
Proof.
  intros Hdet Hfuel. unfold Greedy.main_function.
  destruct (detect_peaks (Greedy.peak_traces d traces)) as [peaks0 chans0].
  simpl in Hdet. subst peaks0.
  assert (Hex : Greedy.expand_peaks d
                  (length (Greedy.peak_traces d traces)) [] chans0 = ([], [])).
  { unfold Greedy.expand_peaks. destruct (0 <? Greedy.jitter d)%Z; reflexivity. }
  rewrite Hex. unfold Greedy.snippets, Greedy.snippets_sym, Greedy.snippets_window.
  destruct (Greedy.sym_patch d); simpl.
  - destruct (length traces <? (Greedy.patch_sizes d).1)%nat; [reflexivity|].
    destruct fuel as [|fuel]; [lia|]. simpl. unfold Greedy.step. simpl.
    rewrite select_best_None; [reflexivity|].
    intros n p x He. rewrite entry_repeat_nil in He. discriminate.
  - destruct fuel as [|fuel]; [lia|]. simpl. unfold Greedy.step. simpl.
    rewrite select_best_None; [reflexivity|].
    intros n p x He. rewrite entry_repeat_nil in He. discriminate.
Qed.

Lemma greedy_no_peaks_witness :
  Greedy.main_function (fun _ => ([], [])) 1 [[0]] greedy_example
  = Raise ValueError.
Proof.
  apply (greedy_no_peaks (fun _ => ([], [])) greedy_example [[0]] 1).
  - reflexivity.
  - lia.
Defined.

(** ** Peak times without jitter *)

Lemma first_index_spec (x : Z) (l : list Z) :
  In x l ->
  l !! Greedy.first_index x l = Some x /\
  forall j, (j < Greedy.first_index x l)%nat -> l !! j <> Some x.
Proof.
  induction l as [|h l IH]; simpl; [tauto|].
  intros H. destruct (Z.eqb_spec h x) as [->|Hne].
  - split; [reflexivity|]. intros j Hj. lia.
  - destruct H as [H|H]; [congruence|].
    destruct (IH H) as [Hl Hfirst]. split; [exact Hl|].
    intros [|j] Hj; simpl; [congruence|]. apply Hfirst. lia.
Qed.

(** X19.  When [jitter <= 0] the peak times [main_function] works on are
    exactly the detected times, without any range filter, in strictly
    increasing order; each carries the channel reported with the first
    occurrence of its time. *)
Theorem expand_peaks_no_jitter (d : Greedy.params) (len : nat)
    (peaks chans : list Z) :
  (Greedy.jitter d <= 0)%Z ->
  let times := (Greedy.expand_peaks d len peaks chans).1 in
  let channels := (Greedy.expand_peaks d len peaks chans).2 in
  (forall x, In x times <-> In x peaks) /\
  StronglySorted Z.lt times /\
  length channels = length times /\
  (forall k x, times !! k = Some x ->
     exists i,
       peaks !! i = Some x /\
       (forall j, (j < i)%nat -> peaks !! j <> Some x) /\
       channels !! k = Some (nth i chans 0%Z)).
Proof.
  intros HJ times channels. unfold times, channels, Greedy.expand_peaks.
  destruct (Z.ltb_spec 0 (Greedy.jitter d)); [lia|].
  unfold Greedy.np_unique. cbn [fst snd].
  split; [|split; [|split]].
  - intros x. apply sort_uniq_in.
  - apply sort_uniq_sorted.
  - rewrite !length_map. reflexivity.
  - intros k x Hk.
    assert (Hx : In x peaks).
    { apply sort_uniq_in, list_elem_of_In. eapply list_elem_of_lookup_2, Hk. }
    destruct (first_index_spec x peaks Hx) as [Hi Hfirst].
    exists (Greedy.first_index x peaks). split; [exact Hi|].
    split; [exact Hfirst|].
    rewrite !lookup_map, Hk. reflexivity.
Qed.

Lemma expand_peaks_no_jitter_witness :
  StronglySorted Z.lt [3%Z; 7%Z].
Proof.
  exact (proj1 (proj2 (expand_peaks_no_jitter
                  {| Greedy.templates := [[1]]; Greedy.num_templates := 1;
                     Greedy.overlaps := [[[1]]]; Greedy.margin := 0;
                     Greedy.norms := [1]; Greedy.jitter := 0;
                     Greedy.patch_sizes := (1%nat, 1%nat);
                     Greedy.nbefore := 0; Greedy.nafter := 1;
                     Greedy.amplitudes := [(1 / 2, 3 / 2)];
                     Greedy.sym_patch := false |}
                  10 [7%Z; 3%Z; 7%Z] [0%Z; 1%Z; 2%Z] ltac:(simpl; lia)))).
Defined.

(** ** The Cholesky factor of the OMP loop *)

Lemma dot_app_short (a b z : vector) :
  (length a <= length b)%nat -> dot a (b ++ z) = dot a b.
Proof.
  revert b; induction a as [|x a IH]; intros [|y b] Hlen; simpl in *;
    try reflexivity; try lia.
  rewrite IH by lia. reflexivity.
Qed.

Lemma split_last_entry (r : vector) (k : nat) :
  length r = S k -> r = take k r ++ [vget r k].
Proof.
  intros Hlen. unfold vget.
  destruct (nth_lookup_or_length r k 0) as [Hk|Hk]; [|lia].
  rewrite <- (take_S_r _ _ _ Hk). symmetry. apply take_ge. lia.
Qed.

(** Forward substitution solves the lower-triangular system. *)
Lemma solve_lower_from_spec (rows : matrix) :
  forall (b x : vector),
    length b = length rows ->
    (forall i r, rows !! i = Some r ->
       length r = S (length x + i) /\ vget r (length x + i) <> 0) ->
    length (solve_lower_from x rows b) = (length x + length rows)%nat /\
    (exists z, solve_lower_from x rows b = x ++ z) /\
    (forall i r, rows !! i = Some r ->
       dot r (solve_lower_from x rows b) = nth i b 0).
Proof.
  induction rows as [|r rows IH]; intros [|bi b] x Hlen Hrows;
    simpl in Hlen; try discriminate.
  - simpl. split; [lia|]. split; [exists []; rewrite app_nil_r; reflexivity|].
    intros i r Hr. discriminate.
  - simpl.
    set (v := (bi - dot r x) / vget r (length x)).
    destruct (Hrows 0%nat r eq_refl) as [Hr Hd].
    rewrite Nat.add_0_r in Hr, Hd.
    destruct (IH b (x ++ [v]) ltac:(lia)) as (Hl & (z & Hz) & Hdot).
    { intros i r' Hr'. rewrite length_app. simpl.
      replace (length x + 1 + i)%nat with (length x + S i)%nat by lia.
      apply Hrows. exact Hr'. }
    split; [rewrite Hl, length_app; simpl; lia|].
    split; [exists ([v] ++ z); rewrite Hz, <- app_assoc; reflexivity|].
    intros [|i] r' Hr'; simpl in Hr'.
    + injection Hr' as <-. simpl. rewrite Hz.
      rewrite dot_app_short by (rewrite length_app; simpl; lia).
      rewrite (split_last_entry r (length x) Hr) at 1.
      rewrite dot_app by (rewrite length_take; lia).
      assert (Hx : dot r x = dot (take (length x) r) x).
      { rewrite (split_last_entry r (length x) Hr) at 1.
        rewrite dot_comm, dot_app_short by (rewrite length_take; lia).
        apply dot_comm. }
      simpl. unfold v. rewrite Hx. field. exact Hd.
    + simpl. apply Hdot. exact Hr'.
Qed.

Lemma solve_lower_spec (Lm : matrix) (b : vector) :
  length b = length Lm ->
  (forall i r, Lm !! i = Some r -> length r = S i /\ vget r i <> 0) ->
  length (solve_lower Lm b) = length Lm /\
  (forall i r, Lm !! i = Some r -> dot r (solve_lower Lm b) = nth i b 0).
Proof.
  intros Hlen Hrows.
  destruct (solve_lower_from_spec Lm b [] Hlen Hrows) as (Hl & _ & Hdot).
  split; [exact Hl|exact Hdot].
Qed.

Lemma lookup_snoc {A : Type} (l : list A) (x y : A) (i : nat) :
  (l ++ [x]) !! i = Some y ->
  ((i < length l)%nat /\ l !! i = Some y) \/ (i = length l /\ y = x).
Proof.
  intros H. destruct (decide (i < length l)%nat) as [Hi|Hi].
  - left. rewrite lookup_app_l in H by exact Hi. split; assumption.
  - right. rewrite lookup_app_r in H by lia.
    destruct (i - length l)%nat as [|k] eqn:Hk; simpl in H; [|discriminate].
    injection H as <-. split; [lia|reflexivity].
Qed.

Lemma gram_row_entries (d : OMP.params) (sel : list (nat * nat)) (n p : nat) :
  OMP.gram_row d sel n p = map (gram_entry d (n, p)) sel.
Proof. reflexivity. Qed.

Lemma nrm2_sqr (x : vector) : nrm2 x ^ 2 = dot x x.
Proof.
  unfold nrm2. simpl. rewrite Rmult_1_r. apply sqrt_sqrt, dot_self_nonneg.
Qed.

Lemma omp_tol_pos : 0 < omp_tol.
Proof. unfold omp_tol. apply Rinv_0_lt_compat. lra. Qed.

(** The new row keeps [M] a Cholesky factor of the extended selection. *)
Lemma cholesky_row_extends (d : OMP.params) (st : OMP.state) (n p : nat)
    (row : vector) :
  OMP.vicinity d = 0%Z ->
  cholesky_of d (OMP.selection st) (OMP.M st) ->
  OMP.cholesky_row d st n p = Some row ->
  cholesky_of d (OMP.selection st ++ [(n, p)]) (OMP.M st ++ [row]).
Proof.
  intros Hv (Hlen & Hrows & Hgram) Hrow.
  assert (Hnew :
    length row = S (length (OMP.M st)) /\
    0 < vget row (length (OMP.M st)) /\ dot row row = 1 /\
    forall j rj b, OMP.M st !! j = Some rj ->
      OMP.selection st !! j = Some b ->
      dot row rj = gram_entry d (n, p) b).
  { unfold OMP.cholesky_row, OMP.candidate, OMP.num_selection in Hrow.
    destruct (Nat.eqb_spec (length (OMP.selection st)) 0) as [H0|H0].
    - injection Hrow as <-. rewrite Hlen, H0. simpl.
      split; [reflexivity|]. split; [unfold vget; simpl; lra|].
      split; [ring|].
      intros j rj b Hj. apply lookup_lt_Some in Hj. lia.
    - rewrite Hv in Hrow. cbn [Z.eqb] in Hrow. cbv beta iota zeta in Hrow.
      set (g := OMP.gram_row d (OMP.selection st) n p) in *.
      set (x := solve_lower (OMP.M st) g) in *.
      destruct (Rleb (1 - nrm2 x ^ 2) omp_tol) eqn:Htol; [discriminate|].
      injection Hrow as <-. apply Rleb_false in Htol.
      pose proof omp_tol_pos as Hpos.
      change (nrm2 x * (nrm2 x * 1)) with (nrm2 x ^ 2).
      rewrite nrm2_sqr in *.
      destruct (solve_lower_spec (OMP.M st) g) as [Hlx Hdot].
      { unfold g. rewrite gram_row_entries, length_map. symmetry; exact Hlen. }
      { intros i r Hr. destruct (Hrows i r Hr) as (Hl & Hd & _).
        split; [exact Hl|lra]. }
      fold x in Hlx, Hdot.
      split; [rewrite length_app, Hlx; simpl; lia|].
      split; [|split].
      + unfold vget. rewrite <- Hlx, nth_middle. apply sqrt_lt_R0. lra.
      + rewrite dot_app by reflexivity. simpl.
        rewrite Rplus_0_r, sqrt_sqrt by lra. ring.
      + intros j rj b Hj Hb.
        destruct (Hrows j rj Hj) as (Hl & _ & _).
        pose proof (lookup_lt_Some _ _ _ Hj) as Hjlt.
        rewrite dot_comm, dot_app_short by lia.
        rewrite (Hdot j rj Hj). unfold g. rewrite gram_row_entries.
        apply nth_lookup_Some. rewrite lookup_map, Hb. reflexivity. }
  destruct Hnew as (Hl & Hd & Hn & Hg).
  split; [rewrite !length_app, Hlen; reflexivity|]. split.
  - intros i r Hr. apply lookup_snoc in Hr.
    destruct Hr as [[_ Hr]|[-> ->]]; [apply Hrows, Hr|].
    split; [exact Hl|]. split; [exact Hd|exact Hn].
  - intros i j ri rj a b Hji Hi Hj Ha Hb.
    apply lookup_snoc in Hi, Hj, Ha, Hb.
    destruct Hj as [[Hjlt Hj]|[-> ->]].
    + destruct Hb as [[_ Hb]|[Hb _]]; [|lia].
      destruct Hi as [[Hilt Hi]|[-> ->]].
      * destruct Ha as [[_ Ha]|[Ha _]]; [|lia].
        apply (Hgram i j ri rj a b); assumption.
      * destruct Ha as [[Ha _]|[_ ->]]; [lia|].
        apply (Hg j rj b); assumption.
    + destruct Hi as [[Hilt _]|[-> _]]; lia.
Qed.

(** X20.  With [vicinity = 0] the matrix [M] the OMP loop builds (the
    triangular solve overwriting the new row in place, as
    [overwrite_b=True] asks) is, at every exit, a lower Cholesky factor
    of the Gram matrix of the selected atoms: row [i] has [i + 1]
    entries, a positive diagonal and unit norm, and the product of rows
    [i > j] is the overlap the source looked up for atoms [i] and
    [j]. *)
Theorem omp_cholesky_factor (d : OMP.params) (sps : list (list score))
    (P N fuel : nat) (st : OMP.state) :
  OMP.vicinity d = 0%Z ->
  OMP.loop fuel d sps P (OMP.init_state N P sps) = Ok st ->
  cholesky_of d (OMP.selection st) (OMP.M st).
Proof.
  intros Hv. apply (omp_loop_invariant d sps P
                      (fun st => cholesky_of d (OMP.selection st) (OMP.M st))).
  - intros st0 st1 Hinv Hstep. apply omp_step_Next in Hstep.
    destruct Hstep as (n & p & x & row & _ & Hrow & HM & Hsel & _).
    rewrite HM, Hsel. apply cholesky_row_extends; assumption.
  - split; [reflexivity|]. split.
    + intros i row Hr. discriminate.
    + intros i j ri rj a b _ Hi. discriminate.
Qed.

Lemma dependent_example_loop :
  OMP.loop 2 dependent_example [[Fin 1]] 1 (OMP.init_state 1 1 [[Fin 1]])
  = Ok dependent_example_state.
Proof.
  apply (omp_loop_iterate dependent_example [[Fin 1]] 1 1 2 _
           dependent_example_state).
  - simpl. rewrite dependent_example_step. reflexivity.
  - left. eapply omp_step_dependent.
    + exact dependent_example_select.
    + reflexivity.
    + exact dependent_example_Lkk.
  - lia.
Qed.

Lemma omp_cholesky_factor_witness :
  cholesky_of dependent_example [(0%nat, 0%nat)] [[1]].
Proof.
  exact (omp_cholesky_factor dependent_example [[Fin 1]] 1 1 2
           dependent_example_state eq_refl dependent_example_loop).
Defined.

(** ** The amplitudes of the OMP loop solve the normal equations *)

Lemma Rsum_map_ext_in {A : Type} (f g : A -> R) (l : list A) :
  (forall x, In x l -> f x = g x) -> Rsum (map f l) = Rsum (map g l).
Proof. intros H. f_equal. apply map_ext_in, H. Qed.

Lemma Rsum_map_mult {A : Type} (c : R) (f : A -> R) (l : list A) :
  Rsum (map (fun x => c * f x) l) = c * Rsum (map f l).
Proof. induction l as [|x l IH]; simpl; [ring|]. rewrite IH. ring. Qed.

Lemma Rsum_map_plus {A : Type} (f g : A -> R) (l : list A) :
  Rsum (map (fun x => f x + g x) l) = Rsum (map f l) + Rsum (map g l).
Proof. induction l as [|x l IH]; simpl; [ring|]. rewrite IH. ring. Qed.

Lemma Rsum_map_zero {A : Type} (f : A -> R) (l : list A) :
  (forall x, In x l -> f x = 0) -> Rsum (map f l) = 0.
Proof.
  induction l as [|x l IH]; intros H; simpl; [reflexivity|].
  rewrite (H x (or_introl eq_refl)), IH; [ring|].
  intros y Hy. apply H. right; exact Hy.
Qed.

Lemma Rsum_app (l k : list R) : Rsum (l ++ k) = Rsum l + Rsum k.
Proof. induction l as [|x l IH]; simpl; [ring|]. rewrite IH. ring. Qed.

Lemma Rsum_exchange {A B : Type} (f : A -> B -> R) (la : list A) (lb : list B) :
  Rsum (map (fun a => Rsum (map (fun b => f a b) lb)) la)
  = Rsum (map (fun b => Rsum (map (fun a => f a b) la)) lb).
Proof.
  induction la as [|a la IH]; simpl.
  - symmetry. apply Rsum_map_zero. reflexivity.
  - rewrite IH, <- Rsum_map_plus. reflexivity.
Qed.

Lemma vget_nil (j : nat) : vget [] j = 0.
Proof. unfold vget. destruct j; reflexivity. Qed.

(** A dot product as a sum over indices; entries past the end of a
    vector read as [0]. *)
Lemma dot_as_sum (r y : vector) :
  forall k, (Nat.min (length r) (length y) <= k)%nat ->
    dot r y = Rsum (map (fun j => vget r j * vget y j) (seq 0 k)).
Proof.
  revert y; induction r as [|a r IH]; intros y k Hk.
  - simpl. symmetry. apply Rsum_map_zero. intros j _.
    rewrite vget_nil. ring.
  - destruct y as [|b y].
    + simpl. symmetry. apply Rsum_map_zero. intros j _.
      rewrite vget_nil. ring.
    + destruct k as [|k]; [simpl in Hk; lia|].
      simpl. rewrite <- seq_shift, map_map. unfold vget at 1 2. simpl.
      rewrite (IH y k) by (simpl in Hk; lia). reflexivity.
Qed.

Lemma dot_map_drop (f : nat -> R) (x : vector) (n a : nat) :
  dot (map f (seq a n)) (drop a x)
  = Rsum (map (fun j => f j * vget x j) (seq a n)).
Proof.
  revert a; induction n as [|n IH]; intros a; [reflexivity|].
  simpl. destruct (x !! a) as [v|] eqn:Hv.
  - rewrite (drop_S _ _ _ Hv). simpl. rewrite IH.
    unfold vget at 2. rewrite (nth_lookup_Some _ _ _ _ Hv). reflexivity.
  - rewrite drop_ge by (apply lookup_ge_None, Hv). simpl.
    apply lookup_ge_None in Hv. unfold vget at 1.
    rewrite nth_overflow by lia. rewrite Rmult_0_r, Rplus_0_l.
    symmetry. apply Rsum_map_zero. intros j Hj. apply in_seq in Hj.
    unfold vget. rewrite nth_overflow by lia. ring.
Qed.

(** Back substitution solves the transposed system. *)
Lemma solve_upper_from_spec (Lm : matrix) (y : vector) (k : nat) :
  forall (i : nat) (xs : vector),
    (i + length xs = k)%nat ->
    (forall i', (i' < i)%nat -> mget Lm i' i' <> 0) ->
    length (solve_upper_from Lm y i xs) = k /\
    drop i (solve_upper_from Lm y i xs) = xs /\
    (forall i', (i' < i)%nat ->
       Rsum (map (fun j => mget Lm j i' * vget (solve_upper_from Lm y i xs) j)
                 (seq i' (k - i')))
       = vget y i').
Proof.
  induction i as [|i IH]; intros xs Hk Hd.
  - simpl. split; [lia|]. split; [reflexivity|]. intros i' Hi'. lia.
  - simpl.
    set (col := map (fun j => mget Lm j i) (seq (S i) (length xs))).
    set (v := (vget y i - dot col xs) / mget Lm i i).
    destruct (IH (v :: xs) ltac:(simpl; lia) ltac:(intros; apply Hd; lia))
      as (Hl & Hdrop & Hsum).
    set (x := solve_upper_from Lm y i (v :: xs)) in *.
    assert (Hv : x !! i = Some v).
    { rewrite <- (Nat.add_0_r i), <- lookup_drop, Hdrop. reflexivity. }
    assert (Hxs : drop (S i) x = xs).
    { rewrite (drop_S _ _ _ Hv) in Hdrop. injection Hdrop as ->. reflexivity. }
    split; [exact Hl|]. split; [exact Hxs|].
    intros i' Hi'. destruct (decide (i' = i)) as [->|Hne].
    + replace (k - i)%nat with (S (length xs)) by lia. cbn [seq map Rsum].
      unfold vget at 1. rewrite (nth_lookup_Some _ _ _ _ Hv).
      rewrite <- (dot_map_drop (fun j => mget Lm j i) x), Hxs.
      fold col. unfold v. field. apply Hd. lia.
    + apply Hsum. lia.
Qed.

Lemma mrow_lookup (A : matrix) (i : nat) (r : vector) :
  A !! i = Some r -> mrow A i = r.
Proof. intros H. unfold mrow. apply nth_lookup_Some, H. Qed.

Lemma cholesky_gram_sym (d : OMP.params) (sel : list (nat * nat)) (M : matrix)
    (i j : nat) :
  cholesky_of d sel M -> (i < length sel)%nat -> (j < length sel)%nat ->
  dot (mrow M i) (mrow M j) = gram_sym d sel i j.
Proof.
  intros (Hlen & Hrows & Hgram) Hi Hj.
  destruct (lookup_lt_is_Some_2 M i ltac:(lia)) as [ri Hri].
  destruct (lookup_lt_is_Some_2 M j ltac:(lia)) as [rj Hrj].
  destruct (lookup_lt_is_Some_2 sel i Hi) as [a Ha].
  destruct (lookup_lt_is_Some_2 sel j Hj) as [b Hb].
  rewrite (mrow_lookup _ _ _ Hri), (mrow_lookup _ _ _ Hrj).
  unfold gram_sym.
  rewrite (nth_lookup_Some _ _ (0, 0)%nat _ Ha).
  rewrite (nth_lookup_Some _ _ (0, 0)%nat _ Hb).
  destruct (Nat.eqb_spec i j) as [->|Hne].
  - rewrite Hri in Hrj. injection Hrj as <-. apply (Hrows j ri Hri).
  - destruct (Nat.ltb_spec j i).
    + apply (Hgram i j ri rj a b); assumption.
    + rewrite dot_comm. apply (Hgram j i rj ri b a); try assumption. lia.
Qed.

(** With a Cholesky factor of the selection, the two triangular solves
    of [potrs] solve the Gram system. *)
Lemma potrs_gram (d : OMP.params) (sel : list (nat * nat)) (M : matrix)
    (b : vector) :
  cholesky_of d sel M -> length b = length sel ->
  length (potrs M b) = length sel /\
  forall i, (i < length sel)%nat ->
    Rsum (map (fun j => gram_sym d sel i j * vget (potrs M b) j)
              (seq 0 (length sel)))
    = vget b i.
Proof.
  intros HM Hb. pose proof HM as (Hlen & Hrows & _).
  set (k := length sel) in *.
  assert (Hlow : forall i r, M !! i = Some r ->
            length r = S i /\ vget r i <> 0).
  { intros i r Hr. destruct (Hrows i r Hr) as (Hl & Hd & _).
    split; [exact Hl|lra]. }
  destruct (solve_lower_spec M b ltac:(lia) Hlow) as [Hly Hy].
  unfold potrs. set (y := solve_lower M b) in *.
  assert (Hdiag : forall i, (i < length y)%nat -> mget M i i <> 0).
  { intros i Hi. destruct (lookup_lt_is_Some_2 M i ltac:(lia)) as [r Hr].
    unfold mget. rewrite (mrow_lookup _ _ _ Hr). apply (Hlow i r Hr). }
  destruct (solve_upper_from_spec M y (length y) (length y) []
              ltac:(simpl; lia) Hdiag) as (Hlx & _ & Hx).
  set (x := solve_upper_from M y (length y) []) in *.
  split; [lia|].
  assert (Hcol : forall l, (l < k)%nat ->
            Rsum (map (fun j => mget M j l * vget x j) (seq 0 k)) = vget y l).
  { intros l Hl. rewrite <- (Hx l ltac:(lia)).
    replace k with (l + (k - l))%nat at 1 by lia.
    rewrite seq_app, map_app, Rsum_app, Rsum_map_zero; [|].
    - rewrite Hly, Hlen. simpl. ring.
    - intros j Hj. apply in_seq in Hj.
      destruct (lookup_lt_is_Some_2 M j ltac:(lia)) as [r Hr].
      unfold mget. rewrite (mrow_lookup _ _ _ Hr).
      destruct (Hlow j r Hr) as [Hlr _].
      unfold vget at 1. rewrite nth_overflow by lia. ring. }
  intros i Hi.
  destruct (lookup_lt_is_Some_2 M i ltac:(lia)) as [ri Hri].
  destruct (Hlow i ri Hri) as [Hlri _].
  transitivity (dot ri y).
  - rewrite (dot_as_sum ri y k) by lia.
    rewrite (Rsum_map_ext_in
               (fun l => vget ri l * vget y l)
               (fun l => Rsum (map (fun j => mget M i l * mget M j l * vget x j)
                                   (seq 0 k)))).
    + rewrite Rsum_exchange. apply Rsum_map_ext_in. intros j Hj.
      apply in_seq in Hj.
      rewrite <- (cholesky_gram_sym d sel M i j HM) by (fold k; lia).
      rewrite (dot_as_sum (mrow M i) (mrow M j) k).
      * rewrite Rmult_comm, <- Rsum_map_mult.
        apply Rsum_map_ext_in. intros l _. unfold mget. ring.
      * rewrite (mrow_lookup _ _ _ Hri). lia.
    + intros l Hl. apply in_seq in Hl.
      rewrite <- (Hcol l ltac:(lia)), <- Rsum_map_mult.
      apply Rsum_map_ext_in. intros j _.
      unfold mget. rewrite (mrow_lookup _ _ _ Hri). ring.
  - rewrite (Hy i ri Hri). reflexivity.
Qed.

Lemma entry_mset {A : Type} (S : list (list A)) (i j n p : nat) (v : A) :
  entry (mset S i j v) n p
  = if decide (i = n /\ j = p) then (fun _ => v) <$> entry S n p
    else entry S n p.
Proof.
  unfold entry, mset. destruct (decide (i = n)) as [->|Hne].
  - rewrite list_lookup_alter_eq. destruct (S !! n) as [row|]; simpl.
    + rewrite list_lookup_insert.
      destruct (decide (j = p)) as [->|Hjp].
      * destruct (decide (n = n /\ p = p)) as [_|Hc]; [|tauto].
        destruct (decide (p = p /\ (p < length row)%nat)) as [[_ Hp]|Hp].
        -- destruct (lookup_lt_is_Some_2 row p Hp) as [x ->]. reflexivity.
        -- rewrite (proj2 (lookup_ge_None row p)) by lia.
           reflexivity.
      * destruct (decide (j = p /\ (j < length row)%nat)) as [[Hc _]|_];
          [contradiction|].
        destruct (decide (n = n /\ j = p)) as [[_ Hc]|_]; [contradiction|].
        reflexivity.
    + destruct (decide (n = n /\ j = p)); reflexivity.
  - rewrite list_lookup_alter_ne by exact Hne.
    destruct (decide (i = n /\ j = p)) as [[Hc _]|_]; [contradiction|].
    reflexivity.
Qed.

Lemma entry_fold_mset_other {A : Type} (es : list (A * (nat * nat)))
    (S : list (list A)) (n p : nat) :
  (forall e, In e es -> e.2 <> (n, p)) ->
  entry (fold_left (fun S (e : A * (nat * nat)) => mset S e.2.1 e.2.2 e.1) es S)
        n p
  = entry S n p.
Proof.
  revert S; induction es as [|e es IH]; intros S H; [reflexivity|].
  simpl. rewrite IH by (intros e' He'; apply H; right; exact He').
  rewrite entry_mset.
  destruct (decide (e.2.1 = n /\ e.2.2 = p)) as [[H1 H2]|_]; [|reflexivity].
  exfalso. apply (H e (or_introl eq_refl)).
  destruct e as [v [a b]]. simpl in *. congruence.
Qed.

(** After [final_amplitudes[selection[0], selection[1]] = all_amplitudes]
    on distinct positions, each position holds its amplitude. *)
Lemma entry_fold_mset {A : Type} (sel : list (nat * nat)) :
  forall (amps : list A) (S : list (list A)) (i : nat) (a : nat * nat) (v : A),
    NoDup sel -> sel !! i = Some a -> amps !! i = Some v ->
    is_Some (entry S a.1 a.2) ->
    entry (fold_left (fun S (e : A * (nat * nat)) => mset S e.2.1 e.2.2 e.1)
                     (combine amps sel) S) a.1 a.2
    = Some v.
Proof.
  induction sel as [|s sel IH]; intros amps S i a v Hnd Ha Hv HS;
    [discriminate|].
  destruct amps as [|v0 amps]; [discriminate|].
  apply NoDup_cons in Hnd. destruct Hnd as [Hs Hnd].
  simpl. destruct i as [|i]; simpl in Ha, Hv.
  - injection Ha as ->. injection Hv as ->.
    rewrite entry_fold_mset_other.
    + rewrite entry_mset.
      destruct (decide (a.1 = a.1 /\ a.2 = a.2)) as [_|Hc]; [|tauto].
      destruct HS as [x ->]. reflexivity.
    + intros [v' b] He Heq. simpl in Heq. subst b.
      apply in_combine_r in He. apply Hs, list_elem_of_In. destruct a. exact He.
  - apply (IH amps _ i a v Hnd Ha Hv).
    rewrite entry_mset.
    destruct (decide (s.1 = a.1 /\ s.2 = a.2)); [|exact HS].
    destruct HS as [x ->]. eexists; reflexivity.
Qed.

Lemma mget_entry (A : matrix) (n p : nat) (v : R) :
  entry A n p = Some v -> mget A n p = v.
Proof.
  unfold entry, mget, mrow, vget.
  destruct (A !! n) as [row|] eqn:Hrow; [|discriminate]. simpl. intros Hp.
  rewrite (nth_lookup_Some _ _ _ _ Hrow). apply nth_lookup_Some, Hp.
Qed.

Lemma entry_is_Some {A : Type} (P : nat) (S : list (list A)) (n p : nat) :
  shaped P S -> (n < length S)%nat -> (p < P)%nat -> is_Some (entry S n p).
Proof.
  intros Hsh Hn Hp. unfold entry.
  destruct (lookup_lt_is_Some_2 S n Hn) as [row Hrow]. rewrite Hrow. simpl.
  apply lookup_lt_is_Some_2.
  eapply Forall_lookup_1 in Hsh; [|exact Hrow]. simpl in Hsh. lia.
Qed.

Lemma initial_scores_shape (d : OMP.params) (traces : matrix)
    (sps : list (list score)) :
  OMP.initial_scores d traces = Ok sps ->
  length sps = OMP.num_templates d /\
  shaped (length traces + 1 - OMP.num_samples d) sps.
Proof.
  intros H. destruct (initial_scores_inv d traces sps H) as [_ ->].
  unfold OMP.ignore, OMP.convolve. split.
  - rewrite length_imap, length_map, length_seq. reflexivity.
  - apply Forall_lookup_2. intros n row Hrow.
    rewrite list_lookup_imap, lookup_map in Hrow.
    destruct (seq 0 (OMP.num_templates d) !! n) as [m|]; [|discriminate].
    simpl in Hrow.
    destruct (existsb _ _); injection Hrow as <-;
      rewrite !length_map, length_seq; reflexivity.
Qed.

Lemma omp_step_amplitudes (d : OMP.params) (sps : list (list score)) (P : nat)
    (st st' : OMP.state) :
  OMP.step d sps P st = OMP.Next st' ->
  exists n p x row,
    select_best (OMP.is_valid d) (OMP.scalar_products st) = Some (n, p, x) /\
    OMP.cholesky_row d st n p = Some row /\
    OMP.M st' = OMP.M st ++ [row] /\
    OMP.selection st' = OMP.selection st ++ [(n, p)] /\
    OMP.final_amplitudes st'
    = fold_left (fun A (e : R * (nat * nat)) => mset A e.2.1 e.2.2 e.1)
        (combine
           (map (fun e : R * (nat * nat) => e.1 / vget (OMP.norms d) e.2.1)
              (combine
                 (potrs (OMP.M st')
                    (map (fun s : nat * nat =>
                            score_val (nth s.2 (nth s.1 sps []) NegInf))
                         (OMP.selection st')))
                 (OMP.selection st')))
           (OMP.selection st'))
        (OMP.final_amplitudes st).
Proof.
  unfold OMP.step.
  destruct (select_best _ _) as [[[n p] x]|] eqn:Hsel; [|discriminate].
  destruct (OMP.cholesky_row d st n p) as [row|] eqn:Hrow; [|discriminate].
  destruct (_ <=? _)%nat; [discriminate|].
  intros Heq; injection Heq as <-. exists n, p, x, row. cbn.
  repeat split; try reflexivity. exact Hrow.
Qed.

Lemma combine_lookup {A B : Type} (l : list A) (k : list B) (j : nat)
    (x : A) (y : B) :
  l !! j = Some x -> k !! j = Some y -> combine l k !! j = Some (x, y).
Proof.
  revert k j; induction l as [|a l IH]; intros [|b k] [|j] Hx Hy;
    simpl in *; try discriminate.
  - congruence.
  - apply IH; assumption.
Qed.

Lemma mset_fold_shape {A : Type} (P : nat) (es : list (A * (nat * nat)))
    (S : list (list A)) :
  shaped P S ->
  length (fold_left (fun S (e : A * (nat * nat)) => mset S e.2.1 e.2.2 e.1) es S)
  = length S /\
  shaped P (fold_left (fun S (e : A * (nat * nat)) => mset S e.2.1 e.2.2 e.1)
                      es S).
Proof.
  revert S; induction es as [|e es IH]; intros S Hsh; [split; auto|].
  simpl. destruct (IH (mset S e.2.1 e.2.2 e.1)) as [Hl Hs].
  - apply shaped_mset, Hsh.
  - rewrite Hl, length_mset. split; [reflexivity|exact Hs].
Qed.

Lemma subtract_fold_shape (d : OMP.params) (P Q : nat)
    (mods : list (R * (nat * nat))) (S : list (list score)) :
  shaped Q S ->
  length (fold_left (fun S (e : R * (nat * nat)) =>
                       OMP.subtract d P e.2.1 e.2.2
                         (e.1 * vget (OMP.norms d) e.2.1) S) mods S)
  = length S /\
  shaped Q (fold_left (fun S (e : R * (nat * nat)) =>
                         OMP.subtract d P e.2.1 e.2.2
                           (e.1 * vget (OMP.norms d) e.2.1) S) mods S).
Proof.
  revert S; induction mods as [|e mods IH]; intros S Hsh; [split; auto|].
  simpl.
  destruct (IH (OMP.subtract d P e.2.1 e.2.2
                  (e.1 * vget (OMP.norms d) e.2.1) S)) as [Hl Hs].
  - unfold OMP.subtract. apply shaped_update_cols, Hsh.
  - rewrite Hl. unfold OMP.subtract, update_cols. rewrite length_imap.
    split; [reflexivity|exact Hs].
Qed.

(** X21.  With [vicinity = 0], when the OMP loop exits with pairwise
    distinct selected atoms (and non-zero norms for their templates),
    the amplitudes it leaves in [final_amplitudes], scaled back by the
    norms, solve the normal equations of the selection: for every
    selected atom, the Gram-weighted sum of the amplitudes equals the
    atom's initial score. *)
Theorem omp_normal_equations (d : OMP.params) (traces : matrix)
    (sps : list (list score)) (fuel : nat) (st : OMP.state) :
  let P := (length traces + 1 - OMP.num_samples d)%nat in
  let sel := OMP.selection st in
  OMP.vicinity d = 0%Z ->
  OMP.initial_scores d traces = Ok sps ->
  OMP.loop fuel d sps P (OMP.init_state (OMP.num_templates d) P sps) = Ok st ->
  NoDup sel ->
  (forall a, In a sel -> vget (OMP.norms d) a.1 <> 0) ->
  forall i a, sel !! i = Some a ->
    Rsum (map (fun j =>
                 let b := nth j sel (0, 0)%nat in
                 gram_sym d sel i j
                 * (mget (OMP.final_amplitudes st) b.1 b.2
                    * vget (OMP.norms d) b.1))
              (seq 0 (length sel)))
    = score_val (nth a.2 (nth a.1 sps []) NegInf).
Proof.
  intros P sel Hv Hs Hl. unfold sel. clear sel.
  destruct (initial_scores_shape d traces sps Hs) as [HN0 Hsh0]. fold P in Hsh0.
  set (N := OMP.num_templates d) in *.
  set (NE := fun st : OMP.state =>
    NoDup (OMP.selection st) ->
    (forall a, In a (OMP.selection st) -> vget (OMP.norms d) a.1 <> 0) ->
    forall i a, OMP.selection st !! i = Some a ->
      Rsum (map (fun j =>
                   let b := nth j (OMP.selection st) (0, 0)%nat in
                   gram_sym d (OMP.selection st) i j
                   * (mget (OMP.final_amplitudes st) b.1 b.2
                      * vget (OMP.norms d) b.1))
                (seq 0 (length (OMP.selection st))))
      = score_val (nth a.2 (nth a.1 sps []) NegInf)).
  enough (Hinv :
    cholesky_of d (OMP.selection st) (OMP.M st) /\
    (length (OMP.scalar_products st) = N /\
     shaped P (OMP.scalar_products st)) /\
    (length (OMP.final_amplitudes st) = N /\
     shaped P (OMP.final_amplitudes st)) /\
    (forall a, In a (OMP.selection st) -> (a.1 < N)%nat /\ (a.2 < P)%nat) /\
    NE st) by apply Hinv.
  revert Hl.
  apply (omp_loop_invariant d sps P
           (fun st =>
              cholesky_of d (OMP.selection st) (OMP.M st) /\
              (length (OMP.scalar_products st) = N /\
               shaped P (OMP.scalar_products st)) /\
              (length (OMP.final_amplitudes st) = N /\
               shaped P (OMP.final_amplitudes st)) /\
              (forall a, In a (OMP.selection st) ->
                 (a.1 < N)%nat /\ (a.2 < P)%nat) /\
              NE st)).
  - intros st0 st1 (Hch & [HSl HSs] & [HAl HAs] & Hrange & _) Hstep.
    pose proof (omp_step_Next _ _ _ _ _ Hstep)
      as (n0 & p0 & x0 & row0 & _ & _ & _ & _ & _ & (mods & HS1)).
    apply omp_step_amplitudes in Hstep.
    destruct Hstep as (n & p & x & row & Hsel & Hrow & HM & Hsel1 & Hfa).
    apply select_best_Some in Hsel. destruct Hsel as [He _].
    assert (Hch1 : cholesky_of d (OMP.selection st1) (OMP.M st1)).
    { rewrite HM, Hsel1. apply cholesky_row_extends; assumption. }
    assert (Hrange1 : forall a, In a (OMP.selection st1) ->
              (a.1 < N)%nat /\ (a.2 < P)%nat).
    { intros a Ha. rewrite Hsel1 in Ha. apply in_app_or in Ha.
      destruct Ha as [Ha|[<-|[]]]; [apply Hrange, Ha|]. simpl. split.
      - rewrite <- HSl. eapply entry_row_lt, He.
      - apply (entry_shaped _ _ _ _ _ HSs He). }
    split; [exact Hch1|]. split; [|split; [|split; [exact Hrange1|]]].
    + rewrite HS1. destruct (subtract_fold_shape d P P mods _ HSs) as [-> Hs1].
      split; assumption.
    + rewrite Hfa.
      destruct (mset_fold_shape P
                  (combine
                     (map (fun e : R * (nat * nat) =>
                             e.1 / vget (OMP.norms d) e.2.1)
                        (combine
                           (potrs (OMP.M st1)
                              (map (fun s : nat * nat =>
                                      score_val (nth s.2 (nth s.1 sps []) NegInf))
                                   (OMP.selection st1)))
                           (OMP.selection st1)))
                     (OMP.selection st1))
                  _ HAs) as [-> Hs1].
      split; assumption.
    + intros Hnd Hnorm i a Ha.
      set (sel := OMP.selection st1) in *.
      set (res := map (fun s : nat * nat =>
                         score_val (nth s.2 (nth s.1 sps []) NegInf)) sel) in *.
      set (z := potrs (OMP.M st1) res) in *.
      destruct (potrs_gram d sel (OMP.M st1) res Hch1) as [Hlz Hz].
      { unfold res. apply length_map. }
      fold z in Hlz, Hz.
      pose proof (lookup_lt_Some _ _ _ Ha) as Hi.
      transitivity (vget res i).
      * rewrite <- (Hz i Hi). apply Rsum_map_ext_in. intros j Hj.
        apply in_seq in Hj. cbv zeta.
        destruct (lookup_lt_is_Some_2 sel j ltac:(lia)) as [b Hb].
        destruct (lookup_lt_is_Some_2 z j ltac:(lia)) as [zj Hzj].
        rewrite (nth_lookup_Some _ _ (0, 0)%nat _ Hb).
        assert (Hbin : In b sel).
        { apply list_elem_of_In. eapply list_elem_of_lookup_2, Hb. }
        destruct (Hrange1 b Hbin) as [Hb1 Hb2].
        assert (Hent : entry (OMP.final_amplitudes st1) b.1 b.2
                       = Some (zj / vget (OMP.norms d) b.1)).
        { rewrite Hfa. apply (entry_fold_mset sel _ _ j b); try assumption.
          - rewrite lookup_map, (combine_lookup _ _ _ _ _ Hzj Hb). reflexivity.
          - apply (entry_is_Some P); [exact HAs|lia|exact Hb2]. }
        rewrite (mget_entry _ _ _ _ Hent).
        unfold vget at 3. rewrite (nth_lookup_Some _ _ _ _ Hzj).
        f_equal. field. apply Hnorm, Hbin.
      * unfold vget. apply nth_lookup_Some. unfold res.
        rewrite lookup_map, Ha. reflexivity.
  - split; [|split; [|split; [|split]]].
    + split; [reflexivity|]. split.
      * intros i row Hr. discriminate.
      * intros i j ri rj a b _ Hi. discriminate.
    + split; assumption.
    + simpl. split; [apply repeat_length|].
      apply List.Forall_forall. intros row Hrow.
      apply repeat_spec in Hrow. subst row. apply repeat_length.
    + intros a [].
    + intros _ _ i a Ha. discriminate.
Qed.

Lemma omp_normal_equations_witness :
  gram_sym dependent_example [(0%nat, 0%nat)] 0 0 * (1 * 1) + 0 = 1.
Proof.
  apply (omp_normal_equations dependent_example [[1]; [0]] [[Fin 1]] 2
           dependent_example_state eq_refl dependent_example_scores
           dependent_example_loop
           ltac:(apply NoDup_singleton)
           ltac:(intros a [<-|[]]; simpl; unfold vget; simpl; lra)
           0%nat (0%nat, 0%nat) eq_refl).
Defined.

(** ** No duplicate detections from the OMP engine *)

Lemma NoDup_row_positions {A : Type} (n : nat) (row : list A) :
  forall k, NoDup (map fst (imap (fun p s => (n, (k + p)%nat, s)) row)) /\
            forall e, In e (imap (fun p s => (n, (k + p)%nat, s)) row) ->
                      e.1.1 = n /\ (k <= e.1.2)%nat.
Proof.
  induction row as [|s row IH]; intros k.
  - split; [constructor|]. intros e [].
  - simpl. destruct (IH (S k)) as [Hnd Hin].
    assert (Heq : imap ((fun p s => (n, (k + p)%nat, s)) ∘ S) row
                  = imap (fun p s => (n, (S k + p)%nat, s)) row).
    { apply imap_ext. intros i x _. simpl. do 2 f_equal. lia. }
    rewrite Heq. split.
    + apply NoDup_cons. split; [|exact Hnd].
      intros Hc. apply list_elem_of_In, in_map_iff in Hc.
      destruct Hc as (e & He & Hein). destruct (Hin e Hein) as [_ Hk].
      rewrite He in Hk. simpl in Hk. lia.
    + intros e [<-|He]; [simpl; split; [reflexivity|lia]|].
      destruct (Hin e He). split; [assumption|lia].
Qed.

Lemma NoDup_entries_from {A : Type} (S : list (list A)) :
  forall k,
    NoDup (map fst (concat (imap (fun n row =>
                                    imap (fun p s => ((k + n)%nat, p, s)) row) S)))
    /\ forall e, In e (concat (imap (fun n row =>
                                       imap (fun p s => ((k + n)%nat, p, s)) row) S))
                 -> (k <= e.1.1)%nat.
Proof.
  induction S as [|row S IH]; intros k.
  - split; [constructor|]. intros e [].
  - simpl. destruct (IH (Datatypes.S k)) as [Hnd Hin].
    assert (Heq : imap ((fun n row => imap (fun p s => ((k + n)%nat, p, s)) row)
                        ∘ Datatypes.S) S
                  = imap (fun n row =>
                            imap (fun p s => ((Datatypes.S k + n)%nat, p, s)) row) S).
    { apply imap_ext. intros i x _. simpl. apply imap_ext. intros j y _.
      do 2 f_equal. lia. }
    rewrite Heq.
    destruct (NoDup_row_positions (k + 0) row 0) as [Hr Hrin].
    simpl in Hr, Hrin. split.
    + rewrite map_app. apply NoDup_app. split; [exact Hr|]. split; [|exact Hnd].
      intros pos H1 H2. apply list_elem_of_In, in_map_iff in H1, H2.
      destruct H1 as (e1 & <- & He1). destruct H2 as (e2 & Heq2 & He2).
      destruct (Hrin e1 He1) as [Hn _]. pose proof (Hin e2 He2) as Hk.
      rewrite Heq2, Hn in Hk. lia.
    + intros e He. apply in_app_or in He. destruct He as [He|He].
      * destruct (Hrin e He) as [Hn _]. lia.
      * pose proof (Hin e He). lia.
Qed.

Lemma NoDup_entries {A : Type} (S : list (list A)) :
  NoDup (map fst (entries S)).
Proof. apply (NoDup_entries_from S 0). Qed.

Lemma NoDup_omap_key {A B K K' : Type} (f : A -> option B) (pos : A -> K)
    (key : B -> K') (h : K -> K') (l : list A) :
  (forall x y, h x = h y -> x = y) ->
  (forall e y, f e = Some y -> key y = h (pos e)) ->
  NoDup (map pos l) -> NoDup (map key (omap f l)).
Proof.
  intros Hinj Hkey. induction l as [|e l IH]; intros Hnd; [constructor|].
  simpl in Hnd. apply NoDup_cons in Hnd. destruct Hnd as [He Hnd].
  cbn. destruct (f e) as [y|] eqn:Hf; [|apply IH, Hnd].
  simpl. apply NoDup_cons. split; [|apply IH, Hnd].
  intros Hc. apply He. apply list_elem_of_In, in_map_iff in Hc.
  destruct Hc as (y' & Hy' & Hin).
  apply list_elem_of_In, list_elem_of_omap in Hin.
  destruct Hin as (e' & He' & Hf').
  apply list_elem_of_In, in_map_iff. exists e'. split.
  - apply Hinj. rewrite <- (Hkey _ _ Hf'), <- (Hkey _ _ Hf). exact Hy'.
  - apply list_elem_of_In, He'.
Qed.

(** X22.  The OMP engine never returns two detections of the same
    template at the same sample: each entry of [final_amplitudes]
    yields at most one record. *)
Theorem omp_no_duplicates (d : OMP.params) (traces : matrix) (fuel : nat)
    (spikes : list spike) :
  OMP.main_function fuel traces d = Ok spikes ->
  NoDup (map (fun s => (cluster_index s, sample_index s)) spikes).
Proof.
  intros H. unfold OMP.main_function in H.
  destruct (OMP.initial_scores d traces) as [sps|e|]; try discriminate.
  destruct (OMP.loop _ _ _ _ _) as [st|e|]; try discriminate.
  injection H as <-. unfold OMP.emit.
  apply NoDup_ListNoDup.
  eapply Permutation_NoDup;
    [apply Permutation_map, Permutation_sym, argsort_spikes_perm|].
  apply NoDup_ListNoDup. unfold OMP.retained.
  apply (NoDup_omap_key _ fst _
           (fun pos : nat * nat =>
              (pos.1, (Z.of_nat pos.2 + Z.of_nat (OMP.nbefore d))%Z))).
  - intros [n p] [n' p'] Heq. simpl in Heq. injection Heq as -> Hp.
    f_equal. lia.
  - intros [[n p] a] y Hf. simpl in Hf.
    destruct (_ && _); [|discriminate]. injection Hf as <-. reflexivity.
  - apply NoDup_entries.
Qed.

(** ** Worked runs of the two engines *)

Lemma Rltb_tol_one : Rltb omp_tol (Rabs 1) = true.
Proof. rewrite Rabs_R1. apply Rltb_true. pose proof omp_tol_bounds. lra. Qed.

Lemma Rltb_tol_zero : Rltb omp_tol (Rabs 0) = false.
Proof. rewrite Rabs_R0. apply Rltb_false. pose proof omp_tol_bounds. lra. Qed.

Lemma Rleb_one_tol : Rleb 1 omp_tol = false.
Proof. apply Rleb_false. pose proof omp_tol_bounds. lra. Qed.

Lemma nrm2_zeros (n : nat) : nrm2 (repeat 0 n) = 0.
Proof. unfold nrm2. rewrite dot_repeat_zero. apply sqrt_0. Qed.

Ltac tol_tests :=
  repeat match goal with
         | |- context [Rltb omp_tol (Rabs ?e)] =>
             first [ replace (Rltb omp_tol (Rabs e)) with true
                       by (symmetry; replace e with 1 by field;
                           apply Rltb_tol_one)
                   | replace (Rltb omp_tol (Rabs e)) with false
                       by (symmetry; replace e with 0 by field;
                           apply Rltb_tol_zero) ]
         end.

Ltac read_arrays := unfold vget, mget, mrow, vget; simpl.

Lemma crossing_example_initial :
  OMP.initial_scores crossing_example crossing_example_trace
  = Ok crossing_example_scores.
Proof.
  unfold OMP.initial_scores. simpl.
  unfold OMP.ignore, OMP.convolve, OMP.conv_valid, OMP.scaled_filtered. simpl.
  read_arrays.
  unfold crossing_example_scores. repeat f_equal; ring.
Qed.

Lemma crossing_example_step1 :
  OMP.step crossing_example crossing_example_scores 3
    (OMP.init_state 2 3 crossing_example_scores)
  = OMP.Next crossing_example_state1.
Proof.
  unfold OMP.step, select_best, entries. simpl.
  unfold OMP.is_valid, vget. simpl. solve_Rltb. simpl. solve_Rltb.
  simpl.
  unfold OMP.cholesky_row, OMP.candidate. simpl.
  unfold potrs, solve_lower. simpl. read_arrays.
  replace (((1 - 0) / 1 - 0) / 1 / 1 - 0) with 1 by field.
  replace (((1 - 0) / 1 - 0) / 1 / 1) with 1 by field.
  rewrite Rltb_tol_one. simpl.
  unfold OMP.subtract, update_cols. simpl. read_arrays.
  unfold crossing_example_state1. repeat f_equal; ring.
Qed.

Lemma crossing_example_select2 :
  select_best (OMP.is_valid crossing_example)
    (OMP.scalar_products crossing_example_state1)
  = Some (1%nat, 0%nat, 1).
Proof.
  unfold select_best, entries. simpl.
  unfold OMP.is_valid, vget. simpl. solve_Rltb. simpl. solve_Rltb.
  reflexivity.
Qed.

Lemma crossing_example_row2 :
  OMP.cholesky_row crossing_example crossing_example_state1 1 0
  = Some [0; 1].
Proof.
  unfold OMP.cholesky_row, OMP.candidate. simpl.
  unfold OMP.gram_row, OMP.in_window. simpl.
  unfold solve_lower. simpl. read_arrays.
  replace ((0 - 0) / 1) with 0 by field.
  change [0] with (repeat 0 1). rewrite nrm2_zeros.
  replace (1 - 0 * (0 * 1)) with 1 by ring.
  rewrite Rleb_one_tol, sqrt_1. reflexivity.
Qed.

Lemma crossing_example_step2 :
  OMP.step crossing_example crossing_example_scores 3 crossing_example_state1
  = OMP.Next crossing_example_state2.
Proof.
  unfold OMP.step. rewrite crossing_example_select2, crossing_example_row2.
  simpl.
  unfold potrs, solve_lower. simpl. read_arrays.
  tol_tests. simpl.
  unfold OMP.subtract, update_cols. simpl. read_arrays.
  unfold crossing_example_state2. repeat f_equal; field.
Qed.

Lemma crossing_example_select3 :
  select_best (OMP.is_valid crossing_example)
    (OMP.scalar_products crossing_example_state2)
  = Some (0%nat, 2%nat, 0).
Proof.
  unfold select_best, entries. simpl.
  unfold OMP.is_valid, vget. simpl. solve_Rltb. simpl. solve_Rltb.
  reflexivity.
Qed.

Lemma crossing_example_candidate3 :
  (OMP.candidate crossing_example crossing_example_state2 0 2).2 = Some 0.
Proof.
  unfold OMP.candidate. simpl.
  unfold OMP.gram_row, OMP.in_window. simpl.
  unfold solve_lower. simpl. read_arrays. f_equal.
  unfold nrm2. simpl.
  replace ((1 - 0) / 1 * ((1 - 0) / 1)
           + ((0 - (0 * ((1 - 0) / 1) + 0)) / 1
              * ((0 - (0 * ((1 - 0) / 1) + 0)) / 1) + 0)) with 1 by field.
  rewrite sqrt_1. ring.
Qed.

Lemma crossing_example_loop :
  OMP.loop 3 crossing_example crossing_example_scores 3
    (OMP.init_state 2 3 crossing_example_scores)
  = Ok crossing_example_state2.
Proof.
  apply (omp_loop_iterate _ _ _ 2).
  - simpl. rewrite crossing_example_step1, crossing_example_step2. reflexivity.
  - left. apply (omp_step_dependent _ _ _ _ 0 2 0 0).
    + exact crossing_example_select3.
    + exact crossing_example_candidate3.
    + pose proof omp_tol_bounds. lra.
  - lia.
Qed.

Lemma crossing_example_run :
  OMP.main_function 3 crossing_example_trace crossing_example
  = Ok [ {| sample_index := 1; channel_index := 0; cluster_index := 1;
            amplitude := 1 |};
         {| sample_index := 3; channel_index := 0; cluster_index := 0;
            amplitude := 1 |} ].
Proof.
  unfold OMP.main_function. rewrite crossing_example_initial.
  change (length crossing_example_trace + 1 - OMP.num_samples crossing_example)%nat
    with 3%nat.
  change (OMP.num_templates crossing_example) with 2%nat.
  rewrite crossing_example_loop.
  unfold OMP.emit, OMP.retained. simpl. solve_Rltb. simpl. solve_Rltb.
  reflexivity.
Qed.

Lemma ignored_example_initial :
  OMP.initial_scores ignored_example crossing_example_trace
  = Ok ignored_example_scores.
Proof.
  unfold OMP.initial_scores. simpl.
  unfold OMP.ignore, OMP.convolve, OMP.conv_valid, OMP.scaled_filtered. simpl.
  read_arrays.
  unfold ignored_example_scores. repeat f_equal; ring.
Qed.

Lemma ignored_example_step :
  OMP.step ignored_example ignored_example_scores 3
    (OMP.init_state 2 3 ignored_example_scores)
  = OMP.Next ignored_example_state.
Proof.
  unfold OMP.step, select_best, entries. simpl.
  unfold OMP.is_valid, vget. simpl. solve_Rltb. simpl. solve_Rltb.
  simpl.
  unfold OMP.cholesky_row, OMP.candidate. simpl.
  unfold potrs, solve_lower. simpl. read_arrays.
  tol_tests. simpl.
  unfold OMP.subtract, update_cols. simpl. read_arrays.
  unfold ignored_example_state. repeat f_equal; field.
Qed.

Lemma ignored_example_loop :
  OMP.loop 2 ignored_example ignored_example_scores 3
    (OMP.init_state 2 3 ignored_example_scores)
  = Ok ignored_example_state.
Proof.
  apply (omp_loop_iterate _ _ _ 1).
  - simpl. rewrite ignored_example_step. reflexivity.
  - left. apply (omp_step_dependent _ _ _ _ 1 0 0 0).
    + unfold select_best, entries. simpl.
      unfold OMP.is_valid, vget. simpl. solve_Rltb. simpl. solve_Rltb.
      reflexivity.
    + unfold OMP.candidate. simpl.
      unfold OMP.gram_row, OMP.in_window. simpl.
      unfold solve_lower. simpl. read_arrays. f_equal.
      unfold nrm2. simpl.
      replace ((1 - 0) / 1 * ((1 - 0) / 1) + 0) with 1 by field.
      rewrite sqrt_1. ring.
    + pose proof omp_tol_bounds. lra.
  - lia.
Qed.

Lemma ignored_example_run :
  OMP.main_function 2 crossing_example_trace ignored_example
  = Ok [ {| sample_index := 1; channel_index := 0; cluster_index := 1;
            amplitude := 1 |} ].
Proof.
  unfold OMP.main_function. rewrite ignored_example_initial.
  change (length crossing_example_trace + 1 - OMP.num_samples ignored_example)%nat
    with 3%nat.
  change (OMP.num_templates ignored_example) with 2%nat.
  rewrite ignored_example_loop.
  unfold OMP.emit, OMP.retained. simpl. solve_Rltb. simpl. solve_Rltb.
  reflexivity.
Qed.

Lemma refractory_example_peaks :
  positive_samples (Greedy.peak_traces greedy_example refractory_example_trace)
  = ([1%Z; 4%Z], [0%Z; 0%Z]).
Proof.
  change (Greedy.peak_traces greedy_example refractory_example_trace)
    with [[0]; [1]; [0]; [0]; [5 / 4]; [0]].
  unfold positive_samples. simpl. unfold vget. simpl.
  solve_Rltb. reflexivity.
Qed.

Lemma refractory_example_run :
  Greedy.main_function positive_samples 3 refractory_example_trace
    greedy_example
  = Ok [ {| sample_index := 2; channel_index := 0; cluster_index := 0;
            amplitude := 1 |};
         {| sample_index := 5; channel_index := 0; cluster_index := 0;
            amplitude := 5 / 4 |} ].
Proof.
  unfold Greedy.main_function. rewrite refractory_example_peaks.
  change (Greedy.peak_traces greedy_example refractory_example_trace)
    with [[0]; [1]; [0]; [0]; [5 / 4]; [0]].
  change (Greedy.expand_peaks greedy_example
            (length [[0]; [1]; [0]; [0]; [5 / 4]; [0]]) [1%Z; 4%Z] [0%Z; 0%Z])
    with ([1%Z; 3%Z; 4%Z], [0%Z; 0%Z; 0%Z]).
  cbv iota beta.
  change (Greedy.snippets greedy_example refractory_example_trace
            [1%Z; 3%Z; 4%Z])
    with (Ok [[0; 1]; [0; 0]; [0; 5 / 4]]).
  cbv iota beta.
  replace (Greedy.scores greedy_example [[0; 1]; [0; 0]; [0; 5 / 4]])
    with [[Fin 1; Fin 0; Fin (5 / 4)]]
    by (simpl; repeat f_equal; ring).
  change (Greedy.shift greedy_example [1%Z; 3%Z; 4%Z]) with [2%Z; 4%Z; 5%Z].
  change (length [[Fin 1; Fin 0; Fin (5 / 4)]] * length [1%Z; 3%Z; 4%Z])%nat
    with 3%nat.
  cbn [Greedy.loop].
  assert (Hsel1 : select_best (Greedy.is_valid greedy_example)
                    [[Fin 1; Fin 0; Fin (5 / 4)]]
                  = Some (0%nat, 2%nat, 5 / 4)).
  { unfold select_best. simpl. unfold Greedy.is_valid, Greedy.min_sps,
      Greedy.max_sps. simpl. change (vget [1] 0) with 1.
    solve_Rltb. simpl. solve_Rltb. reflexivity. }
  unfold Greedy.step at 1. cbn [Greedy.scalar_products Greedy.spikes].
  rewrite Hsel1. cbn [length Nat.leb].
  change (Greedy.update greedy_example [2%Z; 4%Z; 5%Z] 0 2 (5 / 4)
            [[Fin 1; Fin 0; Fin (5 / 4)]])
    with [[Fin 1; NegInf; NegInf]].
  assert (Hsel2 : select_best (Greedy.is_valid greedy_example)
                    [[Fin 1; NegInf; NegInf]]
                  = Some (0%nat, 0%nat, 1)).
  { unfold select_best. simpl. unfold Greedy.is_valid, Greedy.min_sps,
      Greedy.max_sps. simpl. change (vget [1] 0) with 1.
    solve_Rltb. reflexivity. }
  unfold Greedy.step at 1. cbn [Greedy.scalar_products Greedy.spikes].
  rewrite Hsel2. cbn [length Nat.leb app].
  change (Greedy.update greedy_example [2%Z; 4%Z; 5%Z] 0 0 1
            [[Fin 1; NegInf; NegInf]])
    with [[NegInf; NegInf; NegInf]].
  unfold Greedy.step. cbn [Greedy.scalar_products Greedy.spikes].
  change (select_best (Greedy.is_valid greedy_example)
            [[NegInf; NegInf; NegInf]])
    with (@None (nat * nat * R)).
  cbv iota beta. cbn [Greedy.spikes app nth].
  unfold Greedy.emit. simpl. change (vget [1] 0) with 1.
  replace (1 / 1) with 1 by field.
  replace (5 / 4 / 1) with (5 / 4) by field. reflexivity.
Qed.

(** ** C4: exit on linearly dependent atoms *)

Lemma omp_emit_NoDup (d : OMP.params) (fa : matrix) :
  NoDup (OMP.emit d fa).
Proof.
  apply (NoDup_fmap_1 (fun s => (cluster_index s, sample_index s))).
  unfold OMP.emit. apply NoDup_ListNoDup.
  eapply Permutation_NoDup;
    [apply Permutation_map, Permutation_sym, argsort_spikes_perm|].
  apply NoDup_ListNoDup. unfold OMP.retained.
  apply (NoDup_omap_key _ fst _
           (fun pos : nat * nat =>
              (pos.1, (Z.of_nat pos.2 + Z.of_nat (OMP.nbefore d))%Z))).
  - intros [n p] [n' p'] Heq. simpl in Heq. injection Heq as -> Hp.
    f_equal. lia.
  - intros [[n p] a] y Hf. simpl in Hf.
    destruct (_ && _); [|discriminate]. injection Hf as <-. reflexivity.
  - apply NoDup_entries.
Qed.

(** C4.  If, after [k] full turns of the OMP loop, the candidate
    Cholesky diagonal [Lkk = 1 - |x|^2] of the atom selected next is at
    most [omp_tol] (float32 machine epsilon), the loop stops there with
    the state of those [k] turns, without raising, and [main_function]
    returns normally.  What it returns is ordered by [sample_index],
    holds no record twice, and holds exactly the records of the entries
    [(m, q)] whose amplitude accumulated in those [k] turns lies
    strictly inside the band. *)
Theorem omp_dependent_exit (d : OMP.params) (traces : matrix)
    (sps : list (list score)) (k fuel : nat) (st : OMP.state)
    (n p : nat) (x Lkk : R) :
  let P := (length traces + 1 - OMP.num_samples d)%nat in
  OMP.initial_scores d traces = Ok sps ->
  OMP.iterate k d sps P (OMP.init_state (OMP.num_templates d) P sps) = Some st ->
  select_best (OMP.is_valid d) (OMP.scalar_products st) = Some (n, p, x) ->
  (OMP.candidate d st n p).2 = Some Lkk ->
  Lkk <= omp_tol ->
  (k < fuel)%nat ->
  OMP.loop fuel d sps P (OMP.init_state (OMP.num_templates d) P sps) = Ok st /\
  exists spikes,
    OMP.main_function fuel traces d = Ok spikes /\
    StronglySorted spike_le spikes /\
    NoDup spikes /\
    (forall s, In s spikes <->
       exists m q a,
         entry (OMP.final_amplitudes st) m q = Some a /\
         (OMP.amplitudes d).1 < a < (OMP.amplitudes d).2 /\
         s = {| sample_index := Z.of_nat q + Z.of_nat (OMP.nbefore d);
                channel_index := 0; cluster_index := m; amplitude := a |}).
Proof.
  intros P Hs Hit Hsel Hc Hle Hfuel.
  assert (Hloop : OMP.loop fuel d sps P
                    (OMP.init_state (OMP.num_templates d) P sps) = Ok st).
  { apply (omp_loop_iterate d sps P k fuel _ st Hit); [|exact Hfuel].
    left. eapply omp_step_dependent; eassumption. }
  split; [exact Hloop|].
  exists (OMP.emit d (OMP.final_amplitudes st)). split; [|split; [|split]].
  - unfold OMP.main_function. rewrite Hs. fold P. rewrite Hloop. reflexivity.
  - apply argsort_spikes_sorted.
  - apply omp_emit_NoDup.
  - intros s. rewrite <- retained_in. unfold OMP.emit.
    split; apply Permutation_in; [|symmetry]; apply argsort_spikes_perm.
Qed.

Lemma omp_dependent_exit_witness :
  OMP.loop 3 crossing_example crossing_example_scores 3
    (OMP.init_state 2 3 crossing_example_scores)
  = Ok crossing_example_state2 /\
  exists spikes,
    OMP.main_function 3 crossing_example_trace crossing_example = Ok spikes /\
    StronglySorted spike_le spikes /\
    NoDup spikes /\
    (forall s, In s spikes <->
       exists m q a,
         entry [[0; 0; 1]; [1; 0; 0]] m q = Some a /\
         6 / 10 < a < 2 /\
         s = {| sample_index := Z.of_nat q + 1;
                channel_index := 0; cluster_index := m; amplitude := a |}).
Proof.
  apply (omp_dependent_exit crossing_example crossing_example_trace
           crossing_example_scores 2 3 crossing_example_state2 0 2 0 0).
  - exact crossing_example_initial.
  - simpl. rewrite crossing_example_step1, crossing_example_step2. reflexivity.
  - exact crossing_example_select3.
  - exact crossing_example_candidate3.
  - pose proof omp_tol_bounds. lra.
  - lia.
Defined.

(** ** C7, X13, X15, X22 on the worked runs *)

Lemma output_sorted_witness :
  (OMP.main_function 3 crossing_example_trace crossing_example
   = Ok [ {| sample_index := 1; channel_index := 0; cluster_index := 1;
             amplitude := 1 |};
          {| sample_index := 3; channel_index := 0; cluster_index := 0;
             amplitude := 1 |} ] /\
   StronglySorted spike_le
     [ {| sample_index := 1; channel_index := 0; cluster_index := 1;
          amplitude := 1 |};
       {| sample_index := 3; channel_index := 0; cluster_index := 0;
          amplitude := 1 |} ]) /\
  OMP.main_function 7 crossing_example_trace crossing_example <> OutOfFuel /\
  (Greedy.main_function positive_samples 3 refractory_example_trace
     greedy_example
   = Ok [ {| sample_index := 2; channel_index := 0; cluster_index := 0;
             amplitude := 1 |};
          {| sample_index := 5; channel_index := 0; cluster_index := 0;
             amplitude := 5 / 4 |} ] /\
   StronglySorted spike_le
     [ {| sample_index := 2; channel_index := 0; cluster_index := 0;
          amplitude := 1 |};
       {| sample_index := 5; channel_index := 0; cluster_index := 0;
          amplitude := 5 / 4 |} ]) /\
  (exists bound, forall fuel,
     (bound < fuel)%nat ->
     Greedy.main_function positive_samples fuel refractory_example_trace
       greedy_example <> OutOfFuel).
Proof.
  destruct output_sorted as (Homp & Hfuel & Hgreedy & Hbound).
  split; [split; [exact crossing_example_run|]|split; [|split; [split|]]].
  - exact (Homp 3%nat crossing_example_trace crossing_example _
             crossing_example_run).
  - apply (Hfuel crossing_example_trace crossing_example 7%nat).
    unfold OMP.num_samples. simpl. lia.
  - exact refractory_example_run.
  - exact (Hgreedy positive_samples 3%nat refractory_example_trace
             greedy_example _ refractory_example_run).
  - exact (Hbound positive_samples refractory_example_trace greedy_example).
Defined.

Lemma omp_ignored_never_detected_witness :
  exists st,
    OMP.loop 2 ignored_example ignored_example_scores 3
      (OMP.init_state 2 3 ignored_example_scores) = Ok st /\
    OMP.selection st = [(1%nat, 0%nat)] /\
    (forall s, In s (OMP.selection st) -> ~ In s.1 [0%nat]) /\
    (forall n p a, In n [0%nat] ->
       entry (OMP.final_amplitudes st) n p = Some a -> a = 0).
Proof.
  destruct (proj1 (omp_ignored_never_detected ignored_example
                     crossing_example_trace 2 _ ignored_example_run))
    as (sps & st & Hs & Hl & Hsel & Hfa).
  rewrite ignored_example_initial in Hs. injection Hs as <-.
  exists st. split; [exact Hl|]. split; [|split; [exact Hsel|exact Hfa]].
  change (length crossing_example_trace + 1 - OMP.num_samples ignored_example)%nat
    with 3%nat in Hl.
  change (OMP.num_templates ignored_example) with 2%nat in Hl.
  rewrite ignored_example_loop in Hl. injection Hl as <-. reflexivity.
Defined.

Lemma greedy_refractory_witness :
  Greedy.main_function positive_samples 3 refractory_example_trace
    greedy_example
  = Ok [ {| sample_index := 2; channel_index := 0; cluster_index := 0;
            amplitude := 1 |};
         {| sample_index := 5; channel_index := 0; cluster_index := 0;
            amplitude := 5 / 4 |} ] /\
  NoDup [(0%nat, 2%Z); (0%nat, 5%Z)] /\
  (Z.of_nat (Greedy.num_samples greedy_example) <= Z.abs (2 - 5))%Z.
Proof.
  split; [exact refractory_example_run|].
  destruct (greedy_refractory positive_samples greedy_example
              refractory_example_trace 3 _
              ltac:(unfold Greedy.num_samples; simpl; lia)
              refractory_example_run) as [Hnd Hfar].
  split; [exact Hnd|].
  apply (Hfar {| sample_index := 2; channel_index := 0; cluster_index := 0;
                 amplitude := 1 |}
              {| sample_index := 5; channel_index := 0; cluster_index := 0;
                 amplitude := 5 / 4 |}).
  - left. reflexivity.
  - right. left. reflexivity.
  - reflexivity.
  - simpl. lia.
Defined.

Lemma omp_no_duplicates_witness :
  OMP.main_function 3 crossing_example_trace crossing_example
  = Ok [ {| sample_index := 1; channel_index := 0; cluster_index := 1;
            amplitude := 1 |};
         {| sample_index := 3; channel_index := 0; cluster_index := 0;
            amplitude := 1 |} ] /\
  NoDup [(1%nat, 1%Z); (0%nat, 3%Z)].
Proof.
  split; [exact crossing_example_run|].
  exact (omp_no_duplicates crossing_example crossing_example_trace 3 _
           crossing_example_run).
Defined.
